(** * games: cached NFL / CFB schedule listing (src/index.ts)

    A shallow embedding of the command-line tool of [src/index.ts] and the
    properties of its cache-backed fetch layer, its normaliser, its
    filter / sort pipeline and its command surface.

    Conventions of the embedding:
    - JavaScript numbers that hold integers (epoch milliseconds, week
      numbers, day offsets, HTTP status codes) are [Z]; [NaN] is [None];
    - a JavaScript string is held as the bytes of its UTF-8 encoding (the
      form in which the command line and the upstream documents arrive);
      prefix and substring tests on such bytes agree with those on the
      text;
    - [string | null] fields are [option string]; JavaScript truthiness of
      such a value is [truthy];
    - a team name read through the team lookup is a [Name]: a string, or a
      member that the lookup object inherits from [Object.prototype];
    - the process state (cache directory, clock, issued HTTP requests,
      console streams) is threaded explicitly through a state-and-exception
      monad [M]; an [async] call is a computation that runs to its first
      pending [await] and leaves its continuation ([Pending]);
    - the file system is the cache directory alone, and a call on it fails
      only for a file or directory that is not there: permissions and
      device errors are not modelled;
    - what the platform supplies and the repository does not define
      ([JSON.parse], [JSON.stringify], the HTTP peer, the engine's date
      parser, its case mappings of arbitrary text, its
      [Array.prototype.sort], the
      locale's time formatter, the local time zone) is taken as a parameter
      of the section [Program]; what the language standard promises of
      such a parameter is a hypothesis of the theorems that rely on it. *)

From Stdlib Require Import ZArith Lia Bool List String Ascii DecimalString.
From Stdlib Require Import Sorting.Sorted Sorting.Permutation DecimalPos.
From stdpp Require Import base option gmap strings.

Import ListNotations.
Local Open Scope string_scope.
Local Open Scope Z_scope.

(** ** JavaScript string and value helpers *)

Module JS.

(** Truthiness of a string: only the empty string is falsy. *)
Definition truthy_string (s : string) : bool :=
  match s with EmptyString => false | String _ _ => true end.

(** Truthiness of a [string | null] (or possibly-undefined) value. *)
Definition truthy (o : option string) : bool :=
  match o with Some s => truthy_string s | None => false end.

(** [x || null] on a [string | null | undefined] value. *)
Definition or_null (o : option string) : option string :=
  if truthy o then o else None.

(** [x || d] where [d] is a string. *)
Definition or_else (o : option string) (d : string) : string :=
  match o with
  | Some s => if truthy_string s then s else d
  | None => d
  end.

(** [s.startsWith(t)]. *)
Definition startsWith (s t : string) : bool := String.prefix t s.

(** [s.includes(t)]: [t] occurs in [s] at some position. *)
Fixpoint includes (s t : string) : bool :=
  String.prefix t s ||
  match s with
  | EmptyString => false
  | String _ s' => includes s' t
  end.

(** Decimal rendering of an integer-valued number ([String(n)]). *)
Definition string_of_Z (n : Z) : string := NilZero.string_of_int (Z.to_int n).

(** Rendering of a possibly-[NaN] number. *)
Definition string_of_number (n : option Z) : string :=
  match n with Some z => string_of_Z z | None => "NaN" end.

Fixpoint replicate_string (n : nat) (c : ascii) : string :=
  match n with O => EmptyString | S n' => String c (replicate_string n' c) end.

(** [s.padStart(n, c)] for a one-character filler. *)
Definition padStart (n : nat) (c : ascii) (s : string) : string :=
  replicate_string (n - String.length s) c +:+ s.

(** [s.split(sep)[0]] for a one-character separator: the text before the
    first occurrence of [sep] (all of [s] when there is none). *)
Fixpoint split_head (sep : ascii) (s : string) : string :=
  match s with
  | EmptyString => EmptyString
  | String c s' => if Ascii.eqb c sep then EmptyString else String c (split_head sep s')
  end.

Definition is_digit (c : ascii) : bool :=
  let n := N_of_ascii c in ((48 <=? n) && (n <=? 57))%N.

Definition digit_value (c : ascii) : Z := Z.of_N (N_of_ascii c) - 48.

(** White space skipped by [parseInt]: the StrWhiteSpaceChar production
    (WhiteSpace and LineTerminator of the language standard). In UTF-8
    these are the single bytes TAB, LF, VT, FF, CR and SP; U+00A0 as C2 A0;
    U+1680 as E1 9A 80; U+2000 to U+200A, U+2028, U+2029 and U+202F as
    E2 80 followed by 80 to 8A, A8, A9 and AF; U+205F as E2 81 9F; U+3000
    as E3 80 80; U+FEFF as EF BB BF. *)
Definition is_space (c : ascii) : bool :=
  let n := N_of_ascii c in (((9 <=? n) && (n <=? 13)) || (n =? 32))%N.

Definition is_space2 (c1 c2 : ascii) : bool :=
  ((N_of_ascii c1 =? 194) && (N_of_ascii c2 =? 160))%N.

Definition is_space3 (c1 c2 c3 : ascii) : bool :=
  let a := N_of_ascii c1 in
  let b := N_of_ascii c2 in
  let c := N_of_ascii c3 in
  (((a =? 225) && (b =? 154) && (c =? 128))
   || ((a =? 226) && (b =? 128)
       && (((128 <=? c) && (c <=? 138)) || (c =? 168) || (c =? 169) || (c =? 175)))
   || ((a =? 226) && (b =? 129) && (c =? 159))
   || ((a =? 227) && (b =? 128) && (c =? 128))
   || ((a =? 239) && (b =? 187) && (c =? 191)))%N.

Fixpoint skip_spaces (s : string) : string :=
  match s with
  | String c1 s1 =>
      if is_space c1 then skip_spaces s1
      else
        match s1 with
        | String c2 s2 =>
            if is_space2 c1 c2 then skip_spaces s2
            else
              match s2 with
              | String c3 s3 => if is_space3 c1 c2 c3 then skip_spaces s3 else s
              | EmptyString => s
              end
        | EmptyString => s
        end
  | EmptyString => EmptyString
  end.

(** The value of the longest prefix of decimal digits, [None] when that
    prefix is empty. [acc] carries the digits read so far. *)
Fixpoint digits_prefix (acc : option Z) (s : string) : option Z :=
  match s with
  | String c s' =>
      if is_digit c
      then digits_prefix (Some (10 * default 0 acc + digit_value c)) s'
      else acc
  | EmptyString => acc
  end.

(** [parseInt(s, 10)]: leading white space is skipped, an optional sign is
    read, then the longest run of decimal digits; anything after it is
    ignored. [None] is [NaN]. *)
Definition parseInt (s : string) : option Z :=
  match skip_spaces s with
  | String "-" s' => Z.opp <$> digits_prefix None s'
  | String "+" s' => digits_prefix None s'
  | s' => digits_prefix None s'
  end.

Fixpoint all_digits (s : string) : bool :=
  match s with
  | EmptyString => true
  | String c s' => is_digit c && all_digits s'
  end.

(** The text is an integer: an optional sign, then one or more decimal
    digits and nothing else. *)
Definition integer_text (s : string) : bool :=
  let unsigned :=
    match s with
    | String "-" s' => s'
    | String "+" s' => s'
    | _ => s
    end in
  truthy_string unsigned && all_digits unsigned.

Definition upper_ascii (c : ascii) : ascii :=
  let n := N_of_ascii c in
  if ((97 <=? n) && (n <=? 122))%N then ascii_of_N (n - 32) else c.

Fixpoint map_string (f : ascii -> ascii) (s : string) : string :=
  match s with
  | EmptyString => EmptyString
  | String c s' => String (f c) (map_string f s')
  end.

(** [String.prototype.toUpperCase] on text of ASCII characters, where it
    turns a-z into A-Z and leaves every other character. The program
    applies it to the weekday names of the en-US locale and to
    "Invalid Date"; the case mappings of arbitrary text are parameters of
    the program. *)
Definition toUpperCase_ascii : string -> string := map_string upper_ascii.

End JS.

Example parseInt_samples :
  JS.parseInt "0" = Some 0 /\ JS.parseInt "+1" = Some 1 /\
  JS.parseInt "-1" = Some (-1) /\ JS.parseInt " 42" = Some 42 /\
  JS.parseInt "abc" = None /\ JS.parseInt "" = None /\
  JS.parseInt "-" = None /\ JS.parseInt "1.5" = Some 1 /\
  JS.parseInt "7days" = Some 7 /\ JS.parseInt "+ 1" = None /\
  JS.parseInt "--1" = None.
Proof. repeat split; reflexivity. Qed.

(** The no-break space U+00A0 and the byte order mark U+FEFF, in UTF-8. *)
Definition nbsp : string := String (ascii_of_nat 194) (String (ascii_of_nat 160) "").
Definition bom : string :=
  String (ascii_of_nat 239) (String (ascii_of_nat 187) (String (ascii_of_nat 191) "")).

Example parseInt_unicode_space :
  JS.parseInt (nbsp +:+ "5") = Some 5 /\ JS.parseInt (bom +:+ " -3x") = Some (-3) /\
  JS.parseInt (String (ascii_of_nat 194) "5") = None.
Proof. repeat split; reflexivity. Qed.

Example string_samples :
  JS.includes "philadelphia eagles" "eagles" = true /\
  JS.includes "philadelphia eagles" "zzzz" = false /\
  JS.padStart 2 "0" "9" = "09" /\ JS.string_of_Z (-12) = "-12" /\
  JS.split_head "T" "2025-09-01T18:00:00.000Z" = "2025-09-01" /\
  JS.toUpperCase_ascii "Invalid Date" = "INVALID DATE".
Proof. repeat split; reflexivity. Qed.

(** ** Time values and the calendar (ECMA-262, Date objects)

    A time value is a number of milliseconds since the epoch, in UTC. The
    functions below are the abstract operations of the language standard
    that [Date.prototype.getDate], [setDate], [getFullYear], [getMonth] and
    [toISOString] are defined by. *)

Module Time.

Definition msPerDay : Z := 86400000.

Definition Day (t : Z) : Z := t / msPerDay.
Definition TimeWithinDay (t : Z) : Z := t mod msPerDay.

(** Proleptic Gregorian date (year, month 1..12, day 1..31) of a day
    number counted from 1970-01-01. *)
Definition civil_from_days (z : Z) : Z * Z * Z :=
  let z := z + 719468 in
  let era := z / 146097 in
  let doe := z - era * 146097 in
  let yoe := (doe - doe / 1460 + doe / 36524 - doe / 146096) / 365 in
  let y := yoe + era * 400 in
  let doy := doe - (365 * yoe + yoe / 4 - yoe / 100) in
  let mp := (5 * doy + 2) / 153 in
  let d := doy - (153 * mp + 2) / 5 + 1 in
  let m := if mp <? 10 then mp + 3 else mp - 9 in
  (if m <=? 2 then y + 1 else y, m, d).

(** Day number of a proleptic Gregorian date. *)
Definition days_from_civil (y m d : Z) : Z :=
  let y := if m <=? 2 then y - 1 else y in
  let era := y / 400 in
  let yoe := y - era * 400 in
  let doy := (153 * (if 2 <? m then m - 3 else m + 9) + 2) / 5 + d - 1 in
  let doe := yoe * 365 + yoe / 4 - yoe / 100 + doy in
  era * 146097 + doe - 719468.

Definition YearFromTime (t : Z) : Z := fst (fst (civil_from_days (Day t))).
(** Months are numbered from 0 in the language. *)
Definition MonthFromTime (t : Z) : Z := snd (fst (civil_from_days (Day t))) - 1.
Definition DateFromTime (t : Z) : Z := snd (civil_from_days (Day t)).
(** 0 is Sunday; 1970-01-01 was a Thursday. *)
Definition WeekDay (t : Z) : Z := (Day t + 4) mod 7.

Definition HourFromTime (t : Z) : Z := (t / 3600000) mod 24.
Definition MinFromTime (t : Z) : Z := (t / 60000) mod 60.
Definition SecFromTime (t : Z) : Z := (t / 1000) mod 60.
Definition msFromTime (t : Z) : Z := t mod 1000.

Definition MakeDay (year month date : Z) : Z :=
  let ym := year + month / 12 in
  let mn := month mod 12 in
  days_from_civil ym (mn + 1) 1 + date - 1.

Definition MakeDate (day time : Z) : Z := day * msPerDay + time.

(** Time values beyond 100,000,000 days from the epoch are not
    representable: the Date becomes invalid ([NaN]). *)
Definition TimeClip (t : Z) : option Z :=
  if Z.abs t <=? 8640000000000000 then Some t else None.

Definition pad (n : nat) (z : Z) : string := JS.padStart n "0" (JS.string_of_Z z).

(** The year of the Date Time String Format: four digits for the years
    0 to 9999, a sign and six digits otherwise. *)
Definition iso_year (y : Z) : string :=
  if (0 <=? y) && (y <=? 9999) then pad 4 y
  else (if y <? 0 then "-" else "+") +:+ pad 6 (Z.abs y).

(** [toISOString] of a valid time value: always in UTC. *)
Definition toISOString (t : Z) : string :=
  iso_year (YearFromTime t) +:+ "-" +:+ pad 2 (MonthFromTime t + 1) +:+ "-" +:+
  pad 2 (DateFromTime t) +:+ "T" +:+ pad 2 (HourFromTime t) +:+ ":" +:+
  pad 2 (MinFromTime t) +:+ ":" +:+ pad 2 (SecFromTime t) +:+ "." +:+
  pad 3 (msFromTime t) +:+ "Z".

(** The text "YYYY-MM-DD" of a calendar date. *)
Definition ymd (date : Z * Z * Z) : string :=
  let '(y, m, d) := date in
  iso_year y +:+ "-" +:+ pad 2 m +:+ "-" +:+ pad 2 d.

Definition weekday_short (wd : Z) : string :=
  match wd with
  | 0 => "Sun" | 1 => "Mon" | 2 => "Tue" | 3 => "Wed"
  | 4 => "Thu" | 5 => "Fri" | _ => "Sat"
  end.

(** No character of [s] is [c]. *)
Fixpoint free_of (c : ascii) (s : string) : bool :=
  match s with
  | EmptyString => true
  | String c' s' => negb (Ascii.eqb c' c) && free_of c s'
  end.

End Time.

Example calendar_samples :
  Time.civil_from_days 0 = (1970, 1, 1) /\
  Time.civil_from_days (-1) = (1969, 12, 31) /\
  Time.civil_from_days 20332 = (2025, 9, 1) /\
  Time.days_from_civil 2025 9 1 = 20332 /\
  Time.days_from_civil 2024 2 29 + 1 = Time.days_from_civil 2024 3 1 /\
  Time.MakeDay 2025 8 31 = Time.days_from_civil 2025 10 1 /\
  Time.WeekDay (20332 * Time.msPerDay) = 1 /\
  Time.toISOString 1756749600000 = "2025-09-01T18:00:00.000Z" /\
  Time.toISOString (-1) = "1969-12-31T23:59:59.999Z".
Proof. repeat split; vm_compute; reflexivity. Qed.

(** The calendar date of a day number has its month in 1..12 and leads
    back to the day number: the first of its month, plus the day of the
    month, less one. *)
Lemma civil_roundtrip z :
  let '(y, m, d) := Time.civil_from_days z in
  1 <= m <= 12 /\ Time.days_from_civil y m 1 + d - 1 = z.
Proof.
  unfold Time.civil_from_days. cbv zeta.
  set (a := z + 719468). set (era := a / 146097). set (doe := a - era * 146097).
  assert (Hdoe : 0 <= doe <= 146096) by (subst doe era; Z.div_mod_to_equations; lia).
  set (yoe := (doe - doe / 1460 + doe / 36524 - doe / 146096) / 365).
  assert (Hyoe : 0 <= yoe <= 399) by (subst yoe; Z.div_mod_to_equations; lia).
  set (doy := doe - (365 * yoe + yoe / 4 - yoe / 100)).
  assert (Hdoy : 0 <= doy <= 366) by (subst doy yoe; Z.div_mod_to_equations; lia).
  set (mp := (5 * doy + 2) / 153).
  assert (Hmp : 0 <= mp <= 11) by (subst mp; Z.div_mod_to_equations; lia).
  set (m := if mp <? 10 then mp + 3 else mp - 9).
  set (y := yoe + era * 400).
  assert (Hm : 1 <= m <= 12 /\
               (if 2 <? m then m - 3 else m + 9) = mp /\
               (if m <=? 2 then (if m <=? 2 then y + 1 else y) - 1
                else (if m <=? 2 then y + 1 else y)) = y).
  { subst m. destruct (mp <? 10) eqn:E; [apply Z.ltb_lt in E|apply Z.ltb_ge in E].
    - replace (mp + 3 <=? 2) with false by (symmetry; apply Z.leb_gt; lia).
      replace (2 <? mp + 3) with true by (symmetry; apply Z.ltb_lt; lia). lia.
    - replace (mp - 9 <=? 2) with true by (symmetry; apply Z.leb_le; lia).
      replace (2 <? mp - 9) with false by (symmetry; apply Z.ltb_ge; lia). lia. }
  destruct Hm as (Hm1 & Hm2 & Hm3). split; [exact Hm1|].
  unfold Time.days_from_civil. cbv zeta. rewrite Hm2, Hm3. subst y.
  replace ((yoe + era * 400) / 400) with era by (Z.div_mod_to_equations; lia).
  replace (yoe + era * 400 - era * 400) with yoe by ring.
  subst doy doe a. lia.
Qed.

(** [MakeDay] on the fields of a time value gives its day number back,
    shifted by what is added to the day of the month. *)
Lemma MakeDay_fields t dt :
  Time.MakeDay (Time.YearFromTime t) (Time.MonthFromTime t) (Time.DateFromTime t + dt)
  = Time.Day t + dt.
Proof.
  pose proof (civil_roundtrip (Time.Day t)) as H.
  unfold Time.MakeDay, Time.YearFromTime, Time.MonthFromTime, Time.DateFromTime.
  destruct (Time.civil_from_days (Time.Day t)) as [[y m] d]. simpl.
  destruct H as [Hm H1].
  rewrite Z.div_small, Z.mod_small by lia.
  replace (y + 0) with y by ring. replace (m - 1 + 1) with m by ring. lia.
Qed.

(** The calendar date of a day number is a valid one. *)
Lemma civil_day_range z :
  let '(y, m, d) := Time.civil_from_days z in 1 <= m <= 12 /\ 1 <= d <= 31.
Proof.
  unfold Time.civil_from_days. cbv zeta.
  set (a := z + 719468). set (era := a / 146097). set (doe := a - era * 146097).
  assert (Hdoe : 0 <= doe <= 146096) by (subst doe era; Z.div_mod_to_equations; lia).
  set (yoe := (doe - doe / 1460 + doe / 36524 - doe / 146096) / 365).
  set (doy := doe - (365 * yoe + yoe / 4 - yoe / 100)).
  assert (Hdoy : 0 <= doy <= 365) by (subst doy yoe; Z.div_mod_to_equations; lia).
  set (mp := (5 * doy + 2) / 153).
  assert (Hmp : 0 <= mp <= 11) by (subst mp; Z.div_mod_to_equations; lia).
  assert (Hd : 1 <= doy - (153 * mp + 2) / 5 + 1 <= 31)
    by (subst mp; Z.div_mod_to_equations; lia).
  split; [|exact Hd].
  destruct (mp <? 10) eqn:E; [apply Z.ltb_lt in E|apply Z.ltb_ge in E]; lia.
Qed.

Lemma append_not_empty (a b : string) : b <> "" -> a +:+ b <> "".
Proof. destruct a; [now intros|discriminate]. Qed.

Lemma ymd_not_empty date : Time.ymd date <> "".
Proof.
  destruct date as [[y m] d]. unfold Time.ymd.
  apply append_not_empty. discriminate.
Qed.

(** The text of [toISOString] before its first T is the calendar date. *)

Lemma append_cons x (a b : string) : String x a +:+ b = String x (a +:+ b).
Proof. reflexivity. Qed.

Lemma free_of_app c (a b : string) :
  Time.free_of c (a +:+ b) = Time.free_of c a && Time.free_of c b.
Proof.
  induction a as [|x a IH]; [reflexivity|].
  rewrite append_cons. cbn [Time.free_of]. rewrite IH. now rewrite andb_assoc.
Qed.

Lemma split_head_app sep (a b : string) :
  Time.free_of sep a = true ->
  JS.split_head sep (a +:+ b) = a +:+ JS.split_head sep b.
Proof.
  induction a as [|x a IH]; intros H; [reflexivity|].
  rewrite !append_cons. cbn [Time.free_of JS.split_head] in *.
  apply andb_true_iff in H as [Hx Ha]. apply negb_true_iff in Hx.
  rewrite Hx. now rewrite IH.
Qed.

Lemma append_assoc (a b c : string) : (a +:+ b) +:+ c = a +:+ (b +:+ c).
Proof. induction a as [|x a IH]; [reflexivity|]. rewrite !append_cons. now rewrite IH. Qed.

Lemma append_empty_r (a : string) : a +:+ "" = a.
Proof. induction a as [|x a IH]; [reflexivity|]. rewrite append_cons. now rewrite IH. Qed.

Lemma free_of_string_of_uint (u : Decimal.uint) :
  Time.free_of "T" (NilEmpty.string_of_uint u) = true.
Proof. induction u; simpl; auto. Qed.

Lemma free_of_string_of_Z (z : Z) : Time.free_of "T" (JS.string_of_Z z) = true.
Proof.
  unfold JS.string_of_Z, NilZero.string_of_int, NilZero.string_of_uint.
  destruct (Z.to_int z) as [u|u]; destruct u; simpl;
    auto using free_of_string_of_uint.
Qed.

Lemma free_of_pad n z : Time.free_of "T" (Time.pad n z) = true.
Proof.
  unfold Time.pad, JS.padStart. rewrite free_of_app, free_of_string_of_Z.
  rewrite andb_true_r. induction (n - String.length (JS.string_of_Z z))%nat; simpl; auto.
Qed.

Lemma free_of_iso_year y : Time.free_of "T" (Time.iso_year y) = true.
Proof.
  unfold Time.iso_year.
  destruct ((0 <=? y) && (y <=? 9999)); [apply free_of_pad|].
  destruct (y <? 0); rewrite free_of_app, free_of_pad; reflexivity.
Qed.

Lemma toISOString_date t :
  JS.split_head "T" (Time.toISOString t) = Time.ymd (Time.civil_from_days (Time.Day t)).
Proof.
  unfold Time.toISOString, Time.YearFromTime, Time.MonthFromTime, Time.DateFromTime,
    Time.ymd.
  destruct (Time.civil_from_days (Time.Day t)) as [[y m] d]. simpl fst; simpl snd.
  replace (m - 1 + 1) with m by ring.
  rewrite !split_head_app
    by (apply free_of_iso_year || apply free_of_pad || reflexivity).
  rewrite (append_cons "T"). cbn [JS.split_head]. rewrite Ascii.eqb_refl.
  now rewrite append_empty_r.
Qed.

(** Reading back the decimal text of an integer. *)
Lemma digits_prefix_step (a : Z) (c : ascii) (r : string) :
  JS.is_digit c = true ->
  JS.digits_prefix (Some a) (String c r)
  = JS.digits_prefix (Some (10 * a + JS.digit_value c)) r.
Proof. intros H. cbn [JS.digits_prefix]. now rewrite H. Qed.

Lemma digits_prefix_first (c : ascii) (r : string) :
  JS.is_digit c = true ->
  JS.digits_prefix None (String c r) = JS.digits_prefix (Some (JS.digit_value c)) r.
Proof. intros H. cbn [JS.digits_prefix]. now rewrite H. Qed.

Ltac digit_case IH :=
  rewrite digits_prefix_step by reflexivity;
  match goal with |- context [JS.digit_value ?c] =>
    let v := eval vm_compute in (JS.digit_value c) in
    change (JS.digit_value c) with v
  end;
  rewrite IH by lia; do 3 f_equal; apply Pos2Z.inj;
  rewrite ?Pos2Z.inj_add, ?Pos2Z.inj_mul, !Z2Pos.id by lia; lia.

Lemma digits_prefix_acc (u : Decimal.uint) (a : Z) :
  0 < a ->
  JS.digits_prefix (Some a) (NilEmpty.string_of_uint u)
  = Some (Z.pos (Pos.of_uint_acc u (Z.to_pos a))).
Proof.
  revert a. induction u as [|u IH|u IH|u IH|u IH|u IH|u IH|u IH|u IH|u IH|u IH];
    intros a Ha; cbn [NilEmpty.string_of_uint Pos.of_uint_acc];
    [cbn [JS.digits_prefix]; now rewrite Z2Pos.id by lia|digit_case IH..].
Qed.

Ltac first_digit :=
  rewrite digits_prefix_first by reflexivity;
  match goal with |- context [JS.digit_value ?c] =>
    let v := eval vm_compute in (JS.digit_value c) in
    change (JS.digit_value c) with v
  end.

Lemma digits_prefix_zero (u : Decimal.uint) :
  JS.digits_prefix (Some 0) (NilEmpty.string_of_uint u) = Some (Z.of_N (Pos.of_uint u)).
Proof.
  induction u as [|u IH|u IH|u IH|u IH|u IH|u IH|u IH|u IH|u IH|u IH];
    cbn [NilEmpty.string_of_uint Pos.of_uint];
    [reflexivity|rewrite digits_prefix_step by reflexivity; exact IH|..];
    rewrite digits_prefix_step by reflexivity;
    match goal with |- context [JS.digit_value ?c] =>
      let v := eval vm_compute in (10 * 0 + JS.digit_value c) in
      change (10 * 0 + JS.digit_value c) with v
    end;
    rewrite digits_prefix_acc by lia; reflexivity.
Qed.

Lemma digits_prefix_uint (u : Decimal.uint) :
  u <> Decimal.Nil ->
  JS.digits_prefix None (NilEmpty.string_of_uint u) = Some (Z.of_N (Pos.of_uint u)).
Proof.
  intros Hu. destruct u as [|u|u|u|u|u|u|u|u|u|u]; [congruence|..];
    cbn [NilEmpty.string_of_uint Pos.of_uint]; first_digit;
    [apply digits_prefix_zero|..];
    rewrite digits_prefix_acc by lia; reflexivity.
Qed.

(** [parseInt] skips nothing before a sign or a digit. *)
Lemma skip_spaces_stop (c : ascii) (s : string) :
  JS.is_space c = false -> (N_of_ascii c <? 128)%N = true ->
  JS.skip_spaces (String c s) = String c s.
Proof.
  intros Hs Hc. apply N.ltb_lt in Hc.
  assert (H2 : forall c2, JS.is_space2 c c2 = false).
  { intros c2. unfold JS.is_space2.
    replace (N_of_ascii c =? 194)%N with false by (symmetry; apply N.eqb_neq; lia).
    reflexivity. }
  assert (H3 : forall c2 c3, JS.is_space3 c c2 c3 = false).
  { intros c2 c3. unfold JS.is_space3. cbv zeta.
    replace (N_of_ascii c =? 225)%N with false by (symmetry; apply N.eqb_neq; lia).
    replace (N_of_ascii c =? 226)%N with false by (symmetry; apply N.eqb_neq; lia).
    replace (N_of_ascii c =? 227)%N with false by (symmetry; apply N.eqb_neq; lia).
    replace (N_of_ascii c =? 239)%N with false by (symmetry; apply N.eqb_neq; lia).
    reflexivity. }
  cbn [JS.skip_spaces]. rewrite Hs.
  destruct s as [|c2 [|c3 s3]]; [reflexivity|now rewrite H2|].
  now rewrite H2, H3.
Qed.

Lemma parseInt_plus (s : string) :
  JS.parseInt (String "+" s) = JS.digits_prefix None s.
Proof. unfold JS.parseInt. now rewrite skip_spaces_stop. Qed.

Lemma parseInt_minus (s : string) :
  JS.parseInt (String "-" s) = Z.opp <$> JS.digits_prefix None s.
Proof. unfold JS.parseInt. now rewrite skip_spaces_stop. Qed.

Lemma parseInt_digit (c : ascii) (s : string) :
  JS.is_digit c = true ->
  JS.parseInt (String c s) = JS.digits_prefix None (String c s).
Proof.
  intros Hd. unfold JS.parseInt.
  assert (Hn : (48 <= N_of_ascii c <= 57)%N).
  { unfold JS.is_digit in Hd. cbv zeta in Hd. apply andb_true_iff in Hd as [H1 H2].
    apply N.leb_le in H1, H2. lia. }
  rewrite skip_spaces_stop.
  - destruct (ascii_dec c "-") as [->|Hm]; [discriminate Hd|].
    destruct (ascii_dec c "+") as [->|Hp]; [discriminate Hd|].
    destruct c as [[] [] [] [] [] [] [] []]; try reflexivity; congruence.
  - unfold JS.is_space. cbv zeta.
    replace (N_of_ascii c <=? 13)%N with false by (symmetry; apply N.leb_gt; lia).
    replace (N_of_ascii c =? 32)%N with false by (symmetry; apply N.eqb_neq; lia).
    now rewrite andb_false_r.
  - apply N.ltb_lt. lia.
Qed.

Lemma string_of_uint_digit (u : Decimal.uint) :
  u <> Decimal.Nil ->
  exists c s, NilEmpty.string_of_uint u = String c s /\ JS.is_digit c = true.
Proof. destruct u; [congruence|intros _; eexists _, _; split; reflexivity..]. Qed.

Lemma parseInt_uint (u : Decimal.uint) :
  u <> Decimal.Nil ->
  JS.parseInt (NilEmpty.string_of_uint u) = Some (Z.of_N (Pos.of_uint u)) /\
  JS.parseInt (String "+" (NilEmpty.string_of_uint u)) = Some (Z.of_N (Pos.of_uint u)) /\
  JS.parseInt (String "-" (NilEmpty.string_of_uint u)) = Some (- Z.of_N (Pos.of_uint u)) /\
  JS.truthy_string (NilEmpty.string_of_uint u) = true.
Proof.
  intros Hu. pose proof (digits_prefix_uint u Hu) as H.
  assert (Hp : JS.parseInt (NilEmpty.string_of_uint u)
               = JS.digits_prefix None (NilEmpty.string_of_uint u)).
  { destruct (string_of_uint_digit u Hu) as (c & s & -> & Hc). now apply parseInt_digit. }
  rewrite Hp, H. split; [reflexivity|]. split; [|split].
  - rewrite parseInt_plus. exact H.
  - rewrite parseInt_minus. now rewrite H.
  - destruct u; [congruence|reflexivity..].
Qed.

Lemma parseInt_string_of_Z (n : Z) :
  JS.parseInt (JS.string_of_Z n) = Some n /\
  (0 <= n -> JS.parseInt (String "+" (JS.string_of_Z n)) = Some n) /\
  JS.truthy_string (JS.string_of_Z n) = true.
Proof.
  destruct n as [|p|p].
  - repeat split.
  - pose proof (parseInt_uint (Pos.to_uint p) (DecimalPos.Unsigned.to_uint_nonnil p))
      as (H1 & H2 & _ & H4).
    rewrite DecimalPos.Unsigned.of_to in H1, H2.
    assert (Hs : JS.string_of_Z (Z.pos p) = NilEmpty.string_of_uint (Pos.to_uint p)).
    { unfold JS.string_of_Z, NilZero.string_of_int, NilZero.string_of_uint.
      cbn [Z.to_int].
      pose proof (DecimalPos.Unsigned.to_uint_nonnil p).
      destruct (Pos.to_uint p); [congruence|reflexivity..]. }
    rewrite Hs. split; [exact H1|]. split; [intros _; exact H2|exact H4].
  - pose proof (parseInt_uint (Pos.to_uint p) (DecimalPos.Unsigned.to_uint_nonnil p))
      as (_ & _ & H3 & _).
    rewrite DecimalPos.Unsigned.of_to in H3.
    assert (Hs : JS.string_of_Z (Z.neg p)
                 = String "-" (NilEmpty.string_of_uint (Pos.to_uint p))).
    { unfold JS.string_of_Z, NilZero.string_of_int, NilZero.string_of_uint.
      cbn [Z.to_int].
      pose proof (DecimalPos.Unsigned.to_uint_nonnil p).
      destruct (Pos.to_uint p); [congruence|reflexivity..]. }
    rewrite Hs. split; [exact H3|]. split; [lia|reflexivity].
Qed.

(** Text after the digits is not read. *)
Definition starts_with_digit (s : string) : bool :=
  match s with String c _ => JS.is_digit c | EmptyString => false end.

Lemma digits_prefix_stop (x : option Z) (r : string) :
  starts_with_digit r = false -> JS.digits_prefix x r = x.
Proof. destruct r as [|c r]; [reflexivity|]. cbn. now intros ->. Qed.

Lemma digits_prefix_Some_app (a : Z) (s r : string) :
  JS.all_digits s = true ->
  JS.digits_prefix (Some a) (s +:+ r)
  = JS.digits_prefix (JS.digits_prefix (Some a) s) r.
Proof.
  revert a. induction s as [|c s IH]; intros a H; [reflexivity|].
  cbn [JS.all_digits] in H. apply andb_true_iff in H as [Hc Hs].
  rewrite append_cons, !digits_prefix_step by exact Hc. now apply IH.
Qed.

Lemma digits_prefix_None_app (s r : string) :
  JS.all_digits s = true -> s <> "" ->
  JS.digits_prefix None (s +:+ r) = JS.digits_prefix (JS.digits_prefix None s) r.
Proof.
  destruct s as [|c s]; [congruence|]. intros H _.
  cbn [JS.all_digits] in H. apply andb_true_iff in H as [Hc Hs].
  rewrite append_cons, !digits_prefix_first by exact Hc.
  now apply digits_prefix_Some_app.
Qed.

Lemma all_digits_uint (u : Decimal.uint) :
  JS.all_digits (NilEmpty.string_of_uint u) = true.
Proof. induction u; cbn [NilEmpty.string_of_uint JS.all_digits]; [reflexivity|exact IHu..]. Qed.

Lemma parseInt_uint_app (u : Decimal.uint) (r : string) :
  u <> Decimal.Nil ->
  starts_with_digit r = false ->
  JS.parseInt (NilEmpty.string_of_uint u +:+ r) = Some (Z.of_N (Pos.of_uint u)) /\
  JS.parseInt (String "-" (NilEmpty.string_of_uint u) +:+ r)
  = Some (- Z.of_N (Pos.of_uint u)).
Proof.
  intros Hu Hr.
  assert (Hd : JS.digits_prefix None (NilEmpty.string_of_uint u +:+ r)
               = Some (Z.of_N (Pos.of_uint u))).
  { rewrite digits_prefix_None_app.
    - rewrite (digits_prefix_uint u Hu). now apply digits_prefix_stop.
    - apply all_digits_uint.
    - destruct u; [congruence|discriminate..]. }
  split.
  - rewrite <- Hd. destruct (string_of_uint_digit u Hu) as (c & s & -> & Hc).
    rewrite append_cons. now apply parseInt_digit.
  - rewrite append_cons, parseInt_minus. now rewrite Hd.
Qed.

Lemma parseInt_string_of_Z_app (n : Z) (r : string) :
  starts_with_digit r = false ->
  JS.parseInt (JS.string_of_Z n +:+ r) = Some n.
Proof.
  intros Hr. destruct n as [|p|p].
  - change (JS.string_of_Z 0) with "0".
    rewrite append_cons, parseInt_digit by reflexivity.
    rewrite digits_prefix_first by reflexivity.
    change ("" +:+ r) with r. now apply digits_prefix_stop.
  - pose proof (parseInt_uint_app (Pos.to_uint p) r
                  (DecimalPos.Unsigned.to_uint_nonnil p) Hr) as [H _].
    rewrite DecimalPos.Unsigned.of_to in H.
    assert (Hs : JS.string_of_Z (Z.pos p) = NilEmpty.string_of_uint (Pos.to_uint p)).
    { unfold JS.string_of_Z, NilZero.string_of_int, NilZero.string_of_uint.
      cbn [Z.to_int].
      pose proof (DecimalPos.Unsigned.to_uint_nonnil p).
      destruct (Pos.to_uint p); [congruence|reflexivity..]. }
    now rewrite Hs.
  - pose proof (parseInt_uint_app (Pos.to_uint p) r
                  (DecimalPos.Unsigned.to_uint_nonnil p) Hr) as [_ H].
    rewrite DecimalPos.Unsigned.of_to in H.
    assert (Hs : JS.string_of_Z (Z.neg p)
                 = String "-" (NilEmpty.string_of_uint (Pos.to_uint p))).
    { unfold JS.string_of_Z, NilZero.string_of_int, NilZero.string_of_uint.
      cbn [Z.to_int].
      pose proof (DecimalPos.Unsigned.to_uint_nonnil p).
      destruct (Pos.to_uint p); [congruence|reflexivity..]. }
    now rewrite Hs.
Qed.

(** ** Data model *)

Inductive League := CFB | NFL.

Definition league_tag (l : League) : string :=
  match l with CFB => "CFB" | NFL => "NFL" end.

(** The names of the members that every plain object inherits from
    [Object.prototype]: eleven functions, and the accessor [__proto__]. *)
Definition Object_prototype : list string :=
  [ "constructor"; "__defineGetter__"; "__defineSetter__"; "hasOwnProperty";
    "__lookupGetter__"; "__lookupSetter__"; "isPrototypeOf";
    "propertyIsEnumerable"; "toString"; "valueOf"; "__proto__";
    "toLocaleString" ].

Definition inherited (key : string) : bool := existsb (String.eqb key) Object_prototype.

(** What the team-name expression [nflTeams?.[code] || code] can evaluate
    to: a string, or a member inherited from [Object.prototype] (a function,
    or the prototype object itself under [__proto__]). *)
Inductive Name :=
  | Text (s : string)
  | Member (key : string).

(** The text of a name inside a template literal ([String(value)]). *)
Definition name_text (n : Name) : string :=
  match n with
  | Text s => s
  | Member key =>
      if String.eqb key "__proto__" then "[object Object]"
      else "function " +:+ (if String.eqb key "constructor" then "Object" else key)
           +:+ "() { [native code] }"
  end.

(** [obj[key]] on a plain object whose own properties hold strings: the own
    property, else the inherited member, else [undefined] ([None]). *)
Definition getProperty (obj : gmap string string) (key : string) : option Name :=
  match obj !! key with
  | Some v => Some (Text v)
  | None => if inherited key then Some (Member key) else None
  end.

(** [v || code], where [code] is a string: an object is truthy, a string is
    truthy unless it is empty. *)
Definition or_code (v : option Name) (code : string) : Name :=
  match v with
  | Some (Text s) => if JS.truthy_string s then Text s else Text code
  | Some (Member key) => Member key
  | None => Text code
  end.

(** The text has a lower-case ASCII letter (in UTF-8 the bytes 97 to 122
    occur only as these letters). *)
Definition is_lower (c : ascii) : bool :=
  let n := N_of_ascii c in ((97 <=? n) && (n <=? 122))%N.

Fixpoint has_lower (s : string) : bool :=
  match s with
  | EmptyString => false
  | String c s' => is_lower c || has_lower s'
  end.

(** The normalised record ([type Game]). *)
Record Game := mkGame {
  league : League;
  home : Name;
  away : Name;
  dateTime : option string;
  day : option string;
  week : Z;
  channel : option string
}.

(** [type NFLTeam]. *)
Record NFLTeam := mkNFLTeam { Key : string; FullName : string }.

(** An upstream schedule record, with the fields [fetchGames] reads. The
    college feed carries the full names, the professional feed the short
    codes. *)
Record RawGame := mkRawGame {
  HomeTeam : string;
  AwayTeam : string;
  HomeTeamName : string;
  AwayTeamName : string;
  DateTime : option string;
  Day : option string;
  Week : Z;
  Channel : option string
}.

(** A parsed JSON document, at the shapes the program's type annotations
    name: the team directory ([NFLTeam[]]), a schedule (an array of schedule
    records), [null], or any other value that is not an array (a number, a
    string, a boolean, an object: a value without [map] / [reduce]). The
    upstream resources are taken to answer with the kind of array their
    reader expects: a reader given the other kind of array is not modelled
    apart, it is treated like a reader given a value that is not an
    array. *)
Inductive Payload :=
  | PTeams (teams : list NFLTeam)
  | PGames (games : list RawGame)
  | PNull
  | POther.

(** ** The process state *)

(** A cache entry: its bytes and the file system's modification time, in
    whole milliseconds since the epoch. *)
Record File := mkFile { content : string; mtimeMs : Z }.

Record World := mkWorld {
  cache_dir : option (gmap string File);  (* [None]: no cache directory *)
  clock : Z;                              (* epoch milliseconds *)
  requests : list string;                 (* URLs requested so far, oldest first *)
  stdout : list string;                   (* one entry per [console.log] *)
  stderr : list string                    (* one entry per [console.error] *)
}.

Definition set_cache_dir (d : option (gmap string File)) (w : World) : World :=
  mkWorld d (clock w) (requests w) (stdout w) (stderr w).
Definition set_clock (t : Z) (w : World) : World :=
  mkWorld (cache_dir w) t (requests w) (stdout w) (stderr w).
Definition add_request (url : string) (w : World) : World :=
  mkWorld (cache_dir w) (clock w) (requests w ++ [url]) (stdout w) (stderr w).
Definition add_stdout (line : string) (w : World) : World :=
  mkWorld (cache_dir w) (clock w) (requests w) (stdout w ++ [line]) (stderr w).
Definition add_stderr (line : string) (w : World) : World :=
  mkWorld (cache_dir w) (clock w) (requests w) (stdout w) (stderr w ++ [line]).

(** The entry stored under a cache file name, if any. *)
Definition cache_entry (name : string) (w : World) : option File :=
  d ← cache_dir w; d !! name.

(** ** Computations: state passing with exceptions *)

Inductive Result (A : Type) :=
  | Ok (a : A)
  | Throw (message : string).
Arguments Ok {A} a.
Arguments Throw {A} message.

Definition M (A : Type) : Type := World -> Result A * World.

Definition ret {A} (a : A) : M A := fun w => (Ok a, w).
Definition throw {A} (message : string) : M A := fun w => (Throw message, w).
Definition bind {A B} (c : M A) (k : A -> M B) : M B :=
  fun w => match c w with
           | (Ok a, w') => k a w'
           | (Throw m, w') => (Throw m, w')
           end.
Definition gets {A} (f : World -> A) : M A := fun w => (Ok (f w), w).
Definition modify (f : World -> World) : M unit := fun w => (Ok tt, f w).
(** An outcome that was computed without touching the state. *)
Definition lift {A} (r : Result A) : M A := fun w => (r, w).

Declare Scope prog_scope.
Delimit Scope prog_scope with prog.
Notation "'do' x <- c1 ; c2" := (bind c1 (fun x => c2))
  (at level 10, x name, c1 at level 100, c2 at level 200) : prog_scope.
Notation "'run' c1 ; c2" := (bind c1 (fun _ => c2))
  (at level 10, c1 at level 100, c2 at level 200) : prog_scope.
Local Open Scope prog_scope.

(** [try { c } catch (err) { h(err.message) }]. *)
Definition try_catch {A} (c : M A) (h : string -> M A) : M A :=
  fun w => match c w with
           | (Ok a, w') => (Ok a, w')
           | (Throw m, w') => h m w'
           end.

(** *** Asynchronous calls

    A call of an [async] function runs synchronously until it awaits a
    promise that is still pending; here the only such promise is the
    response of an HTTP request. The call then has either settled (with a
    value, or by an exception of the computation) or is waiting: its
    continuation runs when the response is in, [elapsed] milliseconds
    later. *)
Inductive Pending (A : Type) :=
  | Settled (a : A)
  | Waiting (elapsed : Z) (resume : M A).
Arguments Settled {A} a.
Arguments Waiting {A} elapsed resume.

(** Time passes while the program waits. *)
Definition sleep (elapsed : Z) : M unit :=
  modify (fun w => set_clock (clock w + elapsed) w).

(** [await call] when nothing else is in flight. *)
Definition await {A} (call : M (Pending A)) : M A :=
  do p <- call;
  match p with
  | Settled a => ret a
  | Waiting elapsed resume => run sleep elapsed; resume
  end.

(** [const a = await call; k(a)] as the body of an [async] function: the
    rest of the body runs at once when [call] has settled, and becomes part
    of the continuation otherwise. *)
Definition andThen {A B} (call : M (Pending A)) (k : A -> M B) : M (Pending B) :=
  do p <- call;
  match p with
  | Settled a => do b <- k a; ret (Settled b)
  | Waiting elapsed resume => ret (Waiting elapsed (do a <- resume; k a))
  end.

(** When a started call settles, and what it does then. *)
Definition settles {A} (r : Result (Pending A)) : Z * M A :=
  match r with
  | Ok (Settled a) => (0, ret a)
  | Ok (Waiting elapsed resume) => (elapsed, resume)
  | Throw m => (0, throw m)
  end.

(** [await Promise.all([a, b])]. The two calls are made one after the
    other, each running to its first pending [await], before anything is
    awaited; their continuations then run in the order in which the awaited
    responses arrive (in argument order when they arrive together, or when
    neither call waits). The outcome is the pair of the results, or the
    exception of the call that rejects first. A rejection does not cancel
    the other call: the state returned is the state once both have
    settled. *)
Definition Promise_all {A B} (a : M (Pending A)) (b : M (Pending B)) : M (A * B) :=
  fun w =>
    let '(pa, w1) := a w in
    let '(pb, w2) := b w1 in
    let '(ta, ka) := settles pa in
    let '(tb, kb) := settles pb in
    let now := clock w2 in
    if ta <=? tb
    then let '(ra, w3) := ka (set_clock (now + ta) w2) in
         let '(rb, w4) := kb (set_clock (now + tb) w3) in
         (match ra, rb with
          | Ok x, Ok y => Ok (x, y)
          | Throw m, _ => Throw m
          | Ok _, Throw m => Throw m
          end, w4)
    else let '(rb, w3) := kb (set_clock (now + tb) w2) in
         let '(ra, w4) := ka (set_clock (now + ta) w3) in
         (match rb, ra with
          | Ok y, Ok x => Ok (x, y)
          | Throw m, _ => Throw m
          | Ok _, Throw m => Throw m
          end, w4).

Definition console_log (line : string) : M unit := modify (add_stdout line).
Definition console_error (line : string) : M unit := modify (add_stderr line).
Definition Date_now : M Z := gets clock.

(** An HTTP exchange as the program sees it: [fetch] rejects, or resolves
    to a response with a status and a body. *)
Inductive HttpResult :=
  | NetworkFailure (message : string)
  | HttpResponse (status : Z) (body : string).

(** [res.ok]. *)
Definition status_ok (status : Z) : bool := (200 <=? status) && (status <=? 299).

Definition dquote : string := String (ascii_of_nat 34) EmptyString.
Definition newline : string := String (ascii_of_nat 10) EmptyString.

(** [array.filter(callback)] with a callback that can throw: the elements
    are tested in order, and the first exception ends the call. *)
Fixpoint Array_filter {A} (callback : A -> Result bool) (l : list A) : Result (list A) :=
  match l with
  | [] => Ok []
  | x :: l' =>
      match callback x with
      | Throw m => Throw m
      | Ok keep =>
          match Array_filter callback l' with
          | Throw m => Throw m
          | Ok kept => Ok (if keep then x :: kept else kept)
          end
      end
  end.

(** ** What the language standard says of [Array.prototype.sort]

    A sort rearranges the elements. The comparator is called through
    SortCompare, which reads a [NaN] result as 0. When the comparator is a
    consistent comparator for the elements (it never yields [NaN], and it
    orders them into totally ordered classes of ties), the result is in
    ascending order and tied elements keep their relative order; otherwise
    the order is the engine's choice. *)
Section Sorting.
Context {A : Type}.
Implicit Types (comparefn : A -> A -> option Z) (l : list A).

Definition SortCompare comparefn (x y : A) : Z := default 0 (comparefn x y).

Definition consistent comparefn l : Prop :=
  forall a b c, In a l -> In b l -> In c l ->
    is_Some (comparefn a b) /\
    SortCompare comparefn a a = 0 /\
    (SortCompare comparefn a b = 0 -> SortCompare comparefn b a = 0) /\
    (SortCompare comparefn a b = 0 -> SortCompare comparefn b c = 0 ->
     SortCompare comparefn a c = 0) /\
    (SortCompare comparefn a b < 0 -> SortCompare comparefn b c < 0 ->
     SortCompare comparefn a c < 0) /\
    (SortCompare comparefn a b > 0 -> SortCompare comparefn b c > 0 ->
     SortCompare comparefn a c > 0).

Definition ascending comparefn l : Prop :=
  forall (i j : nat) (x y : A),
    (i < j)%nat -> l !! i = Some x -> l !! j = Some y -> SortCompare comparefn x y <= 0.

Definition tied comparefn (x y : A) : bool := SortCompare comparefn x y =? 0.

Definition sorts (sort : (A -> A -> option Z) -> list A -> list A) : Prop :=
  forall comparefn l,
    Permutation l (sort comparefn l) /\
    (consistent comparefn l ->
     ascending comparefn (sort comparefn l) /\
     forall x, In x l ->
       List.filter (tied comparefn x) (sort comparefn l)
       = List.filter (tied comparefn x) l).

End Sorting.

(** ** A sample environment

    A concrete time zone, date parser, case mapping, sort, HTTP peer and
    JSON codec, used to run the program on explicit inputs. *)

Module Fixture.

(** US Eastern daylight time: four hours behind UTC. *)
Definition tza : Z := -14400000.
Definition LocalTZA (t : Z) (isUTC : bool) : Z := tza.

(** The number written by the [n] characters of [s] from position [i],
    when they are all digits. *)
Definition field (i n : nat) (s : string) : option Z :=
  let f := String.substring i n s in
  if (String.length f =? n)%nat && JS.all_digits f then JS.digits_prefix None f else None.

Definition char_is (i : nat) (c : ascii) (s : string) : bool :=
  match String.get i s with Some c' => Ascii.eqb c c' | None => false end.

(** The date parser, for the layouts of the Date Time String Format that
    the upstream feed uses: [YYYY-MM-DD] (UTC), [YYYY-MM-DDTHH:mm:ss] (local
    time) and [YYYY-MM-DDTHH:mm:ssZ] (UTC). Any other text is an invalid
    date. *)
Definition Date_parse (s : string) : option Z :=
  y ← field 0 4 s; m ← field 5 2 s; d ← field 8 2 s;
  if negb (char_is 4 "-" s && char_is 7 "-" s && (1 <=? m) && (m <=? 12)
           && (1 <=? d) && (d <=? 31))
  then None
  else
    let date := Time.days_from_civil y m d * Time.msPerDay in
    if (String.length s =? 10)%nat then Some date
    else
      h ← field 11 2 s; mi ← field 14 2 s; sec ← field 17 2 s;
      if negb (char_is 10 "T" s && char_is 13 ":" s && char_is 16 ":" s
               && (h <=? 23) && (mi <=? 59) && (sec <=? 59))
      then None
      else
        let t := date + h * 3600000 + mi * 60000 + sec * 1000 in
        if (String.length s =? 19)%nat then Some (t - tza)
        else if (String.length s =? 20)%nat && char_is 19 "Z" s then Some t
        else None.

(** Hour and minute in local time, in the [en-US] style. *)
Definition toLocaleTimeString (t : option Z) : string :=
  match t with
  | None => "Invalid Date"
  | Some t =>
      let h := Time.HourFromTime (t + tza) in
      let h12 := if h mod 12 =? 0 then 12 else h mod 12 in
      Time.pad 2 h12 +:+ ":" +:+ Time.pad 2 (Time.MinFromTime (t + tza)) +:+
      (if h <? 12 then " AM" else " PM")
  end.

Definition lower_ascii (c : ascii) : ascii :=
  let n := N_of_ascii c in
  if ((65 <=? n) && (n <=? 90))%N then ascii_of_N (n + 32) else c.

(** The case mappings, for text whose letters are ASCII letters. *)
Definition toLowerCase : string -> string := JS.map_string lower_ascii.
Definition toUpperCase : string -> string := JS.toUpperCase_ascii.

(** A stable sort, written as an insertion sort. *)
Section InsertionSort.
Context {A : Type} (comparefn : A -> A -> option Z).

Fixpoint sort_insert (x : A) (l : list A) : list A :=
  match l with
  | [] => [x]
  | y :: l' => if SortCompare comparefn x y <=? 0 then x :: l else y :: sort_insert x l'
  end.

Definition Array_sort (l : list A) : list A := fold_right sort_insert [] l.
End InsertionSort.

Definition teams : list NFLTeam :=
  [ mkNFLTeam "PHI" "Philadelphia Eagles"; mkNFLTeam "dal" "Dallas Cowboys" ].

Definition cfb_games : list RawGame :=
  [ mkRawGame "OSU" "TEX" "Ohio State Buckeyes" "Texas Longhorns"
      (Some "2025-09-01T12:00:00") (Some "2025-09-01T00:00:00") 1 (Some "FOX");
    mkRawGame "ND" "MIA" "Notre Dame Fighting Irish" "Miami Hurricanes"
      None (Some "2025-09-01T00:00:00") 1 None ].

Definition nfl_games : list RawGame :=
  [ mkRawGame "PHI" "DAL" "" "" (Some "2025-09-04T20:20:00")
      (Some "2025-09-04T00:00:00") 1 (Some "NBC");
    mkRawGame "KC" "LAC" "" "" None None 1 None ].

(** The codec on the documents of the sample peer. *)
Definition JSON_parse (text : string) : Payload + string :=
  if String.eqb text "teams" then inl (PTeams teams)
  else if String.eqb text "cfb" then inl (PGames cfb_games)
  else if String.eqb text "nfl" then inl (PGames nfl_games)
  else if String.eqb text "null" then inl PNull
  else inr "Unexpected token".

Definition JSON_stringify (data : Payload) : string :=
  match data with
  | PTeams _ => "teams"
  | PGames (g :: _) => if JS.truthy_string (HomeTeamName g) then "cfb" else "nfl"
  | PGames [] => "[]"
  | PNull => "null"
  | POther => "{}"
  end.

Definition network (url : string) (now : Z) : HttpResult * Z :=
  if JS.includes url "/Teams" then (HttpResponse 200 "teams", 120)
  else if JS.includes url "/cfb/" then (HttpResponse 200 "cfb", 250)
  else (HttpResponse 200 "nfl", 250).

(** A peer that answers every request with a server error. *)
Definition network_down (url : string) (now : Z) : HttpResult * Z :=
  (HttpResponse 503 "Service Unavailable", 40).

(** A peer whose college schedule is out of order. *)
Definition network_cfb_down (url : string) (now : Z) : HttpResult * Z :=
  if JS.includes url "/cfb/" then (HttpResponse 500 "Internal Server Error", 40)
  else network url now.

(** A peer on which both schedules fail, the professional one sooner. *)
Definition network_schedules_down (url : string) (now : Z) : HttpResult * Z :=
  if JS.includes url "/Teams" then (HttpResponse 200 "teams", 120)
  else if JS.includes url "/cfb/" then (HttpResponse 500 "Internal Server Error", 300)
  else (HttpResponse 502 "Bad Gateway", 40).

(** 2025-09-01 at 22:00 local time, that is 2025-09-02T02:00:00Z. *)
Definition evening : Z := 1756778400000.
(** 2025-09-01 at 10:00 local time, that is 2025-09-01T14:00:00Z. *)
Definition morning : Z := 1756735200000.

(** A first run: no cache directory yet. *)
Definition fresh_world (now : Z) : World := mkWorld None now [] [] [].

End Fixture.

Example fixture_samples :
  Fixture.Date_parse "2025-09-01T18:00:00Z" = Some 1756749600000 /\
  Fixture.Date_parse "2025-09-01T22:00:00" = Some Fixture.evening /\
  Fixture.Date_parse "2025-09-01" = Some (20332 * Time.msPerDay) /\
  Fixture.Date_parse "1969-12-31T00:00:00Z" = Some (-86400000) /\
  Fixture.Date_parse "TBD" = None /\
  Fixture.toLocaleTimeString (Some Fixture.evening) = "10:00 PM" /\
  Fixture.toLowerCase "Philadelphia Eagles" = "philadelphia eagles" /\
  Fixture.toUpperCase "dal" = "DAL".
Proof. repeat split; vm_compute; reflexivity. Qed.

(** Parsed command-line options ([program.opts()]); the empty string is
    the default of [--days] and [--team]. *)
Record Opts := mkOpts { days : string; team : string; clear_cache : bool }.

(** ** The sample sort meets what the standard says *)

Lemma StronglySorted_lookup_le {A} (R : A -> A -> Prop) (l : list A) i j x y :
  StronglySorted R l -> (i < j)%nat -> l !! i = Some x -> l !! j = Some y -> R x y.
Proof.
  intros Hs. revert i j. induction Hs as [|z l Hs IH Hz]; intros i j Hij Hi Hj.
  - discriminate.
  - destruct j as [|j]; [lia|]. simpl in Hj. destruct i as [|i]; simpl in Hi.
    + injection Hi as <-. rewrite Forall_forall in Hz. apply Hz.
      eapply list_elem_of_lookup_2. exact Hj.
    + apply (IH i j); [lia|assumption..].
Qed.

Section InsertionSortFacts.
Context {A : Type} (comparefn : A -> A -> option Z).

Let le (x y : A) : Prop := SortCompare comparefn x y <= 0.

(** A consistent comparator never says "greater" both ways. *)
Lemma consistent_flip l a b :
  consistent comparefn l -> In a l -> In b l ->
  (SortCompare comparefn a b > 0 -> SortCompare comparefn b a < 0) /\
  (SortCompare comparefn a b < 0 -> SortCompare comparefn b a > 0).
Proof.
  intros H Ha Hb.
  pose proof (H a b a Ha Hb Ha) as (_ & Hr & _ & _ & Hlt & Hgt).
  pose proof (H b a b Hb Ha Hb) as (_ & _ & Hs & _).
  split; intros Hab.
  - destruct (Z.lt_trichotomy (SortCompare comparefn b a) 0) as [L|[E|G]];
      [exact L|specialize (Hs E); lia|].
    assert (SortCompare comparefn a a > 0) by (apply Hgt; lia). lia.
  - destruct (Z.lt_trichotomy (SortCompare comparefn b a) 0) as [L|[E|G]];
      [|specialize (Hs E); lia|lia].
    assert (SortCompare comparefn a a < 0) by (apply Hlt; lia). lia.
Qed.

Lemma consistent_total l a b :
  consistent comparefn l -> In a l -> In b l -> le a b \/ le b a.
Proof.
  intros H Ha Hb. unfold le.
  destruct (Z_le_gt_dec (SortCompare comparefn a b) 0) as [L|G]; [now left|right].
  apply (consistent_flip l a b H Ha Hb) in G. lia.
Qed.

Lemma consistent_trans l a b c :
  consistent comparefn l -> In a l -> In b l -> In c l ->
  le a b -> le b c -> le a c.
Proof.
  intros H Ha Hb Hc Hab Hbc. unfold le in *.
  destruct (Z_le_gt_dec (SortCompare comparefn a c) 0) as [L|G]; [exact L|exfalso].
  apply (consistent_flip l a c H Ha Hc) in G.
  destruct (Z.eq_dec (SortCompare comparefn a b) 0) as [Eab|Nab].
  - pose proof (H a b c Ha Hb Hc) as (_ & _ & Hs & He & _).
    destruct (Z.eq_dec (SortCompare comparefn b c) 0) as [Ebc|Nbc].
    + specialize (He Eab Ebc).
      destruct (consistent_flip l c a H Hc Ha) as [_ F]. specialize (F G). lia.
    + pose proof (H b c a Hb Hc Ha) as (_ & _ & _ & _ & Hlt & _).
      specialize (Hs Eab).
      assert (SortCompare comparefn b a < 0) by (apply Hlt; lia). lia.
  - pose proof (H c a b Hc Ha Hb) as (_ & _ & _ & _ & Hlt & _).
    assert (Hcb : SortCompare comparefn c b < 0) by (apply Hlt; lia).
    apply (consistent_flip l c b H Hc Hb) in Hcb. lia.
Qed.

Lemma consistent_tie l x a b :
  consistent comparefn l -> In x l -> In a l -> In b l ->
  SortCompare comparefn x a = 0 -> SortCompare comparefn x b = 0 ->
  SortCompare comparefn a b = 0.
Proof.
  intros H Hx Ha Hb Exa Exb.
  pose proof (H x a b Hx Ha Hb) as (_ & _ & Hs & _).
  pose proof (H a x b Ha Hx Hb) as (_ & _ & _ & He & _).
  apply He; [now apply Hs|exact Exb].
Qed.

Lemma sort_insert_perm x l :
  Permutation (x :: l) (Fixture.sort_insert comparefn x l).
Proof.
  induction l as [|y l IH]; simpl; [reflexivity|].
  destruct (SortCompare comparefn x y <=? 0); [reflexivity|].
  rewrite perm_swap. now apply perm_skip.
Qed.

Lemma insertion_sort_perm l : Permutation l (Fixture.Array_sort comparefn l).
Proof.
  induction l as [|x l IH]; simpl; [reflexivity|].
  rewrite <- sort_insert_perm. now apply perm_skip.
Qed.

Lemma sort_insert_sorted l x s :
  consistent comparefn l -> In x l -> incl s l ->
  StronglySorted le s -> StronglySorted le (Fixture.sort_insert comparefn x s).
Proof.
  intros Hc Hx Hs Hss. induction Hss as [|y s Hss IH Hy]; simpl.
  - constructor; constructor.
  - assert (Hyl : In y l) by (apply Hs; now left).
    assert (Hsl : incl s l) by (intros z Hz; apply Hs; now right).
    destruct (SortCompare comparefn x y <=? 0) eqn:E.
    + apply Z.leb_le in E. constructor; [now constructor|].
      constructor; [exact E|].
      rewrite Forall_forall in Hy |- *. intros z Hz.
      apply (consistent_trans l x y z); auto.
      apply Hsl. now apply list_elem_of_In.
    + apply Z.leb_gt in E.
      assert (Hyx : le y x).
      { destruct (consistent_total l x y Hc Hx Hyl) as [H|H]; [unfold le in H; lia|exact H]. }
      constructor; [now apply IH|].
      rewrite <- sort_insert_perm. now constructor.
Qed.

Lemma insertion_sort_sorted l s :
  consistent comparefn l -> incl s l ->
  StronglySorted le (Fixture.Array_sort comparefn s).
Proof.
  intros Hc. induction s as [|x s IH]; intros Hs; simpl; [constructor|].
  assert (Hsl : incl s l) by (intros z Hz; apply Hs; now right).
  apply (sort_insert_sorted l); [exact Hc|apply Hs; now left| |now apply IH].
  intros z Hz. apply Hsl. eapply Permutation_in; [|exact Hz].
  symmetry. apply insertion_sort_perm.
Qed.

Lemma sort_insert_stable l x0 x s :
  consistent comparefn l -> In x0 l -> In x l -> incl s l ->
  List.filter (tied comparefn x0) (Fixture.sort_insert comparefn x s)
  = List.filter (tied comparefn x0) (x :: s).
Proof.
  intros Hc H0 Hx. induction s as [|y s IH]; intros Hs; [reflexivity|].
  assert (Hyl : In y l) by (apply Hs; now left).
  assert (Hsl : incl s l) by (intros z Hz; apply Hs; now right).
  cbn [Fixture.sort_insert].
  destruct (SortCompare comparefn x y <=? 0) eqn:E; [reflexivity|].
  apply Z.leb_gt in E. cbn [List.filter] in *. rewrite (IH Hsl).
  destruct (tied comparefn x0 x) eqn:Tx; [|reflexivity].
  destruct (tied comparefn x0 y) eqn:Ty; [|reflexivity].
  unfold tied in Tx, Ty. apply Z.eqb_eq in Tx, Ty.
  pose proof (consistent_tie l x0 x y Hc H0 Hx Hyl Tx Ty). lia.
Qed.

Lemma insertion_sort_stable l x0 s :
  consistent comparefn l -> In x0 l -> incl s l ->
  List.filter (tied comparefn x0) (Fixture.Array_sort comparefn s)
  = List.filter (tied comparefn x0) s.
Proof.
  intros Hc H0. induction s as [|x s IH]; intros Hs; [reflexivity|].
  assert (Hsl : incl s l) by (intros z Hz; apply Hs; now right).
  cbn [Fixture.Array_sort fold_right]. fold (Fixture.Array_sort comparefn s).
  rewrite (sort_insert_stable l); [| exact Hc | exact H0 | apply Hs; now left |].
  - cbn [List.filter]. now rewrite (IH Hsl).
  - intros z Hz. apply Hsl. eapply Permutation_in; [|exact Hz].
    symmetry. apply insertion_sort_perm.
Qed.

End InsertionSortFacts.

Lemma insertion_sort_sorts {A : Type} : sorts (@Fixture.Array_sort A).
Proof.
  intros comparefn l. split; [apply insertion_sort_perm|].
  intros Hc. split.
  - intros i j x y Hij Hi Hj.
    apply (StronglySorted_lookup_le _ _ i j x y
             (insertion_sort_sorted comparefn l l Hc (incl_refl l)) Hij Hi Hj).
  - intros x Hx. apply (insertion_sort_stable comparefn l); auto using incl_refl.
Qed.

(** The sample upper-casing leaves no lower-case ASCII letter, and the
    names of the inherited members all have one. *)
Lemma sample_toUpperCase_has_no_lower (s : string) :
  has_lower (Fixture.toUpperCase s) = false.
Proof.
  induction s as [|c s IH]; [reflexivity|].
  unfold Fixture.toUpperCase, JS.toUpperCase_ascii in *.
  cbn [JS.map_string has_lower]. rewrite IH.
  rewrite orb_false_r. destruct c as [[] [] [] [] [] [] [] []]; reflexivity.
Qed.

Lemma inherited_has_lower (key : string) :
  inherited key = true -> has_lower key = true.
Proof.
  unfold inherited. intros H. apply existsb_exists in H as (name & Hin & He).
  apply String.eqb_eq in He. subst name.
  repeat (destruct Hin as [<-|Hin]; [reflexivity|]). destruct Hin.
Qed.

(** ** The program *)

Section Program.

(** The environment of a run. *)
Variable API_KEY : option string.              (* process.env.SPORTSDATA_API_KEY *)
Variable CACHE_DIR : string.                   (* envPaths('games').cache *)
Variable JSON_parse : string -> Payload + string.  (* [inr]: the SyntaxError's message *)
Variable JSON_stringify : Payload -> string.   (* JSON.stringify(data, null, 2) *)
Variable network : string -> Z -> HttpResult * Z.
  (* the outcome of a GET sent at a given time, and how long it took *)
Variable Date_parse : string -> option Z.      (* new Date(s).getTime(); [None] is NaN *)
Variable LocalTZA : Z -> bool -> Z.            (* local time zone adjustment, ms *)
Variable toLocaleTimeString : option Z -> string.
  (* toLocaleTimeString([], {hour: '2-digit', minute: '2-digit'}) in the default locale *)
Variable toLowerCase : string -> string.       (* String.prototype.toLowerCase *)
Variable toUpperCase : string -> string.       (* String.prototype.toUpperCase *)
Variable Array_sort : (Game -> Game -> option Z) -> list Game -> list Game.
  (* Array.prototype.sort(comparefn) *)

Set Default Proof Using "Type".

(** *** Config *)

Definition YEAR : Z := 2025.
Definition CACHE_TTL : Z := 1000 * 60 * 60 * 12.

Definition key_text : string := default "undefined" API_KEY.
Definition CFB_URL : string :=
  "https://api.sportsdata.io/v3/cfb/scores/json/Games/" +:+ JS.string_of_Z YEAR
  +:+ "?key=" +:+ key_text.
Definition NFL_URL : string :=
  "https://api.sportsdata.io/v3/nfl/scores/json/Schedules/" +:+ JS.string_of_Z YEAR
  +:+ "?key=" +:+ key_text.
Definition NFL_TEAMS_URL : string :=
  "https://api.sportsdata.io/v3/nfl/scores/json/Teams?key=" +:+ key_text.

(** *** File system and network primitives *)

(** [fs.existsSync(path.join(CACHE_DIR, name))]. *)
Definition existsSync (name : string) : M bool :=
  gets (fun w => bool_decide (is_Some (cache_entry name w))).

(** [fs.statSync] / [fs.readFileSync]: the entry, or an exception when
    there is none. *)
Definition statSync (name : string) : M File :=
  do e <- gets (cache_entry name);
  match e with
  | Some f => ret f
  | None => throw ("ENOENT: no such file or directory, stat " +:+ name)
  end.

Definition readFileSync (name : string) : M string :=
  do e <- gets (cache_entry name);
  match e with
  | Some f => ret (content f)
  | None => throw ("ENOENT: no such file or directory, open " +:+ name)
  end.

(** [fs.writeFileSync]: the entry is replaced and stamped with the time of
    the write. *)
Definition writeFileSync (name text : string) : M unit :=
  fun w =>
    match cache_dir w with
    | Some d => (Ok tt, set_cache_dir (Some (<[name := mkFile text (clock w)]> d)) w)
    | None => (Throw ("ENOENT: no such file or directory, open " +:+ name), w)
    end.

(** The call [fetch(url)]: the request goes out and is recorded; the
    outcome is the peer's, and it is there after the time the exchange
    takes. *)
Definition fetch_async (url : string) : M (Pending HttpResult) :=
  fun w =>
    let '(r, elapsed) := network url (clock w) in
    (Ok (Waiting elapsed (ret r)), add_request url w).

(** [await fetch(url)]. *)
Definition fetch (url : string) : M HttpResult := await (fetch_async url).

(** [JSON.parse(text)] and [await res.json()]. *)
Definition parse_json (text : string) : M Payload :=
  match JSON_parse text with
  | inl data => ret data
  | inr message => throw message
  end.

(** *** Helpers *)

(** [mkdirSync(CACHE_DIR, { recursive: true })] when the directory is not
    there. *)
Definition ensureCacheDir : M unit :=
  modify (fun w => match cache_dir w with
                   | Some _ => w
                   | None => set_cache_dir (Some ∅) w
                   end).

Definition clearCache : M unit :=
  do present <- gets (fun w => bool_decide (is_Some (cache_dir w)));
  if (present : bool)
  then run modify (set_cache_dir None);
       console_log ("Cache cleared: " +:+ CACHE_DIR)
  else console_log "No cache to clear.".

(** The call [fetchWithCache(url, cacheFile)]: everything up to
    [await fetch(url)] happens at once; lines 69 to 72 are the
    continuation. *)
Definition fetchWithCache_async (url cacheFile : string) : M (Pending Payload) :=
  run ensureCacheDir;
  do present <- existsSync cacheFile;
  do cached <-
    (if (present : bool)
     then do stats <- statSync cacheFile;
          do now <- Date_now;
          if now - mtimeMs stats <? CACHE_TTL
          then do text <- readFileSync cacheFile;
               do data <- parse_json text;
               ret (Some data)
          else ret None
     else ret None);
  match cached with
  | Some data => ret (Settled data)
  | None =>
      andThen (fetch_async url) (fun res =>
        match res with
        | NetworkFailure message => throw message
        | HttpResponse status body =>
            if status_ok status
            then do data <- parse_json body;
                 run writeFileSync cacheFile (JSON_stringify data);
                 ret data
            else throw ("HTTP " +:+ JS.string_of_Z status +:+ " for " +:+ url)
        end)
  end.

(** [await fetchWithCache(url, cacheFile)]. *)
Definition fetchWithCache (url cacheFile : string) : M Payload :=
  await (fetchWithCache_async url cacheFile).

(** The [reduce] of [fetchNFLTeams]: the own properties of the object it
    builds. (Assigning to a key creates or replaces an own property, but
    for the key [__proto__]; the keys assigned here are upper-cased texts,
    which [__proto__] is not.) *)
Definition teamMap (teams : list NFLTeam) : gmap string string :=
  fold_left (fun map t => <[toUpperCase (Key t) := FullName t]> map) teams ∅.

Definition fetchNFLTeams : M (gmap string string) :=
  do data <- fetchWithCache NFL_TEAMS_URL "nfl_teams.json";
  match data with
  | PTeams teams => ret (teamMap teams)
  | PNull => throw "Cannot read properties of null (reading 'reduce')"
  | _ => throw "teams.reduce is not a function"
  end.

(** The record built by the [map] callback of [fetchGames]. *)
Definition toGame (lg : League) (nflTeams : option (gmap string string))
    (g : RawGame) : Game :=
  {| league := lg;
     home := match lg with
             | NFL => or_code (m ← nflTeams; getProperty m (HomeTeam g)) (HomeTeam g)
             | CFB => Text (HomeTeamName g)
             end;
     away := match lg with
             | NFL => or_code (m ← nflTeams; getProperty m (AwayTeam g)) (AwayTeam g)
             | CFB => Text (AwayTeamName g)
             end;
     dateTime := JS.or_null (DateTime g);
     day := JS.or_null (Day g);
     week := Week g;
     channel := JS.or_null (Channel g) |}.

(** Lines 91 to 99: what [fetchGames] does with the document. *)
Definition normalise (lg : League) (nflTeams : option (gmap string string))
    (data : Payload) : M (list Game) :=
  match data with
  | PGames games => ret (map (toGame lg nflTeams) games)
  | PNull => throw "Cannot read properties of null (reading 'map')"
  | _ => throw "data.map is not a function"
  end.

(** The call [fetchGames(url, league, cacheFile, nflTeams)]. *)
Definition fetchGames_async (url : string) (lg : League) (cacheFile : string)
    (nflTeams : option (gmap string string)) : M (Pending (list Game)) :=
  andThen (fetchWithCache_async url cacheFile) (normalise lg nflTeams).

(** [await fetchGames(...)]. *)
Definition fetchGames (url : string) (lg : League) (cacheFile : string)
    (nflTeams : option (gmap string string)) : M (list Game) :=
  await (fetchGames_async url lg cacheFile nflTeams).

(** *** Dates *)

Definition LocalTime (t : Z) : Z := t + LocalTZA t true.
Definition UTC (t : Z) : Z := t - LocalTZA t false.

(** [d.getDate()]: day of the month, in local time. *)
Definition getDate (t : Z) : Z := Time.DateFromTime (LocalTime t).

(** [d.setDate(dt)]: the new time value; the local year, month and time
    of day are kept, the day of the month may overflow into the
    neighbouring months. *)
Definition setDate (t dt : Z) : option Z :=
  let lt := LocalTime t in
  let newDate :=
    Time.MakeDate (Time.MakeDay (Time.YearFromTime lt) (Time.MonthFromTime lt) dt)
                  (Time.TimeWithinDay lt) in
  Time.TimeClip (UTC newDate).

(** [computeTargetDate] at the time value [now] of [new Date()]. *)
Definition targetDateAt (now daysOffset : Z) : option string :=
  today ← setDate now (getDate now + daysOffset);
  Some (JS.split_head "T" (Time.toISOString today)).

Definition computeTargetDate (daysOffset : Z) : M string :=
  do now <- Date_now;
  match targetDateAt now daysOffset with
  | Some s => ret s
  | None => throw "Invalid time value"   (* RangeError of [toISOString] *)
  end.

(** The target date as the specification words it: today plus the offset,
    as a calendar date in the local time zone. *)
Definition localTargetDate (now daysOffset : Z) : string :=
  Time.ymd (Time.civil_from_days (Time.Day (LocalTime now) + daysOffset)).

Definition formatTime (dateString : string) : string :=
  toLocaleTimeString (Date_parse dateString).

Definition formatDate (dateString : string) : string :=
  let d := LocalTime <$> Date_parse dateString in
  let yyyy := JS.string_of_number (Time.YearFromTime <$> d) in
  let mm := JS.padStart 2 "0" (JS.string_of_number ((fun t => Time.MonthFromTime t + 1) <$> d)) in
  let dd := JS.padStart 2 "0" (JS.string_of_number (Time.DateFromTime <$> d)) in
  let weekday :=
    JS.toUpperCase_ascii
      (match d with
       | Some t => Time.weekday_short (Time.WeekDay t)
       | None => "Invalid Date"
       end) in
  yyyy +:+ "-" +:+ mm +:+ "-" +:+ dd +:+ " " +:+ weekday.

(** *** Filters *)

(** The callback of the date filter. *)
Definition dateFilter (targetDate : string) (g : Game) : bool :=
  match dateTime g with
  | Some s => JS.truthy_string s && JS.startsWith s targetDate
  | None => false
  end
  ||
  match day g with
  | Some s => JS.truthy_string s && JS.startsWith s targetDate
  | None => false
  end.

(** The callback of the team filter; [search] is already lower-cased. A
    name that is not a string has no [toLowerCase] method: calling it is a
    TypeError. *)
Definition teamFilter (search : string) (g : Game) : Result bool :=
  match home g with
  | Member _ => Throw "g.home.toLowerCase is not a function"
  | Text h =>
      if JS.includes (toLowerCase h) search then Ok true
      else match away g with
           | Member _ => Throw "g.away.toLowerCase is not a function"
           | Text a => Ok (JS.includes (toLowerCase a) search)
           end
  end.

(** *** Sorting *)

(** [new Date(g.dateTime || g.day || 0).getTime()]. *)
Definition gameTime (g : Game) : option Z :=
  match JS.or_null (dateTime g) with
  | Some s => Date_parse s
  | None =>
      match JS.or_null (day g) with
      | Some s => Date_parse s
      | None => Some 0
      end
  end.

(** The comparator handed to [sort]; [None] is a [NaN] result. *)
Definition compareGames (a b : Game) : option Z :=
  if negb (week a =? week b) then Some (week a - week b)
  else match gameTime a, gameTime b with
       | Some aTime, Some bTime => Some (aTime - bTime)
       | _, _ => None
       end.

(** *** CLI *)

(** The day offset selected by the options: [Some None] is "no date
    filter" ([offset === null]), [None] is the usage error. *)
Definition resolveOffset (opts : Opts) : option (option Z) :=
  if negb (JS.truthy_string (days opts)) && negb (JS.truthy_string (team opts))
  then Some (Some 0)
  else if negb (String.eqb (days opts) "")
       then match JS.parseInt (days opts) with
            | Some n => Some (Some n)
            | None => None
            end
       else Some None.

(** The fetch phase of [main]'s [try] block. *)
Definition loadGames : M (list Game) :=
  run (if JS.truthy API_KEY then ret tt else throw "Missing API key in .env");
  do nflTeams <- fetchNFLTeams;
  do both <- Promise_all (fetchGames_async CFB_URL CFB "cfb_games.json" None)
                         (fetchGames_async NFL_URL NFL "nfl_schedules.json"
                            (Some nflTeams));
  ret (fst both ++ snd both)%list.

(** The two filters. *)
Definition selectGames (offset : option Z) (opts : Opts) (combined : list Game)
    : M (list Game) :=
  do combined <-
    match offset with
    | Some n => do targetDate <- computeTargetDate n;
                ret (List.filter (dateFilter targetDate) combined)
    | None => ret combined
    end;
  if JS.truthy_string (team opts)
  then lift (Array_filter (teamFilter (toLowerCase (team opts))) combined)
  else ret combined.

Definition noGamesMessage (offset : option Z) (opts : Opts) : string :=
  "No games found"
  +:+ (if JS.truthy_string (team opts)
       then " for team matching " +:+ dquote +:+ team opts +:+ dquote else "")
  +:+ match offset with
      | Some n => " on day offset " +:+ JS.string_of_Z n
      | None => ""
      end
  +:+ ".".

Definition gameRow (g : Game) : string :=
  let '(dateLabel, start) :=
    match JS.or_null (dateTime g) with
    | Some s => (formatDate s, formatTime s)
    | None =>
        match JS.or_null (day g) with
        | Some s => (formatDate s, "TBD")
        | None => ("WEEK " +:+ JS.string_of_Z (week g) +:+ " (TBD)", "TBD")
        end
    end in
  "[" +:+ dateLabel +:+ "][" +:+ league_tag (league g) +:+ "] " +:+ name_text (away g)
  +:+ " @ " +:+ name_text (home g) +:+ " - " +:+ start +:+ " - Channel: "
  +:+ JS.or_else (channel g) "N/A".

Fixpoint forEach {A} (f : A -> M unit) (l : list A) : M unit :=
  match l with
  | [] => ret tt
  | x :: l' => run f x; forEach f l'
  end.

(** Header and rows for a non-empty selection. *)
Definition display (offset : option Z) (opts : Opts) (combined : list Game) : M unit :=
  let sorted := Array_sort compareGames combined in
  do label <-
    match offset with
    | Some n => do d <- computeTargetDate n; ret ("Games for " +:+ d)
    | None =>
        ret (if JS.truthy_string (team opts)
             then "All games for teams matching " +:+ dquote +:+ team opts +:+ dquote
             else "Games")
    end;
  run console_log (label +:+ ":" +:+ newline);
  forEach (fun g => console_log (gameRow g)) sorted.

(** The body of [main]'s [try] block. *)
Definition tryBlock (offset : option Z) (opts : Opts) : M unit :=
  do games <- loadGames;
  do combined <- selectGames offset opts games;
  match combined with
  | [] => console_log (noGamesMessage offset opts)
  | _ :: _ => display offset opts combined
  end.

(** [main]: the exit status of the process and the final state. *)
Definition main (opts : Opts) (w : World) : Z * World :=
  if clear_cache opts
  then (0, snd (clearCache w))
  else
    match resolveOffset opts with
    | None =>
        (1, add_stderr "Invalid value for --days. Use numbers like 0, +1, -1." w)
    | Some offset =>
        (0, snd (try_catch (tryBlock offset opts)
                           (fun message => console_error ("Error: " +:+ message)) w))
    end.

(** ** Properties *)

(** *** The cache-backed fetch *)

(** The state after [ensureCacheDir]. *)
Definition ensured (w : World) : World :=
  match cache_dir w with
  | Some _ => w
  | None => set_cache_dir (Some ∅) w
  end.

(** The network path of an awaited [fetchWithCache] (lines 68-72), from a
    state in which the cache directory exists. *)
Definition refetch (url cacheFile : string) : M Payload :=
  do res <- fetch url;
  match res with
  | NetworkFailure message => throw message
  | HttpResponse status body =>
      if status_ok status
      then do data <- parse_json body;
           run writeFileSync cacheFile (JSON_stringify data);
           ret data
      else throw ("HTTP " +:+ JS.string_of_Z status +:+ " for " +:+ url)
  end.

(** The test of lines 61-63: the entry exists and is younger than the
    time to live. *)
Definition isFresh (cacheFile : string) (w : World) : bool :=
  match cache_entry cacheFile w with
  | Some f => clock w - mtimeMs f <? CACHE_TTL
  | None => false
  end.

Lemma cache_entry_ensured name w : cache_entry name (ensured w) = cache_entry name w.
Proof.
  destruct w as [[d|] c r o e]; unfold ensured, cache_entry; simpl; [reflexivity|].
  apply lookup_empty.
Qed.

Lemma ensured_id name w f : cache_entry name w = Some f -> ensured w = w.
Proof.
  destruct w as [[d|] c r o e]; unfold ensured, cache_entry; simpl;
    [reflexivity|discriminate].
Qed.

Lemma clock_ensured w : clock (ensured w) = clock w.
Proof. destruct w as [[d|] c r o e]; reflexivity. Qed.

Ltac run_prog :=
  cbv beta iota delta
    [fetchWithCache fetchWithCache_async await andThen sleep fetch fetch_async
     refetch bind ensureCacheDir modify existsSync statSync
     readFileSync gets Date_now parse_json ret throw fst snd].

Lemma fetchWithCache_fresh url name w f :
  cache_entry name w = Some f ->
  clock w - mtimeMs f < CACHE_TTL ->
  fetchWithCache url name w =
    (match JSON_parse (content f) with inl data => Ok data | inr m => Throw m end, w).
Proof.
  intros He Hlt. apply Z.ltb_lt in Hlt.
  run_prog. fold (ensured w). rewrite (ensured_id name w f He), He.
  rewrite bool_decide_true by eauto.
  repeat (cbv beta iota; rewrite ?He, ?Hlt).
  destruct (JSON_parse (content f)); reflexivity.
Qed.

Lemma fetchWithCache_stale url name w :
  isFresh name w = false ->
  fetchWithCache url name w = refetch url name (ensured w).
Proof.
  unfold isFresh. intros Hs.
  run_prog. fold (ensured w). rewrite cache_entry_ensured.
  destruct (cache_entry name w) as [f|] eqn:He.
  - rewrite bool_decide_true by eauto.
    repeat (cbv beta iota; rewrite ?cache_entry_ensured, ?He, ?clock_ensured, ?Hs).
    destruct (network url (clock w)) as [r elapsed]; reflexivity.
  - rewrite bool_decide_false by (intros [? ?]; discriminate). cbv beta iota.
    destruct (network url (clock (ensured w))) as [r elapsed]; reflexivity.
Qed.

Lemma cache_dir_ensured w : cache_dir (ensured w) = Some (default ∅ (cache_dir w)).
Proof. destruct w as [[d|] c r o e]; reflexivity. Qed.

Lemma requests_ensured w : requests (ensured w) = requests w.
Proof. destruct w as [[d|] c r o e]; reflexivity. Qed.

Lemma isFresh_true name w :
  isFresh name w = true <->
  exists f, cache_entry name w = Some f /\ clock w - mtimeMs f < CACHE_TTL.
Proof.
  unfold isFresh. split.
  - destruct (cache_entry name w) as [f|]; [|discriminate].
    intros H. exists f. split; [reflexivity|]. now apply Z.ltb_lt.
  - intros (f & -> & H). now apply Z.ltb_lt.
Qed.

Lemma isFresh_false name w :
  isFresh name w = false <->
  forall f, cache_entry name w = Some f -> CACHE_TTL <= clock w - mtimeMs f.
Proof.
  unfold isFresh. split.
  - intros H f Hf. rewrite Hf in H. apply Z.ltb_ge in H. exact H.
  - intros H. destruct (cache_entry name w) as [f|]; [|reflexivity].
    apply Z.ltb_ge. now apply H.
Qed.

(** A successful refresh: one request, the entry overwritten with the new
    document and stamped with the time of the write. *)
Lemma refetch_ok url name w d status body elapsed data :
  cache_dir w = Some d ->
  network url (clock w) = (HttpResponse status body, elapsed) ->
  status_ok status = true ->
  JSON_parse body = inl data ->
  refetch url name w =
    (Ok data,
     mkWorld (Some (<[name := mkFile (JSON_stringify data) (clock w + elapsed)]> d))
             (clock w + elapsed) (requests w ++ [url]) (stdout w) (stderr w)).
Proof.
  intros Hd Hn Hs Hp.
  cbv beta iota delta [refetch bind fetch await fetch_async sleep modify parse_json
    writeFileSync ret throw].
  rewrite Hn. cbv beta iota. rewrite Hs, Hp. cbv beta iota. simpl. rewrite Hd.
  reflexivity.
Qed.

(** The refresh attempt fails: [fetch] rejects, the response is not 2xx, or
    its body does not parse. *)
Definition refresh_fails (r : HttpResult) : Prop :=
  match r with
  | NetworkFailure _ => True
  | HttpResponse status body =>
      status_ok status = false \/ exists m, JSON_parse body = inr m
  end.

(** The message of the exception a failed refresh of [url] raises. *)
Definition failure_message (url : string) (r : HttpResult) (m : string) : Prop :=
  match r with
  | NetworkFailure m' => m = m'
  | HttpResponse status body =>
      if status_ok status
      then JSON_parse body = inr m
      else m = "HTTP " +:+ JS.string_of_Z status +:+ " for " +:+ url
  end.

(** A failed refresh: one request, an exception, no other change. *)
Lemma refetch_failed url name w r elapsed :
  network url (clock w) = (r, elapsed) ->
  refresh_fails r ->
  exists m,
    refetch url name w = (Throw m, set_clock (clock w + elapsed) (add_request url w)) /\
    failure_message url r m.
Proof.
  intros Hn Hr. unfold failure_message.
  cbv beta iota delta [refetch bind fetch await fetch_async sleep modify parse_json
    writeFileSync ret throw].
  rewrite Hn. cbv beta iota.
  destruct r as [m'|status body].
  - exists m'. split; reflexivity.
  - simpl in Hr. destruct (status_ok status) eqn:Hs.
    + destruct Hr as [Hr|[m Hm]]; [discriminate|].
      exists m. rewrite Hm. split; reflexivity.
    + eexists. split; reflexivity.
Qed.

Lemma refetch_requests url name w :
  requests (snd (refetch url name w)) = (requests w ++ [url])%list.
Proof.
  cbv beta iota delta [refetch bind fetch await fetch_async sleep modify parse_json
    writeFileSync ret throw].
  destruct (network url (clock w)) as [[m|status body] elapsed]; cbv beta iota;
    [reflexivity|].
  destruct (status_ok status); [|reflexivity].
  destruct (JSON_parse body); [|reflexivity]. cbv beta iota. simpl.
  destruct (cache_dir w); reflexivity.
Qed.

Lemma stdout_ensured w : stdout (ensured w) = stdout w.
Proof. destruct w as [[d|] c r o e]; reflexivity. Qed.

Lemma stderr_ensured w : stderr (ensured w) = stderr w.
Proof. destruct w as [[d|] c r o e]; reflexivity. Qed.

(** The state after a refresh that stored [text] at time [t]. *)
Definition refreshed (name text url : string) (t : Z) (w : World) : World :=
  mkWorld (Some (<[name := mkFile text t]> (default ∅ (cache_dir w))))
          t (requests w ++ [url]) (stdout w) (stderr w).

Lemma cache_entry_refreshed name text url t w :
  cache_entry name (refreshed name text url t w) = Some (mkFile text t).
Proof. unfold cache_entry, refreshed. simpl. apply lookup_insert_eq. Qed.

Lemma fetchWithCache_refresh url name w status body elapsed data :
  isFresh name w = false ->
  network url (clock w) = (HttpResponse status body, elapsed) ->
  status_ok status = true ->
  JSON_parse body = inl data ->
  fetchWithCache url name w =
    (Ok data, refreshed name (JSON_stringify data) url (clock w + elapsed) w).
Proof.
  intros Hs Hn Hok Hp. rewrite fetchWithCache_stale by exact Hs.
  rewrite (refetch_ok url name (ensured w) _ status body elapsed data
             (cache_dir_ensured w)); try assumption.
  - unfold refreshed.
    now rewrite clock_ensured, requests_ensured, stdout_ensured, stderr_ensured.
  - now rewrite clock_ensured.
Qed.

Lemma app_neq_self {A} (l : list A) (x : A) : (l ++ [x])%list <> l.
Proof.
  intros H. apply (f_equal (@List.length A)) in H.
  rewrite List.length_app in H. simpl in H. lia.
Qed.

(** C3. The TTL is twelve hours. Freshness is "the entry exists and
    [now - mtime < TTL]", and it is exactly when no request is issued (an
    absent entry is never fresh).
    After a call that missed and fetched successfully, a second call made
    while less than the TTL has passed since the entry was written issues
    no further request, changes nothing and returns the parse of the
    stored bytes; a second call made once the TTL has passed issues exactly
    one more request and overwrites the entry. *)
Theorem fetchWithCache_ttl (url name : string) :
  CACHE_TTL = 12 * 60 * 60 * 1000 /\
  (forall w,
     requests (snd (fetchWithCache url name w)) = requests w <->
     exists f, cache_entry name w = Some f /\ clock w - mtimeMs f < CACHE_TTL)
  /\
  (forall w0 status body elapsed data,
     (forall f, cache_entry name w0 = Some f -> CACHE_TTL <= clock w0 - mtimeMs f) ->
     network url (clock w0) = (HttpResponse status body, elapsed) ->
     status_ok status = true ->
     JSON_parse body = inl data ->
     let stored := mkFile (JSON_stringify data) (clock w0 + elapsed) in
     let w1 := snd (fetchWithCache url name w0) in
     fst (fetchWithCache url name w0) = Ok data /\
     requests w1 = (requests w0 ++ [url])%list /\
     cache_entry name w1 = Some stored /\
     (forall now,
        now - mtimeMs stored < CACHE_TTL ->
        fetchWithCache url name (set_clock now w1) =
          (match JSON_parse (content stored) with
           | inl cached => Ok cached
           | inr m => Throw m
           end, set_clock now w1)
        /\ requests (set_clock now w1) = (requests w0 ++ [url])%list) /\
     (forall now status' body' elapsed' data',
        CACHE_TTL <= now - mtimeMs stored ->
        network url now = (HttpResponse status' body', elapsed') ->
        status_ok status' = true ->
        JSON_parse body' = inl data' ->
        let w2 := snd (fetchWithCache url name (set_clock now w1)) in
        fst (fetchWithCache url name (set_clock now w1)) = Ok data' /\
        requests w2 = (requests w0 ++ [url; url])%list /\
        cache_entry name w2 = Some (mkFile (JSON_stringify data') (now + elapsed')))).
Proof.
  split; [reflexivity|]. split.
  - intros w. rewrite <- isFresh_true. destruct (isFresh name w) eqn:Hf.
    + apply isFresh_true in Hf as (f & He & Hlt).
      rewrite (fetchWithCache_fresh url name w f He Hlt). simpl.
      split; intros _; reflexivity.
    + rewrite fetchWithCache_stale by exact Hf.
      rewrite refetch_requests, requests_ensured. split; [|discriminate].
      intros H. exfalso. exact (app_neq_self _ _ H).
  - intros w0 status body elapsed data Hstale Hn Hok Hp stored w1.
    apply isFresh_false in Hstale.
    assert (H1 : fetchWithCache url name w0 =
                 (Ok data, refreshed name (JSON_stringify data) url (clock w0 + elapsed) w0))
      by (now apply (fetchWithCache_refresh url name w0 status body elapsed data)).
    subst w1. rewrite H1. simpl fst. simpl snd.
    set (w1 := refreshed _ _ _ _ w0).
    assert (He : forall now, cache_entry name (set_clock now w1) = Some stored)
      by (intros now; unfold cache_entry; simpl; apply lookup_insert_eq).
    split; [reflexivity|]. split; [reflexivity|].
    split; [apply cache_entry_refreshed|]. split.
    + intros now Hyoung. split; [|reflexivity].
      apply (fetchWithCache_fresh url name (set_clock now w1) stored (He now)).
      exact Hyoung.
    + intros now status' body' elapsed' data' Hold Hn' Hok' Hp' w2.
      assert (Hst : isFresh name (set_clock now w1) = false).
      { apply isFresh_false. intros f Hf. rewrite He in Hf. injection Hf as <-. exact Hold. }
      subst w2.
      rewrite (fetchWithCache_refresh url name (set_clock now w1) status' body'
                 elapsed' data' Hst Hn' Hok' Hp').
      simpl fst. simpl snd. split; [reflexivity|]. split.
      * unfold refreshed, w1. simpl. now rewrite <- List.app_assoc.
      * apply cache_entry_refreshed.
Qed.

(** C10. When the entry exists but is stale and the refresh fails (a
    non-2xx response, whose exception carries the status code and the URL,
    or a body that does not parse, or a rejected [fetch]), the call throws
    and writes nothing: the whole cache directory, and so the stale entry's
    bytes and modification time, is as before; only the clock and the
    request log have moved. *)
Theorem stale_refresh_failure_keeps_entry
    (url name : string) (w : World) (f : File) (r : HttpResult) (elapsed : Z) :
  cache_entry name w = Some f ->
  CACHE_TTL <= clock w - mtimeMs f ->
  network url (clock w) = (r, elapsed) ->
  refresh_fails r ->
  exists m,
    fetchWithCache url name w =
      (Throw m, set_clock (clock w + elapsed) (add_request url w)) /\
    failure_message url r m /\
    cache_dir (snd (fetchWithCache url name w)) = cache_dir w /\
    cache_entry name (snd (fetchWithCache url name w)) = Some f.
Proof.
  intros He Hold Hn Hr.
  assert (Hs : isFresh name w = false).
  { apply isFresh_false. intros f' Hf'. rewrite He in Hf'. injection Hf' as <-. exact Hold. }
  rewrite fetchWithCache_stale by exact Hs.
  rewrite (ensured_id name w f He).
  destruct (refetch_failed url name w r elapsed Hn Hr) as (m & Hm & Hmsg).
  exists m. rewrite Hm. simpl. repeat split; try assumption.
Qed.

(** *** Computations that print nothing *)

(** [c] leaves both console streams as they were, whatever its outcome. *)
Definition quiet {A} (c : M A) : Prop :=
  forall w, stdout (snd (c w)) = stdout w /\ stderr (snd (c w)) = stderr w.

(** The same of a call and of its continuation. *)
Definition quiet_async {A} (c : M (Pending A)) : Prop :=
  forall w,
    stdout (snd (c w)) = stdout w /\ stderr (snd (c w)) = stderr w /\
    match fst (c w) with
    | Ok (Waiting _ resume) => quiet resume
    | _ => True
    end.

Lemma quiet_ret {A} (a : A) : quiet (ret a).
Proof. intros w. split; reflexivity. Qed.

Lemma quiet_throw {A} (m : string) : quiet (@throw A m).
Proof. intros w. split; reflexivity. Qed.

Lemma quiet_lift {A} (r : Result A) : quiet (lift r).
Proof. intros w. split; reflexivity. Qed.

Lemma quiet_gets {A} (f : World -> A) : quiet (gets f).
Proof. intros w. split; reflexivity. Qed.

Lemma quiet_sleep elapsed : quiet (sleep elapsed).
Proof. intros w. split; reflexivity. Qed.

Lemma quiet_bind {A B} (c : M A) (k : A -> M B) :
  quiet c -> (forall a, quiet (k a)) -> quiet (bind c k).
Proof.
  intros Hc Hk w. unfold bind. specialize (Hc w).
  destruct (c w) as [[a|m] w']; simpl in *.
  - destruct (Hk a w') as [H1 H2]. rewrite H1, H2. exact Hc.
  - exact Hc.
Qed.

Lemma quiet_async_settled {A} (a : A) : quiet_async (ret (Settled a)).
Proof. intros w. repeat split. Qed.

Lemma quiet_async_bind {A B} (c : M A) (k : A -> M (Pending B)) :
  quiet c -> (forall a, quiet_async (k a)) -> quiet_async (bind c k).
Proof.
  intros Hc Hk w. unfold bind. specialize (Hc w).
  destruct (c w) as [[a|m] w']; simpl in *.
  - destruct (Hk a w') as (H1 & H2 & H3). rewrite H1, H2.
    destruct Hc as [Hc1 Hc2]. repeat split; assumption.
  - destruct Hc as [Hc1 Hc2]. repeat split; assumption.
Qed.

Lemma quiet_andThen {A B} (c : M (Pending A)) (k : A -> M B) :
  quiet_async c -> (forall a, quiet (k a)) -> quiet_async (andThen c k).
Proof.
  intros Hc Hk w. unfold andThen, bind. destruct (Hc w) as (H1 & H2 & H3).
  destruct (c w) as [[[a|elapsed resume]|m] w']; simpl in *.
  - destruct (Hk a w') as [H4 H5].
    destruct (k a w') as [[b|m] w'']; simpl in *;
      rewrite H4, H5; repeat split; assumption.
  - split; [assumption|]. split; [assumption|]. now apply quiet_bind.
  - repeat split; assumption.
Qed.

Lemma quiet_await {A} (c : M (Pending A)) : quiet_async c -> quiet (await c).
Proof.
  intros Hc w. unfold await, bind. destruct (Hc w) as (H1 & H2 & H3).
  destruct (c w) as [[[a|elapsed resume]|m] w']; simpl in *; try (split; assumption).
  destruct (H3 (set_clock (clock w' + elapsed) w')) as [H4 H5].
  simpl in H4, H5. rewrite H4, H5. split; assumption.
Qed.

Lemma quiet_settles {A} (r : Result (Pending A)) :
  match r with Ok (Waiting _ resume) => quiet resume | _ => True end ->
  quiet (snd (settles r)).
Proof.
  destruct r as [[a|elapsed resume]|m]; simpl; intros H;
    [apply quiet_ret|exact H|apply quiet_throw].
Qed.

Lemma quiet_Promise_all {A B} (a : M (Pending A)) (b : M (Pending B)) :
  quiet_async a -> quiet_async b -> quiet (Promise_all a b).
Proof.
  intros Ha Hb w. unfold Promise_all.
  destruct (Ha w) as (Ha1 & Ha2 & Ha3). destruct (a w) as [pa w1]. simpl in Ha1, Ha2, Ha3.
  destruct (Hb w1) as (Hb1 & Hb2 & Hb3). destruct (b w1) as [pb w2]. simpl in Hb1, Hb2, Hb3.
  apply quiet_settles in Ha3, Hb3.
  destruct (settles pa) as [ta ka], (settles pb) as [tb kb]. simpl in Ha3, Hb3.
  destruct (ta <=? tb).
  - destruct (Ha3 (set_clock (clock w2 + ta) w2)) as [H1 H2].
    destruct (ka (set_clock (clock w2 + ta) w2)) as [ra w3]. simpl in H1, H2.
    destruct (Hb3 (set_clock (clock w2 + tb) w3)) as [H3 H4].
    destruct (kb (set_clock (clock w2 + tb) w3)) as [rb w4]. simpl in H3, H4 |- *.
    split; congruence.
  - destruct (Hb3 (set_clock (clock w2 + tb) w2)) as [H1 H2].
    destruct (kb (set_clock (clock w2 + tb) w2)) as [rb w3]. simpl in H1, H2.
    destruct (Ha3 (set_clock (clock w2 + ta) w3)) as [H3 H4].
    destruct (ka (set_clock (clock w2 + ta) w3)) as [ra w4]. simpl in H3, H4 |- *.
    split; congruence.
Qed.

Lemma quiet_ensureCacheDir : quiet ensureCacheDir.
Proof. intros w. unfold ensureCacheDir, modify. simpl. destruct (cache_dir w); split; reflexivity. Qed.

Lemma quiet_writeFileSync name text : quiet (writeFileSync name text).
Proof. intros w. unfold writeFileSync. destruct (cache_dir w); split; reflexivity. Qed.

Lemma quiet_fetch_async url : quiet_async (fetch_async url).
Proof.
  intros w. unfold fetch_async. destruct (network url (clock w)). simpl.
  repeat split.
Qed.

Lemma quiet_parse_json text : quiet (parse_json text).
Proof. unfold parse_json. destruct (JSON_parse text); [apply quiet_ret|apply quiet_throw]. Qed.

Create HintDb quiet.
#[local] Hint Resolve quiet_ret quiet_throw quiet_lift quiet_gets quiet_sleep
  quiet_async_settled quiet_Promise_all quiet_ensureCacheDir quiet_writeFileSync
  quiet_fetch_async quiet_parse_json : quiet.

Ltac quiet_step :=
  match goal with
  | |- quiet (bind _ _) => apply quiet_bind; [|intros ?]
  | |- quiet (await _) => apply quiet_await
  | |- quiet_async (bind _ _) => apply quiet_async_bind; [|intros ?]
  | |- quiet_async (andThen _ _) => apply quiet_andThen; [|intros ?]
  | |- quiet (match ?x with _ => _ end) => destruct x
  | |- quiet_async (match ?x with _ => _ end) => destruct x
  | |- quiet _ => solve [auto with quiet]
  | |- quiet_async _ => solve [auto with quiet]
  end.

Lemma quiet_fetchWithCache_async url name : quiet_async (fetchWithCache_async url name).
Proof.
  unfold fetchWithCache_async, existsSync, statSync, readFileSync, Date_now.
  repeat quiet_step.
Qed.
#[local] Hint Resolve quiet_fetchWithCache_async : quiet.

Lemma quiet_fetchWithCache url name : quiet (fetchWithCache url name).
Proof. unfold fetchWithCache. repeat quiet_step. Qed.
#[local] Hint Resolve quiet_fetchWithCache : quiet.

Lemma quiet_fetchNFLTeams : quiet fetchNFLTeams.
Proof. unfold fetchNFLTeams. repeat quiet_step. Qed.

Lemma quiet_normalise lg teams data : quiet (normalise lg teams data).
Proof. unfold normalise. repeat quiet_step. Qed.
#[local] Hint Resolve quiet_normalise : quiet.

Lemma quiet_fetchGames_async url lg name teams :
  quiet_async (fetchGames_async url lg name teams).
Proof. unfold fetchGames_async. repeat quiet_step. Qed.
#[local] Hint Resolve quiet_fetchNFLTeams quiet_fetchGames_async : quiet.

Lemma quiet_loadGames : quiet loadGames.
Proof. unfold loadGames. repeat quiet_step. Qed.

Lemma quiet_computeTargetDate n : quiet (computeTargetDate n).
Proof. unfold computeTargetDate, Date_now. repeat quiet_step. Qed.
#[local] Hint Resolve quiet_loadGames quiet_computeTargetDate : quiet.

Lemma quiet_selectGames offset opts games : quiet (selectGames offset opts games).
Proof. unfold selectGames. repeat quiet_step. Qed.

(** *** The command surface *)

Lemma forEach_console_log {A} (f : A -> string) (l : list A) (w : World) :
  fst (forEach (fun x => console_log (f x)) l w) = Ok tt.
Proof.
  revert w. induction l as [|x l IH]; intros w; [reflexivity|].
  simpl. unfold bind, console_log, modify. apply IH.
Qed.

Lemma forEach_console_log_world {A} (f : A -> string) (l : list A) (w : World) :
  forEach (fun x => console_log (f x)) l w =
    (Ok tt, mkWorld (cache_dir w) (clock w) (requests w)
                    (stdout w ++ map f l) (stderr w)).
Proof.
  revert w. induction l as [|x l IH]; intros w.
  - destruct w. simpl. now rewrite app_nil_r.
  - cbn [forEach]. unfold bind, console_log at 1, modify. rewrite IH. simpl.
    now rewrite <- List.app_assoc.
Qed.

(** The header of a listing that has no date filter. *)
Definition plainLabel (opts : Opts) : string :=
  if JS.truthy_string (team opts)
  then "All games for teams matching " +:+ dquote +:+ team opts +:+ dquote
  else "Games".

(** Without a date filter the display cannot fail: it prints the header,
    then one row per Game, in sorted order. *)
Lemma display_no_offset opts combined w :
  display None opts combined w =
    (Ok tt, mkWorld (cache_dir w) (clock w) (requests w)
              (stdout w ++ (plainLabel opts +:+ ":" +:+ newline)
                 :: map gameRow (Array_sort compareGames combined))
              (stderr w)).
Proof.
  unfold display, bind, ret, console_log at 1, modify.
  rewrite forEach_console_log_world. simpl. now rewrite <- List.app_assoc.
Qed.

(** When the display of a non-empty selection throws, it has printed
    nothing: the only fallible step comes before the header. *)
Lemma display_throw_quiet offset opts combined w m w' :
  display offset opts combined w = (Throw m, w') ->
  stdout w' = stdout w /\ stderr w' = stderr w.
Proof.
  unfold display. unfold bind at 1.
  set (label := match offset with Some n => _ | None => _ end).
  assert (Hq : quiet label) by (subst label; repeat quiet_step).
  specialize (Hq w). destruct (label w) as [[l|m0] w0]; simpl in Hq.
  - unfold bind, console_log at 1, modify.
    match goal with |- context [forEach ?f ?l ?w] =>
      pose proof (forEach_console_log gameRow l w) as Hf;
      destruct (forEach f l w) as [[u|m1] w1] end; simpl in Hf; discriminate.
  - intros [= <- <-]. exact Hq.
Qed.

Lemma tryBlock_throw_quiet offset opts w m w' :
  tryBlock offset opts w = (Throw m, w') ->
  stdout w' = stdout w /\ stderr w' = stderr w.
Proof.
  unfold tryBlock, bind.
  pose proof (quiet_loadGames w) as Hl.
  destruct (loadGames w) as [[games|m0] w0]; simpl in Hl.
  - pose proof (quiet_selectGames offset opts games w0) as Hs.
    destruct (selectGames offset opts games w0) as [[combined|m1] w1]; simpl in Hs.
    + destruct combined as [|g combined].
      * discriminate.
      * intros H. apply display_throw_quiet in H.
        destruct H as [H1 H2], Hs as [H3 H4], Hl as [H5 H6]. split; congruence.
    + intros [= <- <-]. destruct Hs as [H3 H4], Hl as [H5 H6]. split; congruence.
  - intros [= <- <-]. exact Hl.
Qed.

(** C8. Once the arguments are accepted, the process exit status is 0
    whatever happens; an exception raised anywhere in the [try] block
    (configuration, network, HTTP status, JSON syntax, document shape) is
    caught by the single handler, which writes one line, "Error: " followed
    by the exception's message, to the error stream. Nothing has been
    printed before it. *)
Theorem errors_caught_exit_zero (opts : Opts) (offset : option Z) (w : World) :
  clear_cache opts = false ->
  resolveOffset opts = Some offset ->
  fst (main opts w) = 0 /\
  forall m w',
    tryBlock offset opts w = (Throw m, w') ->
    snd (main opts w) = add_stderr ("Error: " +:+ m) w' /\
    stdout (snd (main opts w)) = stdout w /\
    stderr (snd (main opts w)) = (stderr w ++ ["Error: " +:+ m])%list.
Proof.
  intros Hc Ho. unfold main. rewrite Hc, Ho. split; [reflexivity|].
  intros m w' Ht. unfold try_catch. rewrite Ht.
  apply tryBlock_throw_quiet in Ht as [H1 H2].
  simpl. rewrite H1, H2. repeat split.
Qed.

(** Without an API key the [try] block throws the configuration error at
    once, before any I/O. *)
Lemma missing_key_throws offset opts w :
  JS.truthy API_KEY = false ->
  tryBlock offset opts w = (Throw "Missing API key in .env", w).
Proof. intros H. unfold tryBlock, loadGames, bind. rewrite H. reflexivity. Qed.

(** The usage-error branch is the only one that leaves no offset. *)
Lemma resolveOffset_no_filter opts :
  resolveOffset opts = Some None -> days opts = "" /\ team opts <> "".
Proof.
  unfold resolveOffset. destruct opts as [d t c]; simpl.
  destruct d as [|a d]; simpl.
  - destruct t; simpl; [discriminate|]. intros _. split; [reflexivity|discriminate].
  - destruct (JS.parseInt (String a d)); discriminate.
Qed.

(** *** Sorting *)

(** The order the comparator induces on Games whose effective time is a
    valid date: by week, then by effective time. *)
Definition game_le (a b : Game) : Prop :=
  week a < week b \/
  (week a = week b /\
   exists ta tb, gameTime a = Some ta /\ gameTime b = Some tb /\ ta <= tb).

(** The string the effective time is read from parses as a date. *)
Definition timed (g : Game) : Prop := is_Some (gameTime g).

Lemma SortCompare_le a b :
  timed a -> timed b -> (SortCompare compareGames a b <= 0 <-> game_le a b).
Proof.
  intros [ta Ha] [tb Hb]. unfold SortCompare, compareGames, game_le.
  rewrite Ha, Hb. destruct (week a =? week b) eqn:E; simpl.
  - apply Z.eqb_eq in E. split.
    + intros H. right. split; [exact E|]. exists ta, tb. repeat split. lia.
    + intros [H|(_ & ta' & tb' & [= <-] & [= <-] & H)]; lia.
  - apply Z.eqb_neq in E. split.
    + intros H. left. lia.
    + intros [H|(H & _)]; lia.
Qed.

Lemma game_le_trans a b c : game_le a b -> game_le b c -> game_le a c.
Proof.
  unfold game_le.
  intros [H1|(H1 & ta & tb & Ha & Hb & Hab)] [H2|(H2 & tb' & tc & Hb' & Hc & Hbc)].
  - left. lia.
  - left. lia.
  - left. lia.
  - right. split; [lia|]. exists ta, tc. repeat split; try assumption.
    rewrite Hb in Hb'. injection Hb' as <-. lia.
Qed.

(** The comparison of two Games with valid times. *)
Lemma SortCompare_timed a b ta tb :
  gameTime a = Some ta -> gameTime b = Some tb ->
  compareGames a b = Some (if week a =? week b then ta - tb else week a - week b) /\
  SortCompare compareGames a b = if week a =? week b then ta - tb else week a - week b.
Proof.
  intros Ha Hb. unfold SortCompare, compareGames. rewrite Ha, Hb.
  destruct (week a =? week b); split; reflexivity.
Qed.

(** On Games with valid times the comparator is a consistent one. *)
Lemma compareGames_consistent l : Forall timed l -> consistent compareGames l.
Proof.
  intros Hl a b c Ha Hb Hc. rewrite Forall_forall in Hl.
  destruct (Hl a (proj2 (list_elem_of_In _ _) Ha)) as [ta Hta].
  destruct (Hl b (proj2 (list_elem_of_In _ _) Hb)) as [tb Htb].
  destruct (Hl c (proj2 (list_elem_of_In _ _) Hc)) as [tc Htc].
  destruct (SortCompare_timed a b ta tb Hta Htb) as [Hab ->].
  destruct (SortCompare_timed a a ta ta Hta Hta) as [_ ->].
  destruct (SortCompare_timed b a tb ta Htb Hta) as [_ ->].
  destruct (SortCompare_timed b c tb tc Htb Htc) as [_ ->].
  destruct (SortCompare_timed a c ta tc Hta Htc) as [_ ->].
  split; [rewrite Hab; eauto|].
  rewrite Z.eqb_refl, (Z.eqb_sym (week b) (week a)).
  destruct (week a =? week b) eqn:E1; destruct (week b =? week c) eqn:E2;
    destruct (week a =? week c) eqn:E3;
    rewrite ?Z.eqb_eq, ?Z.eqb_neq in E1, E2, E3; lia.
Qed.

(** A Game without time information has effective time 0. *)
Lemma gameTime_no_info g :
  JS.truthy (dateTime g) = false -> JS.truthy (day g) = false -> gameTime g = Some 0.
Proof. unfold gameTime, JS.or_null. intros -> ->. reflexivity. Qed.

(** The effective time is read from [dateTime] when it is present (and
    not empty), else from [day] when that is. *)
Lemma gameTime_dateTime g s :
  dateTime g = Some s -> s <> "" -> gameTime g = Date_parse s.
Proof.
  intros H Hs. unfold gameTime, JS.or_null. rewrite H.
  destruct s; [congruence|reflexivity].
Qed.

Lemma gameTime_day g s :
  JS.truthy (dateTime g) = false -> day g = Some s -> s <> "" ->
  gameTime g = Date_parse s.
Proof.
  intros Hd H Hs. unfold gameTime, JS.or_null. rewrite Hd, H.
  destruct s; [congruence|reflexivity].
Qed.

(** C4 (amended). The effective time of a Game is the date its [dateTime]
    parses to when that is present, else the date its [day] parses to when
    that is present, else the epoch. For a list of Games whose
    effective-time texts all parse as dates, the sorted list is a
    rearrangement of the input in which every entry precedes only entries
    of a later week, or of the same week and an equal or later effective
    time. A Game with no time information has effective time 0, so whatever
    is listed before it within its week has an effective time at or before
    the epoch. The rows are printed in that order. The engine's sort is
    taken to do what the language standard says. *)
Theorem sort_by_week_then_time (games : list Game) :
  sorts Array_sort ->
  Forall timed games ->
  let sorted := Array_sort compareGames games in
  ((forall g s, dateTime g = Some s -> s <> "" -> gameTime g = Date_parse s) /\
   (forall g s, JS.truthy (dateTime g) = false -> day g = Some s -> s <> "" ->
                gameTime g = Date_parse s) /\
   (forall g, JS.truthy (dateTime g) = false -> JS.truthy (day g) = false ->
              gameTime g = Some 0)) /\
  Permutation games sorted /\
  (forall (i j : nat) (h g : Game),
     (i < j)%nat -> sorted !! i = Some h -> sorted !! j = Some g ->
     week h < week g \/
     (week h = week g /\
      exists th tg, gameTime h = Some th /\ gameTime g = Some tg /\ th <= tg)) /\
  (forall (i j : nat) (h g : Game),
     (i < j)%nat -> sorted !! i = Some h -> sorted !! j = Some g ->
     week h = week g ->
     JS.truthy (dateTime g) = false -> JS.truthy (day g) = false ->
     exists th, gameTime h = Some th /\ th <= 0) /\
  (forall opts w,
     stdout (snd (display None opts games w)) =
       (stdout w ++ (plainLabel opts +:+ ":" +:+ newline) :: map gameRow sorted)%list).
Proof.
  intros Hsort Hv sorted.
  destruct (Hsort compareGames games) as [Hperm Hcons].
  destruct (Hcons (compareGames_consistent games Hv)) as [Hasc _].
  assert (Hts : forall i g, sorted !! i = Some g -> timed g).
  { intros i g Hi. rewrite Forall_forall in Hv. apply Hv.
    apply list_elem_of_In. eapply Permutation_in; [symmetry; exact Hperm|].
    apply list_elem_of_In. eapply list_elem_of_lookup_2. exact Hi. }
  assert (Hle : forall (i j : nat) (h g : Game),
            (i < j)%nat -> sorted !! i = Some h -> sorted !! j = Some g -> game_le h g).
  { intros i j h g Hij Hi Hj. apply SortCompare_le; eauto. }
  split; [|split; [exact Hperm|split; [exact Hle|split]]].
  - split; [exact gameTime_dateTime|]. split; [exact gameTime_day|exact gameTime_no_info].
  - intros i j h g Hij Hi Hj Hw Hd1 Hd2.
    destruct (Hle i j h g Hij Hi Hj) as [Hlt|(_ & th & tg & Hh & Hg & Hthg)]; [lia|].
    rewrite (gameTime_no_info g Hd1 Hd2) in Hg. injection Hg as <-.
    now exists th.
  - intros opts w. rewrite display_no_offset. reflexivity.
Qed.

(** X14. The comparator looks at the times only when the weeks are equal:
    Games of different weeks compare by week difference even when a time
    is not a valid date, and the result is [NaN] exactly when the weeks are
    equal and one of the two effective times is invalid. On Games with
    valid times it is a consistent comparator: reflexive, antisymmetric and
    transitive. *)
Theorem compareGames_is_consistent :
  (forall a b, week a <> week b -> compareGames a b = Some (week a - week b)) /\
  (forall a b,
     compareGames a b = None <->
     week a = week b /\ (gameTime a = None \/ gameTime b = None)) /\
  (forall a, timed a -> SortCompare compareGames a a = 0) /\
  (forall a b, timed a -> timed b ->
     SortCompare compareGames b a = - SortCompare compareGames a b) /\
  (forall a b c, timed a -> timed b -> timed c ->
     SortCompare compareGames a b <= 0 -> SortCompare compareGames b c <= 0 ->
     SortCompare compareGames a c <= 0).
Proof.
  split; [|split; [|split; [|split]]].
  - intros a b H. unfold compareGames. apply Z.eqb_neq in H. now rewrite H.
  - intros a b. unfold compareGames. destruct (week a =? week b) eqn:E; simpl.
    + apply Z.eqb_eq in E.
      destruct (gameTime a), (gameTime b); split; intros H;
        first [ discriminate H
              | reflexivity
              | split; [exact E|]; first [left; reflexivity|right; reflexivity]
              | destruct H as [_ [H|H]]; discriminate H ].
    + apply Z.eqb_neq in E. split; [discriminate|]. intros [H _]. contradiction.
  - intros a [ta Ha]. unfold SortCompare, compareGames.
    rewrite Z.eqb_refl, Ha. simpl. lia.
  - intros a b [ta Ha] [tb Hb]. unfold SortCompare, compareGames.
    rewrite Ha, Hb, (Z.eqb_sym (week b)).
    destruct (week a =? week b); simpl; lia.
  - intros a b c Ha Hb Hc H1 H2.
    apply SortCompare_le in H1, H2; try assumption.
    apply SortCompare_le; try assumption. now apply game_le_trans with b.
Qed.

(** Two Games fall in the same slot of the listing: same week, same (valid)
    effective time. *)
Definition sameSlot (a b : Game) : bool :=
  (week a =? week b)
  && match gameTime a, gameTime b with
     | Some ta, Some tb => ta =? tb
     | _, _ => false
     end.

Lemma sameSlot_tied a b :
  timed a -> timed b -> sameSlot a b = tied compareGames a b.
Proof.
  intros [ta Ha] [tb Hb]. unfold sameSlot, tied.
  destruct (SortCompare_timed a b ta tb Ha Hb) as [_ ->]. rewrite Ha, Hb.
  destruct (week a =? week b) eqn:E; cbn [andb].
  - destruct (ta =? tb) eqn:T; symmetry;
      [apply Z.eqb_eq; apply Z.eqb_eq in T; lia
      |apply Z.eqb_neq; apply Z.eqb_neq in T; lia].
  - symmetry. apply Z.eqb_neq. apply Z.eqb_neq in E. lia.
Qed.

(** X15. On Games whose effective-time texts parse as dates the sort is
    stable: the Games in the slot of any one of them (same week, same
    effective time) come out in the order they went in, so that on a tie
    college Games stay ahead of professional ones and each feed keeps its
    upstream order. The engine's sort is taken to do what the language
    standard says. *)
Theorem sort_is_stable (games : list Game) (g0 : Game) :
  sorts Array_sort ->
  Forall timed games ->
  In g0 games ->
  List.filter (sameSlot g0) (Array_sort compareGames games)
  = List.filter (sameSlot g0) games.
Proof.
  intros Hsort Hv H0.
  destruct (Hsort compareGames games) as [Hperm Hcons].
  destruct (Hcons (compareGames_consistent games Hv)) as [_ Hst].
  rewrite Forall_forall in Hv.
  assert (Ht0 : timed g0) by (apply Hv; now apply list_elem_of_In).
  rewrite (filter_ext_in (sameSlot g0) (tied compareGames g0)
             (Array_sort compareGames games)).
  - rewrite (Hst g0 H0). symmetry. apply filter_ext_in.
    intros g Hg. apply sameSlot_tied; [exact Ht0|].
    apply Hv. now apply list_elem_of_In.
  - intros g Hg. apply sameSlot_tied; [exact Ht0|].
    apply Hv. apply list_elem_of_In.
    eapply Permutation_in; [symmetry; exact Hperm|exact Hg].
Qed.

(** *** The date filter *)

Lemma startsWith_nonempty s t :
  t <> "" -> JS.startsWith s t = true -> JS.truthy_string s = true.
Proof.
  unfold JS.startsWith. destruct t as [|c t]; [congruence|].
  destruct s as [|c' s]; simpl; [discriminate|reflexivity].
Qed.

(** The rule as the specification words it: [day] is consulted only when
    [dateTime] is absent. *)
Definition dayOnlyWhenNoDateTime (t : string) (g : Game) : Prop :=
  (exists s, dateTime g = Some s /\ JS.startsWith s t = true) \/
  (dateTime g = None /\ exists s, day g = Some s /\ JS.startsWith s t = true).

(** C2 (amended). With target date [t] (never empty), a Game is kept iff
    its [dateTime] is present and starts with [t], or its [day] is present
    and starts with [t]; [day] is consulted whether or not [dateTime] is
    present. A Game with neither field is excluded. *)
Theorem dateFilter_keep_iff (t : string) (g : Game) :
  t <> "" ->
  (dateFilter t g = true <->
   (exists s, dateTime g = Some s /\ JS.startsWith s t = true) \/
   (exists s, day g = Some s /\ JS.startsWith s t = true)) /\
  (dateTime g = None -> day g = None -> dateFilter t g = false).
Proof.
  intros Ht. unfold dateFilter. split.
  - rewrite orb_true_iff. split.
    + intros [H|H]; [left|right].
      * destruct (dateTime g) as [s|]; [|discriminate].
        apply andb_true_iff in H as [_ H]. eauto.
      * destruct (day g) as [s|]; [|discriminate].
        apply andb_true_iff in H as [_ H]. eauto.
    + intros [(s & -> & H)|(s & -> & H)]; [left|right];
        rewrite (startsWith_nonempty s t Ht H), H; reflexivity.
  - intros -> ->. reflexivity.
Qed.

(** *** The calendar *)

(** In a zone with a constant offset, [setDate(getDate() + d)] moves the
    time value by exactly [d] days. *)
Lemma setDate_adds_days (tza now d : Z) :
  (forall t b, LocalTZA t b = tza) ->
  setDate now (getDate now + d) = Time.TimeClip (now + d * Time.msPerDay).
Proof.
  intros Htz. unfold setDate, getDate, LocalTime, UTC. rewrite !Htz.
  rewrite MakeDay_fields. f_equal. unfold Time.MakeDate, Time.Day, Time.TimeWithinDay.
  pose proof (Z.div_mod (now + tza) Time.msPerDay ltac:(discriminate)) as H.
  lia.
Qed.

(** What [computeTargetDate] returns in such a zone: the UTC calendar
    date of the instant [d] days from now. *)
Lemma targetDateAt_constant_zone (tza now d : Z) :
  (forall t b, LocalTZA t b = tza) ->
  targetDateAt now d =
    (fun t => Time.ymd (Time.civil_from_days (Time.Day t)))
      <$> Time.TimeClip (now + d * Time.msPerDay).
Proof.
  intros Htz. unfold targetDateAt. rewrite (setDate_adds_days tza now d Htz).
  destruct (Time.TimeClip (now + d * Time.msPerDay)) as [t|]; simpl; [|reflexivity].
  now rewrite toISOString_date.
Qed.

(** It is the local calendar date whenever the local and the UTC dates of
    the moment of the run coincide. *)
Lemma targetDateAt_local_when_dates_coincide (tza now d : Z) :
  (forall t b, LocalTZA t b = tza) ->
  Z.abs (now + d * Time.msPerDay) <= 8640000000000000 ->
  Time.Day (LocalTime now) = Time.Day now ->
  targetDateAt now d = Some (localTargetDate now d).
Proof.
  intros Htz Hr Hd. rewrite (targetDateAt_constant_zone tza now d Htz).
  assert (Hday : Time.Day (now + d * Time.msPerDay) = Time.Day now + d)
    by (unfold Time.Day; apply Z.div_add; discriminate).
  unfold Time.TimeClip. apply Z.leb_le in Hr. rewrite Hr.
  unfold localTargetDate. rewrite Hd, <- Hday. reflexivity.
Qed.

(** ** Further properties of the date helpers *)

(** X9. In a zone with a constant offset, [computeTargetDate(d)] does not
    depend on the zone: it returns the UTC calendar date of the day [d]
    days after the UTC day of the run, and throws "Invalid time value"
    exactly when the instant [d] days from now is more than 8.64e15 ms from
    the epoch. It never changes the state. *)
Theorem computeTargetDate_constant_zone (tza d : Z) (w : World) :
  (forall t b, LocalTZA t b = tza) ->
  computeTargetDate d w =
    (if Z.abs (clock w + d * Time.msPerDay) <=? 8640000000000000
     then Ok (Time.ymd (Time.civil_from_days (Time.Day (clock w) + d)))
     else Throw "Invalid time value", w).
Proof.
  intros Htz. unfold computeTargetDate, bind, Date_now, gets.
  rewrite (targetDateAt_constant_zone tza (clock w) d Htz). unfold Time.TimeClip.
  assert (Hday : Time.Day (clock w + d * Time.msPerDay) = Time.Day (clock w) + d)
    by (unfold Time.Day; apply Z.div_add; discriminate).
  destruct (Z.abs (clock w + d * Time.msPerDay) <=? 8640000000000000); [|reflexivity].
  cbn [fmap option_fmap option_map]. now rewrite Hday.
Qed.

Lemma computeTargetDate_eq d w :
  computeTargetDate d w =
    match targetDateAt (clock w) d with
    | Some s => (Ok s, w)
    | None => (Throw "Invalid time value", w)
    end.
Proof.
  unfold computeTargetDate, bind, Date_now, gets.
  destruct (targetDateAt (clock w) d); reflexivity.
Qed.

Lemma targetDateAt_Some now d s :
  targetDateAt now d = Some s ->
  exists t, setDate now (getDate now + d) = Some t /\
            s = Time.ymd (Time.civil_from_days (Time.Day t)).
Proof.
  unfold targetDateAt.
  destruct (setDate now (getDate now + d)) as [t|]; [|discriminate].
  cbn [mbind option_bind]. rewrite toISOString_date. intros [= <-]. now exists t.
Qed.

Lemma setDate_in_range t dt t' : setDate t dt = Some t' -> Z.abs t' <= 8640000000000000.
Proof.
  unfold setDate, Time.TimeClip.
  match goal with |- (if ?c then _ else _) = _ -> _ => destruct c eqn:Hc end;
    [|discriminate].
  intros [= <-]. now apply Z.leb_le.
Qed.

(** X10. In any zone, [computeTargetDate] leaves the state as it is; the
    only exception it raises is "Invalid time value"; and what it returns
    is never empty: it is the text of a valid calendar date (month 1 to 12,
    day 1 to 31), the UTC date of a representable time value. *)
Theorem computeTargetDate_shape (d : Z) (w : World) :
  snd (computeTargetDate d w) = w /\
  match fst (computeTargetDate d w) with
  | Ok s =>
      s <> "" /\
      exists t y m dd,
        Z.abs t <= 8640000000000000 /\
        Time.civil_from_days (Time.Day t) = (y, m, dd) /\
        1 <= m <= 12 /\ 1 <= dd <= 31 /\
        s = Time.ymd (y, m, dd)
  | Throw m => m = "Invalid time value"
  end.
Proof.
  rewrite computeTargetDate_eq.
  destruct (targetDateAt (clock w) d) as [s|] eqn:E; cbn [fst snd];
    [|split; reflexivity].
  split; [reflexivity|].
  apply targetDateAt_Some in E as (t & Ht & ->).
  split; [apply ymd_not_empty|].
  pose proof (civil_day_range (Time.Day t)) as Hr.
  destruct (Time.civil_from_days (Time.Day t)) as [[y m] dd] eqn:Ec.
  exists t, y, m, dd. destruct Hr as [Hm Hd].
  split; [exact (setDate_in_range _ _ _ Ht)|]. now rewrite Ec.
Qed.

(** X11. [formatDate] never throws. On text that is not a date it yields
    "NaN-NaN-NaN INVALID DATE". On a date it yields the calendar date of
    the instant in the local zone: the year as it is, month and day padded
    to two digits (a valid month and day), then the upper-cased short
    English weekday. *)
Theorem formatDate_cases (s : string) :
  (Date_parse s = None -> formatDate s = "NaN-NaN-NaN INVALID DATE") /\
  (forall t y m d,
     Date_parse s = Some t ->
     Time.civil_from_days (Time.Day (LocalTime t)) = (y, m, d) ->
     formatDate s =
       JS.string_of_Z y +:+ "-" +:+ Time.pad 2 m +:+ "-" +:+ Time.pad 2 d +:+ " "
       +:+ JS.toUpperCase_ascii (Time.weekday_short (Time.WeekDay (LocalTime t))) /\
     1 <= m <= 12 /\ 1 <= d <= 31).
Proof.
  split.
  - intros H. unfold formatDate. rewrite H. reflexivity.
  - intros t y m d H Hc. pose proof (civil_day_range (Time.Day (LocalTime t))) as Hr.
    rewrite Hc in Hr. split; [|exact Hr].
    unfold formatDate. rewrite H. simpl.
    unfold Time.YearFromTime, Time.MonthFromTime, Time.DateFromTime. rewrite Hc. simpl.
    replace (m - 1 + 1) with m by ring. reflexivity.
Qed.

(** X26. In a zone with a constant offset, whenever the local and the UTC
    calendar dates of the moment of the run are the same (always so at
    offset 0) and the target is in range, [computeTargetDate(d)] returns
    the local calendar date [d] days from today. *)
Theorem computeTargetDate_local_when_dates_coincide (tza d : Z) (w : World) :
  (forall t b, LocalTZA t b = tza) ->
  Z.abs (clock w + d * Time.msPerDay) <= 8640000000000000 ->
  Time.Day (LocalTime (clock w)) = Time.Day (clock w) ->
  computeTargetDate d w = (Ok (localTargetDate (clock w) d), w).
Proof.
  intros Htz Hr Hd. rewrite computeTargetDate_eq.
  now rewrite (targetDateAt_local_when_dates_coincide tza (clock w) d Htz Hr Hd).
Qed.

(** ** The filters *)

Lemma filter_true {A} (l : list A) : List.filter (fun _ => true) l = l.
Proof. induction l as [|x l IH]; [reflexivity|]. simpl. now rewrite IH. Qed.

Lemma filter_sublist_of {A} (p : A -> bool) (l : list A) : sublist (List.filter p l) l.
Proof.
  induction l as [|x l IH]; simpl; [constructor|].
  destruct (p x); now constructor.
Qed.

Lemma prefix_iff (t s : string) :
  String.prefix t s = true <-> exists b, s = t +:+ b.
Proof.
  revert s. induction t as [|c t IH]; intros s.
  - split; [intros _; now exists s|]. intros _. now destruct s.
  - destruct s as [|c' s]; simpl.
    + split; [discriminate|]. intros [b H]. discriminate H.
    + destruct (ascii_dec c c') as [<-|Hne].
      * rewrite IH. split; intros [b H]; exists b.
        -- now rewrite append_cons, H.
        -- rewrite append_cons in H. now injection H.
      * split; [discriminate|]. intros [b H]. rewrite append_cons in H.
        injection H as H1 _. congruence.
Qed.

Lemma includes_iff (s t : string) :
  JS.includes s t = true <-> exists a b, s = a +:+ t +:+ b.
Proof.
  induction s as [|c s IH].
  - cbn [JS.includes]. rewrite orb_false_r, prefix_iff. split.
    + intros [b H]. now exists "", b.
    + intros (a & b & H). destruct a; [now exists b|discriminate H].
  - cbn [JS.includes]. rewrite orb_true_iff, prefix_iff, IH. split.
    + intros [[b H]|(a & b & H)].
      * now exists "", b.
      * exists (String c a), b. now rewrite append_cons, H.
    + intros (a & b & H). destruct a as [|c' a].
      * left. now exists b.
      * right. rewrite append_cons in H. injection H as _ H. now exists a, b.
Qed.

(** Filtering with a callback that can throw. *)
Lemma Array_filter_filter {A} (p : A -> bool) (q : A -> Result bool) (l : list A) :
  Array_filter q (List.filter p l)
  = Array_filter (fun x => if p x then q x else Ok false) l.
Proof.
  induction l as [|x l IH]; [reflexivity|]. simpl.
  destruct (p x); simpl; rewrite IH; [reflexivity|].
  now destruct (Array_filter _ l).
Qed.

Lemma Array_filter_Ok {A} (q : A -> Result bool) (f : A -> bool) (l : list A) :
  (forall x, In x l -> q x = Ok (f x)) -> Array_filter q l = Ok (List.filter f l).
Proof.
  induction l as [|x l IH]; intros H; [reflexivity|]. simpl.
  rewrite (H x) by now left. rewrite IH by (intros y Hy; apply H; now right).
  now destruct (f x).
Qed.

Lemma Array_filter_sublist {A} (q : A -> Result bool) (l sel : list A) :
  Array_filter q l = Ok sel ->
  sublist sel l /\ Forall (fun x => q x = Ok true) sel.
Proof.
  revert sel. induction l as [|x l IH]; simpl; intros sel.
  - intros [= <-]. split; constructor.
  - destruct (q x) as [keep|m] eqn:Hq; [|discriminate].
    destruct (Array_filter q l) as [kept|m]; [|discriminate].
    destruct (IH kept eq_refl) as [Hs Hf].
    intros [= <-]. destruct keep.
    + split; [now constructor|]. now constructor.
    + split; [now constructor|exact Hf].
Qed.

(** Both names of the Game are strings. *)
Definition named (g : Game) : Prop :=
  exists h a, home g = Text h /\ away g = Text a.

(** On such a Game the team filter is a substring test and cannot throw. *)
Lemma teamFilter_named search g :
  named g ->
  teamFilter search g =
    Ok (JS.includes (toLowerCase (name_text (home g))) search
        || JS.includes (toLowerCase (name_text (away g))) search).
Proof.
  intros (h & a & Hh & Ha). unfold teamFilter. rewrite Hh, Ha. cbn [name_text].
  now destruct (JS.includes (toLowerCase h) search).
Qed.

(** What the two filters together do to one Game, given the target date of
    the date filter (if there is one) and the options. *)
Definition keeps (target : option string) (opts : Opts) (g : Game) : Result bool :=
  if match target with Some t => dateFilter t g | None => true end
  then if JS.truthy_string (team opts)
       then teamFilter (toLowerCase (team opts)) g
       else Ok true
  else Ok false.

Lemma computeTargetDate_at d w :
  computeTargetDate d w =
    match targetDateAt (clock w) d with
    | Some s => (Ok s, w)
    | None => (Throw "Invalid time value", w)
    end.
Proof.
  unfold computeTargetDate, bind, Date_now, gets.
  destruct (targetDateAt (clock w) d); reflexivity.
Qed.

Lemma selectGames_eq offset opts games w :
  selectGames offset opts games w =
    match offset with
    | None => (Array_filter (keeps None opts) games, w)
    | Some n =>
        match targetDateAt (clock w) n with
        | Some t => (Array_filter (keeps (Some t) opts) games, w)
        | None => (Throw "Invalid time value", w)
        end
    end.
Proof.
  unfold selectGames, keeps. unfold bind at 1. destruct offset as [n|].
  - unfold bind at 1. rewrite computeTargetDate_at.
    destruct (targetDateAt (clock w) n) as [t|]; [|reflexivity].
    unfold ret, lift. destruct (JS.truthy_string (team opts)).
    + now rewrite Array_filter_filter.
    + f_equal. symmetry. apply Array_filter_Ok. intros g _.
      now destruct (dateFilter t g).
  - unfold ret, lift. destruct (JS.truthy_string (team opts)); [reflexivity|].
    f_equal. rewrite (Array_filter_Ok _ (fun _ => true)) by reflexivity.
    now rewrite filter_true.
Qed.

Lemma dateFilter_has_time t g :
  dateFilter t g = true -> JS.truthy (dateTime g) = true \/ JS.truthy (day g) = true.
Proof.
  unfold dateFilter. intros H. apply orb_true_iff in H as [H|H]; [left|right].
  - destruct (dateTime g); [|discriminate]. now apply andb_true_iff in H as [H _].
  - destruct (day g); [|discriminate]. now apply andb_true_iff in H as [H _].
Qed.

(** The date filter, read without the truthiness tests: these are implied
    when the target date is not empty. *)
Definition onDate (t : string) (g : Game) : bool :=
  match dateTime g with Some s => JS.startsWith s t | None => false end
  || match day g with Some s => JS.startsWith s t | None => false end.

Lemma dateFilter_onDate t g : t <> "" -> dateFilter t g = onDate t g.
Proof.
  intros Ht. unfold dateFilter, onDate.
  assert (H : forall o : option string,
            match o with Some s => JS.truthy_string s && JS.startsWith s t | None => false end
            = match o with Some s => JS.startsWith s t | None => false end).
  { intros [s|]; [|reflexivity]. destruct (JS.startsWith s t) eqn:E.
    - now rewrite (startsWith_nonempty s t Ht E).
    - apply andb_false_r. }
  now rewrite !H.
Qed.

Lemma targetDateAt_not_empty now d t : targetDateAt now d = Some t -> t <> "".
Proof. intros H. apply targetDateAt_Some in H as (t' & _ & ->). apply ymd_not_empty. Qed.

(** X12. The selection never changes the state. Without an offset it
    applies the team filter alone (keeping every Game when no team is
    given); with an offset it throws when the target date is out of range,
    and otherwise applies the team filter to the Games that pass the date
    filter, in order: a Game that the date filter drops is never looked at
    by the team filter. What it keeps is a subsequence of the input, in
    input order, and under a date filter never a Game that has neither
    time field. When the names of all the Games are strings it cannot throw
    for a name, and it keeps exactly the Games that pass both filters. *)
Theorem selectGames_is_conjunction
    (offset : option Z) (opts : Opts) (games : list Game) (w : World) :
  selectGames offset opts games w =
    match offset with
    | None => (Array_filter (keeps None opts) games, w)
    | Some n =>
        match targetDateAt (clock w) n with
        | Some t => (Array_filter (keeps (Some t) opts) games, w)
        | None => (Throw "Invalid time value", w)
        end
    end /\
  (forall sel,
     fst (selectGames offset opts games w) = Ok sel ->
     sublist sel games /\
     (offset <> None ->
      Forall (fun g => JS.truthy (dateTime g) = true \/ JS.truthy (day g) = true) sel)) /\
  (Forall named games ->
   forall target,
     Array_filter (keeps target opts) games =
       Ok (List.filter
             (fun g =>
                match target with Some t => dateFilter t g | None => true end
                && (negb (JS.truthy_string (team opts))
                    || JS.includes (toLowerCase (name_text (home g)))
                         (toLowerCase (team opts))
                    || JS.includes (toLowerCase (name_text (away g)))
                         (toLowerCase (team opts))))
             games)).
Proof.
  split; [apply selectGames_eq|]. split.
  - intros sel. rewrite selectGames_eq. destruct offset as [n|].
    + destruct (targetDateAt (clock w) n) as [t|]; [|discriminate].
      cbn [fst]. intros H. apply Array_filter_sublist in H as [Hs Hf].
      split; [exact Hs|]. intros _.
      eapply Forall_impl; [exact Hf|]. intros g Hg. cbv beta in Hg.
      unfold keeps in Hg. destruct (dateFilter t g) eqn:E; [|discriminate].
      now apply dateFilter_has_time in E.
    + cbn [fst]. intros H. apply Array_filter_sublist in H as [Hs _].
      split; [exact Hs|]. congruence.
  - intros Hn target. apply Array_filter_Ok. intros g Hg.
    rewrite Forall_forall in Hn.
    unfold keeps. rewrite (teamFilter_named _ g) by (apply Hn; now apply list_elem_of_In).
    destruct (match target with Some t => dateFilter t g | None => true end);
      [|reflexivity].
    destruct (JS.truthy_string (team opts)); [|reflexivity].
    cbn [negb orb andb]. reflexivity.
Qed.

(** X13. The team filter is a substring match on the lower-cased names:
    when both names of a Game are strings, the Game passes exactly when the
    search text occurs somewhere in its lower-cased home name or in its
    lower-cased away name. A home name that is not a string makes the
    filter throw a TypeError, and so does such an away name unless the home
    name already matches. *)
Theorem teamFilter_is_substring_match (search : string) (g : Game) :
  (forall h a,
     home g = Text h -> away g = Text a ->
     exists keep,
       teamFilter search g = Ok keep /\
       (keep = true <->
        (exists x y, toLowerCase h = x +:+ search +:+ y) \/
        (exists x y, toLowerCase a = x +:+ search +:+ y))) /\
  (forall key,
     home g = Member key ->
     teamFilter search g = Throw "g.home.toLowerCase is not a function") /\
  (forall h key,
     home g = Text h -> away g = Member key ->
     teamFilter search g =
       if JS.includes (toLowerCase h) search then Ok true
       else Throw "g.away.toLowerCase is not a function").
Proof.
  split; [|split].
  - intros h a Hh Ha. unfold teamFilter. rewrite Hh, Ha.
    exists (JS.includes (toLowerCase h) search || JS.includes (toLowerCase a) search).
    split; [now destruct (JS.includes (toLowerCase h) search)|].
    now rewrite orb_true_iff, !includes_iff.
  - intros key Hh. unfold teamFilter. now rewrite Hh.
  - intros h key Hh Ha. unfold teamFilter. now rewrite Hh, Ha.
Qed.

(** ** A whole run *)

(** The state after the header [label] and the rows of [sorted] are
    printed. *)
Definition printed (label : string) (sorted : list Game) (w : World) : World :=
  mkWorld (cache_dir w) (clock w) (requests w)
          (stdout w ++ (label +:+ ":" +:+ newline) :: map gameRow sorted) (stderr w).

Lemma display_eq offset opts combined w :
  display offset opts combined w =
    match offset with
    | None => (Ok tt, printed (plainLabel opts) (Array_sort compareGames combined) w)
    | Some n =>
        match targetDateAt (clock w) n with
        | Some t => (Ok tt, printed ("Games for " +:+ t)
                              (Array_sort compareGames combined) w)
        | None => (Throw "Invalid time value", w)
        end
    end.
Proof.
  destruct offset as [n|]; [|apply display_no_offset].
  unfold display. unfold bind at 1 2. rewrite computeTargetDate_at.
  destruct (targetDateAt (clock w) n) as [t|]; [|reflexivity].
  unfold ret, bind, console_log at 1, modify.
  rewrite forEach_console_log_world. unfold printed. simpl.
  now rewrite <- List.app_assoc.
Qed.

(** What [main] does once the Games are loaded. *)
Lemma main_after_load opts offset games w w1 :
  clear_cache opts = false ->
  resolveOffset opts = Some offset ->
  loadGames w = (Ok games, w1) ->
  main opts w =
    (0, match selectGames offset opts games w1 with
        | (Throw m, _) => add_stderr ("Error: " +:+ m) w1
        | (Ok [], _) => add_stdout (noGamesMessage offset opts) w1
        | (Ok sel, _) =>
            match offset with
            | None => printed (plainLabel opts) (Array_sort compareGames sel) w1
            | Some n =>
                match targetDateAt (clock w1) n with
                | Some t => printed ("Games for " +:+ t) (Array_sort compareGames sel) w1
                | None => add_stderr "Error: Invalid time value" w1
                end
            end
        end).
Proof.
  intros Hc Ho Hl. unfold main. rewrite Hc, Ho. f_equal.
  unfold try_catch, tryBlock. unfold bind at 1. rewrite Hl. unfold bind.
  rewrite selectGames_eq.
  destruct offset as [n|].
  - destruct (targetDateAt (clock w1) n) as [t|] eqn:Et; [|reflexivity].
    destruct (Array_filter (keeps (Some t) opts) games) as [[|g sel]|m];
      [reflexivity| |reflexivity].
    rewrite display_eq, Et. reflexivity.
  - destruct (Array_filter (keeps None opts) games) as [[|g sel]|m];
      [reflexivity| |reflexivity].
    rewrite display_eq. reflexivity.
Qed.

Lemma selectGames_world offset opts games w r w' :
  selectGames offset opts games w = (r, w') -> w' = w.
Proof.
  rewrite selectGames_eq. destruct offset as [n|].
  - destruct (targetDateAt (clock w) n); now intros [= _ <-].
  - now intros [= _ <-].
Qed.

(** Where a resolved offset comes from. *)
Lemma resolveOffset_Some opts n :
  resolveOffset opts = Some (Some n) ->
  (days opts = "" /\ team opts = "" /\ n = 0) \/
  (days opts <> "" /\ JS.parseInt (days opts) = Some n).
Proof.
  unfold resolveOffset. destruct opts as [d t c]; cbn [days team].
  destruct d as [|a d].
  - destruct t; cbn; [|discriminate]. intros [= <-]. now left.
  - cbn -[JS.parseInt]. destruct (JS.parseInt (String a d)) as [k|] eqn:E; [|discriminate].
    intros [= <-]. right. split; [discriminate|reflexivity].
Qed.

(** C9. When the arguments are accepted, both fetches succeed and the
    filters leave no Game, the run prints exactly one line to the output
    stream: "No games found", then the team text in quotes when a team was
    given, then the day offset when a date filter was active (the offset of
    [--days], or 0 by default), then a full stop. At least one of the two
    is named. The run prints neither header nor rows, writes nothing to
    the error stream, and exits with status 0. *)
Theorem empty_selection_prints_one_line
    (opts : Opts) (offset : option Z) (games : list Game) (w w1 w2 : World) :
  clear_cache opts = false ->
  resolveOffset opts = Some offset ->
  loadGames w = (Ok games, w1) ->
  selectGames offset opts games w1 = (Ok [], w2) ->
  let teamPart :=
    if String.eqb (team opts) "" then ""
    else " for team matching " +:+ dquote +:+ team opts +:+ dquote in
  let dayPart :=
    match offset with
    | Some n => " on day offset " +:+ JS.string_of_Z n
    | None => ""
    end in
  let line := "No games found" +:+ teamPart +:+ dayPart +:+ "." in
  main opts w = (0, add_stdout line w2) /\
  stdout (snd (main opts w)) = (stdout w ++ [line])%list /\
  stderr (snd (main opts w)) = stderr w /\
  (teamPart <> "" \/ dayPart <> "") /\
  (forall n, offset = Some n ->
     (days opts = "" /\ team opts = "" /\ n = 0) \/
     (days opts <> "" /\ JS.parseInt (days opts) = Some n)).
Proof.
  intros Hc Ho Hl Hs teamPart dayPart line.
  assert (Hline : noGamesMessage offset opts = line).
  { unfold noGamesMessage, line, teamPart, dayPart.
    now destruct (team opts). }
  assert (Hm : main opts w = (0, add_stdout line w2)).
  { rewrite (main_after_load opts offset games w w1 Hc Ho Hl), Hs, Hline.
    now rewrite (selectGames_world _ _ _ _ _ _ Hs). }
  pose proof (quiet_loadGames w) as Hq1. rewrite Hl in Hq1.
  pose proof (quiet_selectGames offset opts games w1) as Hq2. rewrite Hs in Hq2.
  simpl in Hq1, Hq2. destruct Hq1 as [H1 H2], Hq2 as [H3 H4].
  rewrite Hm. cbn [fst snd add_stdout stdout stderr].
  split; [reflexivity|]. split; [congruence|]. split; [congruence|]. split.
  - destruct offset as [n|].
    + right. unfold dayPart. discriminate.
    + left. apply resolveOffset_no_filter in Ho as [_ Ht]. unfold teamPart.
      destruct (team opts); [congruence|discriminate].
  - intros n ->. now apply resolveOffset_Some.
Qed.

Lemma digits_prefix_Some a s : JS.digits_prefix (Some a) s <> None.
Proof.
  revert a. induction s as [|c s IH]; intros a; simpl; [discriminate|].
  destruct (JS.is_digit c); [apply IH|discriminate].
Qed.

Lemma digits_prefix_None s :
  JS.digits_prefix None s = None <-> starts_with_digit s = false.
Proof.
  destruct s as [|c s]; simpl; [split; trivial|].
  destruct (JS.is_digit c).
  - split; [intros H; now apply digits_prefix_Some in H|discriminate].
  - split; trivial.
Qed.

(** The text of a number after its optional sign. *)
Definition unsigned (s : string) : string :=
  match s with
  | String "-" s' => s'
  | String "+" s' => s'
  | _ => s
  end.

(** [parseInt] yields [NaN] exactly when no digit follows the leading
    white space and the optional sign. *)
Lemma parseInt_NaN s :
  JS.parseInt s = None <-> starts_with_digit (unsigned (JS.skip_spaces s)) = false.
Proof.
  unfold JS.parseInt, unsigned.
  destruct (JS.skip_spaces s) as [|c r]; [split; trivial|].
  destruct (ascii_dec c "-") as [->|Hm].
  - rewrite <- digits_prefix_None.
    destruct (JS.digits_prefix None r); split; intros H; try discriminate H; reflexivity.
  - destruct (ascii_dec c "+") as [->|Hp]; [apply digits_prefix_None|].
    destruct c as [[] [] [] [] [] [] [] []]; try congruence; apply digits_prefix_None.
Qed.

Lemma resolveOffset_None opts :
  resolveOffset opts = None <-> days opts <> "" /\ JS.parseInt (days opts) = None.
Proof.
  unfold resolveOffset. destruct opts as [d t c]. cbn [days team].
  destruct d as [|a d].
  - destruct t; cbn -[JS.parseInt]; (split; [discriminate|intros [H _]; congruence]).
  - cbn -[JS.parseInt].
    destruct (JS.parseInt (String a d)); split; try discriminate.
    + intros [_ H]. discriminate H.
    + intros _. split; [discriminate|reflexivity].
    + intros _. reflexivity.
Qed.

Lemma resolveOffset_decimal (n : Z) (r t : string) (c : bool) :
  starts_with_digit r = false ->
  resolveOffset (mkOpts (JS.string_of_Z n +:+ r) t c) = Some (Some n).
Proof.
  intros Hr. pose proof (parseInt_string_of_Z_app n r Hr) as Hp.
  pose proof (parseInt_string_of_Z n) as (_ & _ & Ht).
  unfold resolveOffset. cbn [days team]. rewrite Hp.
  destruct (JS.string_of_Z n) as [|a s]; [discriminate Ht|].
  rewrite append_cons. reflexivity.
Qed.

(** C5 (amended). Without [--clear-cache], a [--days] value that is not
    empty and in which the leading white space and the optional sign are
    not followed by a digit (so that [parseInt] yields [NaN]) ends the run
    at once: one usage line on the error stream, exit status 1, and no
    request, no cache access and no output. A value that begins with an
    integer is accepted as that integer, whatever follows its digits: the
    offset is the integer and the run does not end in the usage error. *)
Theorem unparseable_days_is_usage_error :
  (forall s, JS.parseInt s = None <->
             starts_with_digit (unsigned (JS.skip_spaces s)) = false) /\
  (forall (opts : Opts) (w : World),
     clear_cache opts = false ->
     days opts <> "" ->
     JS.parseInt (days opts) = None ->
     main opts w =
       (1, add_stderr "Invalid value for --days. Use numbers like 0, +1, -1." w) /\
     requests (snd (main opts w)) = requests w /\
     cache_dir (snd (main opts w)) = cache_dir w /\
     stdout (snd (main opts w)) = stdout w) /\
  (forall (n : Z) (r t : string) (w : World),
     Z.abs n <= 2 ^ 53 ->
     starts_with_digit r = false ->
     resolveOffset (mkOpts (JS.string_of_Z n +:+ r) t false) = Some (Some n) /\
     fst (main (mkOpts (JS.string_of_Z n +:+ r) t false) w) = 0).
Proof.
  split; [exact parseInt_NaN|]. split.
  - intros opts w Hc Hd Hp.
    assert (Hr : resolveOffset opts = None) by now apply resolveOffset_None.
    unfold main. rewrite Hc, Hr. repeat split.
  - intros n r t w _ Hr. pose proof (resolveOffset_decimal n r t false Hr) as Ho.
    split; [exact Ho|]. unfold main. cbn [clear_cache]. now rewrite Ho.
Qed.

(** C6. With neither [--days] nor [--team] the run is the run of
    [--days 0], and the date filter of today is applied: once the Games are
    loaded, what is printed is made from the Games whose [dateTime] or
    [day] starts with the date that [computeTargetDate(0)] gives, under the
    header of that date, or the "No games found on day offset 0." line when
    there is none. With [--team] alone there is no offset and no date is
    computed: what is printed is made from all the loaded Games, of any
    week, whose lower-cased home or away name contains the lower-cased
    team text, under the "All games for teams matching" header. *)
Theorem default_is_days_0 :
  (forall c w, main (mkOpts "" "" c) w = main (mkOpts "0" "" c) w) /\
  (forall w games w1 t,
     loadGames w = (Ok games, w1) ->
     computeTargetDate 0 w1 = (Ok t, w1) ->
     let today := List.filter (onDate t) games in
     resolveOffset (mkOpts "" "" false) = Some (Some 0) /\
     stdout (snd (main (mkOpts "" "" false) w)) =
       (stdout w ++
        match today with
        | [] => ["No games found on day offset 0."]
        | _ :: _ =>
            ("Games for " +:+ t +:+ ":" +:+ newline)
            :: map gameRow (Array_sort compareGames today)
        end)%list) /\
  (forall opts w games w1,
     clear_cache opts = false ->
     days opts = "" -> team opts <> "" ->
     loadGames w = (Ok games, w1) ->
     Forall named games ->
     let search := toLowerCase (team opts) in
     let matching :=
       List.filter
         (fun g => JS.includes (toLowerCase (name_text (home g))) search
                   || JS.includes (toLowerCase (name_text (away g))) search)
         games in
     resolveOffset opts = Some None /\
     stdout (snd (main opts w)) =
       (stdout w ++
        match matching with
        | [] => ["No games found for team matching " +:+ dquote +:+ team opts
                 +:+ dquote +:+ "."]
        | _ :: _ =>
            ("All games for teams matching " +:+ dquote +:+ team opts +:+ dquote
             +:+ ":" +:+ newline)
            :: map gameRow (Array_sort compareGames matching)
        end)%list).
Proof.
  split; [|split].
  - intros c w. unfold main. cbn [clear_cache]. destruct c; [reflexivity|].
    replace (resolveOffset (mkOpts "0" "" false)) with (Some (Some 0))
      by (vm_compute; reflexivity).
    replace (resolveOffset (mkOpts "" "" false)) with (Some (Some 0))
      by (vm_compute; reflexivity).
    unfold tryBlock, selectGames, display, noGamesMessage. cbn [team]. reflexivity.
  - intros w games w1 t Hl Ht today.
    assert (Ho : resolveOffset (mkOpts "" "" false) = Some (Some 0)) by reflexivity.
    split; [exact Ho|].
    rewrite computeTargetDate_at in Ht.
    destruct (targetDateAt (clock w1) 0) as [t'|] eqn:Et; [|discriminate].
    injection Ht as ->.
    pose proof (quiet_loadGames w) as Hq. rewrite Hl in Hq. destruct Hq as [Hq _].
    cbn [snd] in Hq.
    rewrite (main_after_load (mkOpts "" "" false) (Some 0) games w w1 eq_refl Ho Hl).
    rewrite selectGames_eq, Et. cbn [snd].
    assert (Hsel : Array_filter (keeps (Some t) (mkOpts "" "" false)) games = Ok today).
    { unfold today. rewrite (Array_filter_Ok _ (onDate t)); [reflexivity|].
      intros g _. unfold keeps. cbn [team JS.truthy_string].
      rewrite (dateFilter_onDate t g (targetDateAt_not_empty _ _ _ Et)).
      now destruct (onDate t g). }
    rewrite Hsel. destruct today as [|g today].
    + cbn [add_stdout stdout]. now rewrite Hq.
    + unfold printed. cbn [stdout]. rewrite Hq.
      now rewrite !append_assoc.
  - intros opts w games w1 Hc Hd Ht Hl Hn search matching.
    assert (Ho : resolveOffset opts = Some None).
    { unfold resolveOffset. rewrite Hd. cbn [JS.truthy_string negb andb String.eqb].
      destruct (team opts); [congruence|reflexivity]. }
    split; [exact Ho|].
    pose proof (quiet_loadGames w) as Hq. rewrite Hl in Hq. destruct Hq as [Hq _].
    cbn [snd] in Hq.
    rewrite (main_after_load opts None games w w1 Hc Ho Hl).
    rewrite selectGames_eq. cbn [snd].
    assert (Htr : JS.truthy_string (team opts) = true)
      by (destruct (team opts); [congruence|reflexivity]).
    assert (Hsel : Array_filter (keeps None opts) games = Ok matching).
    { unfold matching. apply Array_filter_Ok. intros g Hg.
      rewrite Forall_forall in Hn. unfold keeps. rewrite Htr.
      apply teamFilter_named. apply Hn. now apply list_elem_of_In. }
    rewrite Hsel. destruct matching as [|g matching].
    + cbn [add_stdout stdout]. rewrite Hq. unfold noGamesMessage. rewrite Htr.
      now rewrite !append_assoc.
    + unfold printed, plainLabel. cbn [stdout]. rewrite Hq, Htr.
      now rewrite !append_assoc.
Qed.

(** ** Further properties of the cache helpers *)

Lemma refetch_frame url name other w :
  other <> name ->
  cache_entry other (snd (refetch url name w)) = cache_entry other w.
Proof.
  intros Hne.
  cbv beta iota delta [refetch bind fetch await fetch_async sleep modify parse_json
    writeFileSync ret throw].
  destruct (network url (clock w)) as [[m|status body] elapsed]; cbv beta iota;
    [reflexivity|].
  destruct (status_ok status); [|reflexivity].
  destruct (JSON_parse body); [|reflexivity]. cbv beta iota.
  destruct w as [[d|] c r o e]; simpl; [|reflexivity].
  unfold cache_entry. simpl. now apply lookup_insert_ne.
Qed.

Lemma refetch_dir url name w :
  is_Some (cache_dir w) -> is_Some (cache_dir (snd (refetch url name w))).
Proof.
  intros [d Hd].
  cbv beta iota delta [refetch bind fetch await fetch_async sleep modify parse_json
    writeFileSync ret throw].
  destruct (network url (clock w)) as [[m|status body] elapsed]; cbv beta iota;
    [simpl; eauto|].
  destruct (status_ok status); [|simpl; eauto].
  destruct (JSON_parse body); [|simpl; eauto]. cbv beta iota. simpl.
  rewrite Hd. simpl. eauto.
Qed.

(** The whole effect of a call, by freshness. *)
Lemma fetchWithCache_by_freshness url name w :
  fetchWithCache url name w =
    if isFresh name w
    then (match cache_entry name w with
          | Some f => match JSON_parse (content f) with
                      | inl data => Ok data
                      | inr m => Throw m
                      end
          | None => Throw ""
          end, w)
    else refetch url name (ensured w).
Proof.
  destruct (isFresh name w) eqn:Hf.
  - apply isFresh_true in Hf as (f & He & Hlt).
    rewrite (fetchWithCache_fresh url name w f He Hlt), He. reflexivity.
  - now apply fetchWithCache_stale.
Qed.

(** X1. [ensureCacheDir] touches nothing but the cache directory itself:
    every cache entry, the clock, the request log and the console streams
    are as before. On a state that already has the directory it returns
    without doing anything, so a call that follows one that created the
    directory changes nothing. *)
Theorem ensureCacheDir_idempotent (w : World) :
  let w1 := snd (ensureCacheDir w) in
  (forall name, cache_entry name w1 = cache_entry name w) /\
  (clock w1, requests w1, stdout w1, stderr w1)
    = (clock w, requests w, stdout w, stderr w) /\
  (is_Some (cache_dir w) -> ensureCacheDir w = (Ok tt, w)) /\
  snd (ensureCacheDir w1) = w1.
Proof.
  destruct w as [[d|] c r o e]; simpl; repeat split; eauto.
  intros [? H]. discriminate H.
Qed.

(** X2. [clearCache] removes the directory with every entry in it and
    reports which of the two cases it met; it issues no request. The next
    [fetchWithCache], for any resource, goes to the network; a second
    [clearCache] finds nothing to clear. *)
Theorem clearCache_empties (w : World) :
  let w1 := snd (clearCache w) in
  fst (clearCache w) = Ok tt /\
  cache_dir w1 = None /\
  (forall name, cache_entry name w1 = None) /\
  requests w1 = requests w /\
  stderr w1 = stderr w /\
  stdout w1 =
    (stdout w ++ [if bool_decide (is_Some (cache_dir w))
                  then "Cache cleared: " +:+ CACHE_DIR
                  else "No cache to clear."])%list /\
  (forall url name,
     requests (snd (fetchWithCache url name w1)) = (requests w ++ [url])%list) /\
  clearCache w1 = (Ok tt, add_stdout "No cache to clear." w1).
Proof.
  assert (H : snd (clearCache w) =
              mkWorld None (clock w) (requests w)
                (stdout w ++ [if bool_decide (is_Some (cache_dir w))
                              then "Cache cleared: " +:+ CACHE_DIR
                              else "No cache to clear."]) (stderr w)
              /\ fst (clearCache w) = Ok tt).
  { destruct w as [[d|] c r o e]; split; reflexivity. }
  destruct H as [H H0]. cbv zeta. rewrite H, H0.
  split; [reflexivity|]. split; [reflexivity|]. split; [reflexivity|].
  split; [reflexivity|]. split; [reflexivity|]. split; [reflexivity|].
  split; [|reflexivity].
  intros url name. rewrite fetchWithCache_stale by reflexivity.
  now rewrite refetch_requests, requests_ensured.
Qed.

(** X3. A call for one cache file never touches the entry of another, and
    always leaves the cache directory in place, whatever its outcome. *)
Theorem fetchWithCache_frame (url name other : string) (w : World) :
  other <> name ->
  cache_entry other (snd (fetchWithCache url name w)) = cache_entry other w /\
  is_Some (cache_dir (snd (fetchWithCache url name w))).
Proof.
  intros Hne. rewrite fetchWithCache_by_freshness.
  destruct (isFresh name w) eqn:Hf.
  - simpl. split; [reflexivity|].
    apply isFresh_true in Hf as (f & He & _).
    unfold cache_entry in He. destruct (cache_dir w); [eauto|discriminate].
  - split.
    + rewrite refetch_frame by exact Hne. apply cache_entry_ensured.
    + apply refetch_dir. rewrite cache_dir_ensured. eauto.
Qed.

(** X4. A call adds nothing to the request log when the entry is fresh and
    exactly its own URL when it is not; in the first case the state is
    left as it was. It never writes to the console. *)
Theorem fetchWithCache_effects (url name : string) (w : World) :
  let w1 := snd (fetchWithCache url name w) in
  requests w1 = (requests w ++ if isFresh name w then [] else [url])%list /\
  (isFresh name w = true -> w1 = w) /\
  stdout w1 = stdout w /\
  stderr w1 = stderr w.
Proof.
  cbv zeta. destruct (quiet_fetchWithCache url name w) as [Ho He].
  rewrite Ho, He. rewrite fetchWithCache_by_freshness.
  destruct (isFresh name w) eqn:Hf; simpl.
  - rewrite app_nil_r. repeat split.
  - rewrite refetch_requests, requests_ensured. repeat split. discriminate.
Qed.

(** X5. A fresh entry whose bytes do not parse is fatal and is not
    repaired: for as long as it is fresh, every call throws the parser's
    message, issues no request and leaves the entry as it is. *)
Theorem corrupt_fresh_entry_is_fatal
    (url name : string) (w : World) (f : File) (m : string) :
  cache_entry name w = Some f ->
  JSON_parse (content f) = inr m ->
  forall now,
    now - mtimeMs f < CACHE_TTL ->
    fetchWithCache url name (set_clock now w) = (Throw m, set_clock now w).
Proof.
  intros He Hp now Hlt.
  rewrite (fetchWithCache_fresh url name (set_clock now w) f He Hlt).
  now rewrite Hp.
Qed.

(** ** The team directory and the normaliser *)

Lemma teamMap_snoc teams t :
  teamMap (teams ++ [t]) = <[toUpperCase (Key t) := FullName t]> (teamMap teams).
Proof. unfold teamMap. now rewrite fold_left_app. Qed.

Lemma teamMap_lookup_iff (teams : list NFLTeam) (code v : string) :
  teamMap teams !! code = Some v <->
  exists before t after,
    teams = (before ++ t :: after)%list /\
    toUpperCase (Key t) = code /\ FullName t = v /\
    Forall (fun t' => toUpperCase (Key t') <> code) after.
Proof.
  revert v. induction teams as [|t teams IH] using rev_ind; intros v.
  - split; [intros H; unfold teamMap in H; simpl in H; now rewrite lookup_empty in H|].
    intros (before & t & after & H & _). now destruct before.
  - rewrite teamMap_snoc.
    destruct (decide (toUpperCase (Key t) = code)) as [Heq|Hne].
    + rewrite <- Heq, lookup_insert_eq. split.
      * intros [= <-]. exists teams, t, []. repeat split. constructor.
      * intros (before & t' & after & H & Hk & Hv & Hafter).
        destruct after as [|a after _] using rev_ind.
        -- apply app_inj_tail in H as [_ <-]. now rewrite Hv.
        -- rewrite app_comm_cons, app_assoc in H. apply app_inj_tail in H as [_ <-].
           apply Forall_app in Hafter as [_ Ha]. apply Forall_cons_1 in Ha as [Ha _].
           contradiction.
    + rewrite lookup_insert_ne by exact Hne. rewrite IH. split.
      * intros (before & t' & after & -> & Hk & Hv & Hafter).
        exists before, t', (after ++ [t])%list. repeat split; try assumption.
        -- now rewrite <- app_assoc.
        -- apply Forall_app. split; [exact Hafter|]. now constructor.
      * intros (before & t' & after & H & Hk & Hv & Hafter).
        destruct after as [|a after _] using rev_ind.
        -- apply app_inj_tail in H as [_ <-]. contradiction.
        -- rewrite app_comm_cons, app_assoc in H. apply app_inj_tail in H as [-> <-].
           apply Forall_app in Hafter as [Hafter _].
           exists before, t', after. repeat split; assumption.
Qed.

(** X6. The directory lookup holds, under each upper-cased key, the full
    name of the last team of the payload with that key (later records
    overwrite earlier ones), and nothing else: a code is bound to [v]
    exactly when some team has that upper-cased key and full name [v] and
    no later team has the key. *)
Theorem teamMap_last_wins (teams : list NFLTeam) (code v : string) :
  teamMap teams !! code = Some v <->
  exists before t after,
    teams = (before ++ t :: after)%list /\
    toUpperCase (Key t) = code /\ FullName t = v /\
    Forall (fun t' => toUpperCase (Key t') <> code) after.
Proof. apply teamMap_lookup_iff. Qed.

(** The keys of the lookup are upper-cased texts: they have no lower-case
    ASCII letter. *)
Lemma teamMap_keys_upper teams code v :
  (forall s, has_lower (toUpperCase s) = false) ->
  teamMap teams !! code = Some v -> has_lower code = false.
Proof.
  intros Hup. induction teams as [|t teams IH] using rev_ind.
  - unfold teamMap. simpl. now rewrite lookup_empty.
  - rewrite teamMap_snoc.
    destruct (decide (toUpperCase (Key t) = code)) as [<-|Hne].
    + intros _. apply Hup.
    + now rewrite lookup_insert_ne by exact Hne.
Qed.

(** What the team-name expression yields for a code that is not an own key
    of the lookup. *)
Lemma or_code_miss (m : gmap string string) (code : string) :
  m !! code = None ->
  or_code (getProperty m code) code = if inherited code then Member code else Text code.
Proof. intros H. unfold getProperty. rewrite H. now destruct (inherited code). Qed.

(** X7. Only the directory's keys are upper-cased, not the code looked up.
    Upper-casing leaves no lower-case ASCII letter, so no key of the lookup
    has one, and a schedule record whose short code has one is never
    resolved through the directory, even when the directory lists the
    team: the Game's team name is the code itself, unless the code is the
    name of a member that every object inherits (such as "constructor"),
    in which case the name is that member and not a string. A code with no
    entry in the lookup that is not such a name passes through as it is. A
    record with the upper-cased code of a team whose name is not empty is
    resolved to the name of the last such team. *)
Theorem lookup_is_case_sensitive (teams : list NFLTeam) (g : RawGame) :
  (forall s, has_lower (toUpperCase s) = false) ->
  (forall code v, teamMap teams !! code = Some v -> has_lower code = false) /\
  (has_lower (HomeTeam g) = true ->
   home (toGame NFL (Some (teamMap teams)) g) =
     if inherited (HomeTeam g) then Member (HomeTeam g) else Text (HomeTeam g)) /\
  (has_lower (AwayTeam g) = true ->
   away (toGame NFL (Some (teamMap teams)) g) =
     if inherited (AwayTeam g) then Member (AwayTeam g) else Text (AwayTeam g)) /\
  (forall m : gmap string string,
     m !! HomeTeam g = None -> inherited (HomeTeam g) = false ->
     home (toGame NFL (Some m) g) = Text (HomeTeam g)) /\
  (forall before t after,
     teams = (before ++ t :: after)%list ->
     toUpperCase (Key t) = HomeTeam g ->
     Forall (fun t' => toUpperCase (Key t') <> HomeTeam g) after ->
     FullName t <> "" ->
     home (toGame NFL (Some (teamMap teams)) g) = Text (FullName t)).
Proof.
  intros Hup.
  split; [intros code v; now apply teamMap_keys_upper|].
  assert (Hmiss : forall code, has_lower code = true -> teamMap teams !! code = None).
  { intros code Hl. destruct (teamMap teams !! code) as [v|] eqn:E; [|reflexivity].
    apply (teamMap_keys_upper _ _ _ Hup) in E. congruence. }
  split; [|split; [|split]].
  - intros Hl. cbn [toGame home mbind option_bind]. now apply or_code_miss, Hmiss.
  - intros Hl. cbn [toGame away mbind option_bind]. now apply or_code_miss, Hmiss.
  - intros m Hm Hi. cbn [toGame home mbind option_bind].
    now rewrite (or_code_miss m _ Hm), Hi.
  - intros before t after Ht Hk Hafter Hname. cbn [toGame home mbind option_bind].
    assert (Hl : teamMap teams !! HomeTeam g = Some (FullName t)).
    { apply teamMap_lookup_iff. exists before, t, after. repeat split; assumption. }
    unfold getProperty. rewrite Hl. cbn [or_code].
    destruct (FullName t); [congruence|reflexivity].
Qed.

(** The optional fields of a Game are absent or non-empty. *)
Definition normalised (g : Game) : Prop :=
  dateTime g <> Some "" /\ day g <> Some "" /\ channel g <> Some "".

Lemma or_null_not_empty o : JS.or_null o <> Some "".
Proof. destruct o as [[|c s]|]; discriminate. Qed.

Lemma toGame_normalised lg tm g : normalised (toGame lg tm g).
Proof. repeat split; apply or_null_not_empty. Qed.

(** ** The two schedule fetches, started together *)

(** What the response to a request comes to (lines 69 and 70). *)
Definition response_outcome (url : string) (res : HttpResult) : Result Payload :=
  match res with
  | NetworkFailure m => Throw m
  | HttpResponse status body =>
      if status_ok status
      then match JSON_parse body with inl data => Ok data | inr m => Throw m end
      else Throw ("HTTP " +:+ JS.string_of_Z status +:+ " for " +:+ url)
  end.

(** The continuation of a [fetchWithCache] call that went to the network
    (lines 69 to 72). *)
Definition onResponse (url cacheFile : string) (res : HttpResult) : M Payload :=
  match res with
  | NetworkFailure message => throw message
  | HttpResponse status body =>
      if status_ok status
      then do data <- parse_json body;
           run writeFileSync cacheFile (JSON_stringify data);
           ret data
      else throw ("HTTP " +:+ JS.string_of_Z status +:+ " for " +:+ url)
  end.

(** The state after [text] was written under [name]. *)
Definition store (name text : string) (v : World) : World :=
  set_cache_dir (Some (<[name := mkFile text (clock v)]> (default ∅ (cache_dir v)))) v.

Lemma onResponse_eq url name res v :
  is_Some (cache_dir v) ->
  onResponse url name res v =
    (response_outcome url res,
     match response_outcome url res with
     | Ok data => store name (JSON_stringify data) v
     | Throw _ => v
     end).
Proof.
  intros [d Hd]. unfold onResponse, response_outcome, store.
  destruct res as [m|status body]; [reflexivity|].
  destruct (status_ok status); [|reflexivity].
  unfold bind, parse_json. destruct (JSON_parse body) as [data|m]; [|reflexivity].
  unfold ret, writeFileSync. rewrite Hd. reflexivity.
Qed.

(** What a fresh entry parses to. *)
Definition cached (name : string) (w : World) : Result Payload :=
  match cache_entry name w with
  | Some f => match JSON_parse (content f) with inl data => Ok data | inr m => Throw m end
  | None => Throw ""
  end.

(** A call of [fetchWithCache] made in state [w]: what it comes to, how
    long it waits, the state it leaves at once, and what it does to the
    state [v] in which its response arrives. *)
Definition outcome (url name : string) (w : World) : Result Payload :=
  if isFresh name w then cached name w
  else response_outcome url (fst (network url (clock w))).

Definition delay (url name : string) (w : World) : Z :=
  if isFresh name w then 0 else snd (network url (clock w)).

Definition begun (url name : string) (w : World) : World :=
  if isFresh name w then w else add_request url (ensured w).

Definition landed (url name : string) (w v : World) : World :=
  if isFresh name w then v
  else match response_outcome url (fst (network url (clock w))) with
       | Ok data => store name (JSON_stringify data) v
       | Throw _ => v
       end.

Lemma fetchWithCache_async_eq url name w :
  fetchWithCache_async url name w =
    if isFresh name w
    then (match cached name w with
          | Ok data => Ok (Settled data)
          | Throw m => Throw m
          end, w)
    else (Ok (Waiting (snd (network url (clock w)))
                (bind (ret (fst (network url (clock w)))) (onResponse url name))),
          add_request url (ensured w)).
Proof.
  destruct (isFresh name w) eqn:Hf.
  - apply isFresh_true in Hf as (f & He & Hlt). apply Z.ltb_lt in Hlt.
    unfold cached. rewrite He.
    cbv beta iota delta
      [fetchWithCache_async bind ensureCacheDir modify existsSync statSync
       readFileSync gets Date_now parse_json ret throw fst snd].
    fold (ensured w). rewrite (ensured_id name w f He), He.
    rewrite bool_decide_true by eauto.
    repeat (cbv beta iota; rewrite ?He, ?Hlt).
    destruct (JSON_parse (content f)); reflexivity.
  - unfold isFresh in Hf.
    cbv beta iota delta
      [fetchWithCache_async andThen fetch_async bind ensureCacheDir modify existsSync
       statSync readFileSync gets Date_now parse_json ret throw fst snd].
    fold (ensured w). rewrite cache_entry_ensured.
    destruct (cache_entry name w) as [f|] eqn:He.
    + rewrite bool_decide_true by eauto.
      repeat (cbv beta iota; rewrite ?cache_entry_ensured, ?He, ?clock_ensured, ?Hf).
      destruct (network url (clock w)) as [r elapsed]; reflexivity.
    + rewrite bool_decide_false by (intros [? ?]; discriminate). cbv beta iota.
      rewrite clock_ensured.
      destruct (network url (clock w)) as [r elapsed]; reflexivity.
Qed.

Lemma dir_ensured w : is_Some (cache_dir (ensured w)).
Proof. rewrite cache_dir_ensured. eauto. Qed.

Lemma isFresh_dir name w : isFresh name w = true -> is_Some (cache_dir w).
Proof.
  intros H. apply isFresh_true in H as (f & He & _).
  unfold cache_entry in He. destruct (cache_dir w); [eauto|discriminate].
Qed.

Lemma dir_begun url name w : is_Some (cache_dir (begun url name w)).
Proof.
  unfold begun. destruct (isFresh name w) eqn:Hf; [now apply isFresh_dir in Hf|].
  apply dir_ensured.
Qed.

Lemma dir_store name text v : is_Some (cache_dir (store name text v)).
Proof. unfold store. simpl. eauto. Qed.

Lemma dir_landed url name w v : is_Some (cache_dir v) -> is_Some (cache_dir (landed url name w v)).
Proof.
  intros H. unfold landed. destruct (isFresh name w); [exact H|].
  destruct (response_outcome _ _); [apply dir_store|exact H].
Qed.

Lemma cache_entry_begun url name other w :
  cache_entry other (begun url name w) = cache_entry other w.
Proof.
  unfold begun. destruct (isFresh name w); [reflexivity|].
  exact (cache_entry_ensured other w).
Qed.

Lemma clock_begun url name w : clock (begun url name w) = clock w.
Proof. unfold begun. destruct (isFresh name w); [reflexivity|]. apply clock_ensured. Qed.

Lemma isFresh_begun url name other w :
  isFresh other (begun url name w) = isFresh other w.
Proof. unfold isFresh. now rewrite cache_entry_begun, clock_begun. Qed.

Lemma requests_begun url name w :
  requests (begun url name w)
  = (requests w ++ if isFresh name w then [] else [url])%list.
Proof.
  unfold begun. destruct (isFresh name w); [now rewrite app_nil_r|].
  cbn [add_request requests]. now rewrite requests_ensured.
Qed.

Lemma requests_landed url name w v : requests (landed url name w v) = requests v.
Proof.
  unfold landed. destruct (isFresh name w); [reflexivity|].
  now destruct (response_outcome _ _).
Qed.

(** The continuation of a call, in a state [v] that has the directory. *)
Lemma fetchWithCache_async_settles url name w v :
  is_Some (cache_dir v) ->
  snd (fetchWithCache_async url name w) = begun url name w /\
  fst (settles (fst (fetchWithCache_async url name w))) = delay url name w /\
  snd (settles (fst (fetchWithCache_async url name w))) v
  = (outcome url name w, landed url name w v).
Proof.
  intros Hv. rewrite fetchWithCache_async_eq. unfold begun, delay, outcome, landed.
  destruct (isFresh name w).
  - cbn [fst snd]. destruct (cached name w); repeat split.
  - cbn [fst snd settles]. split; [reflexivity|]. split; [reflexivity|].
    unfold bind at 1, ret. now apply onResponse_eq.
Qed.

(** An awaited call. *)
Lemma fetchWithCache_eq url name w :
  fetchWithCache url name w =
    (outcome url name w,
     landed url name w (set_clock (clock w + delay url name w) (begun url name w))).
Proof.
  unfold fetchWithCache, await. unfold bind at 1. rewrite fetchWithCache_async_eq.
  unfold outcome, landed, delay, begun. destruct (isFresh name w) eqn:Hf.
  - destruct (cached name w); unfold ret; do 2 f_equal;
      destruct w; unfold set_clock; cbn [clock cache_dir requests stdout stderr];
      f_equal; lia.
  - unfold bind, sleep, modify, ret. cbv beta iota.
    rewrite onResponse_eq by (cbn [set_clock cache_dir add_request]; apply dir_ensured).
    cbn [clock add_request]. now rewrite clock_ensured.
Qed.

(** What [fetchGames] makes of the document (lines 91 to 99). *)
Definition games_of (lg : League) (nflTeams : option (gmap string string))
    (data : Payload) : Result (list Game) :=
  match data with
  | PGames games => Ok (map (toGame lg nflTeams) games)
  | PNull => Throw "Cannot read properties of null (reading 'map')"
  | _ => Throw "data.map is not a function"
  end.

Lemma normalise_eq lg tm data v : normalise lg tm data v = (games_of lg tm data, v).
Proof. now destruct data. Qed.

(** What a call of [fetchGames] made in state [w] comes to. *)
Definition schedule (lg : League) (nflTeams : option (gmap string string))
    (url name : string) (w : World) : Result (list Game) :=
  match outcome url name w with
  | Ok data => games_of lg nflTeams data
  | Throw m => Throw m
  end.

Lemma fetchGames_async_eq url lg name tm w :
  fetchGames_async url lg name tm w =
    if isFresh name w
    then (match cached name w with
          | Ok data =>
              match games_of lg tm data with
              | Ok games => Ok (Settled games)
              | Throw m => Throw m
              end
          | Throw m => Throw m
          end, w)
    else (Ok (Waiting (snd (network url (clock w)))
                (bind (bind (ret (fst (network url (clock w)))) (onResponse url name))
                      (normalise lg tm))),
          add_request url (ensured w)).
Proof.
  unfold fetchGames_async, andThen. unfold bind at 1.
  rewrite fetchWithCache_async_eq. destruct (isFresh name w); [|reflexivity].
  destruct (cached name w) as [data|m]; [|reflexivity].
  unfold bind. rewrite normalise_eq. now destruct (games_of lg tm data).
Qed.

Lemma fetchGames_async_settles url lg name tm w v :
  is_Some (cache_dir v) ->
  snd (fetchGames_async url lg name tm w) = begun url name w /\
  fst (settles (fst (fetchGames_async url lg name tm w))) = delay url name w /\
  snd (settles (fst (fetchGames_async url lg name tm w))) v
  = (schedule lg tm url name w, landed url name w v).
Proof.
  intros Hv. rewrite fetchGames_async_eq.
  unfold begun, delay, schedule, outcome, landed.
  destruct (isFresh name w).
  - destruct (cached name w) as [data|m]; [|repeat split].
    destruct (games_of lg tm data); repeat split.
  - cbn [fst snd settles]. split; [reflexivity|]. split; [reflexivity|].
    unfold bind at 1. unfold bind at 1, ret. rewrite (onResponse_eq _ _ _ _ Hv).
    destruct (response_outcome url (fst (network url (clock w)))) as [data|m];
      [|reflexivity].
    apply normalise_eq.
Qed.

Lemma set_clock_same w : set_clock (clock w + 0) w = w.
Proof. destruct w. unfold set_clock. cbn. f_equal. lia. Qed.

(** An awaited [fetchGames]. *)
Lemma fetchGames_eq url lg name tm w :
  fetchGames url lg name tm w =
    (schedule lg tm url name w,
     landed url name w (set_clock (clock w + delay url name w) (begun url name w))).
Proof.
  unfold fetchGames, await. unfold bind at 1. rewrite fetchGames_async_eq.
  unfold schedule, outcome, landed, delay, begun. destruct (isFresh name w) eqn:Hf.
  - rewrite set_clock_same. destruct (cached name w) as [data|m]; [|reflexivity].
    now destruct (games_of lg tm data).
  - unfold bind at 1, sleep, modify. cbv beta iota.
    unfold bind at 1. unfold bind at 1, ret.
    rewrite onResponse_eq by (cbn [set_clock cache_dir add_request]; apply dir_ensured).
    cbn [clock add_request]. rewrite clock_ensured.
    destruct (response_outcome url (fst (network url (clock w)))) as [data|m];
      [|reflexivity].
    apply normalise_eq.
Qed.

(** The outcome of two calls awaited together: the pair of the results,
    or the exception of the call that rejects first. *)
Definition both {A B} (a_first : bool) (ra : Result A) (rb : Result B) : Result (A * B) :=
  match ra, rb with
  | Ok x, Ok y => Ok (x, y)
  | Throw m, Ok _ => Throw m
  | Ok _, Throw m => Throw m
  | Throw ma, Throw mb => Throw (if a_first then ma else mb)
  end.

Lemma Promise_all_eq {A B} (a : M (Pending A)) (b : M (Pending B)) (w : World)
    (ta tb : Z) (ra : Result A) (rb : Result B) (fa fb : World -> World) :
  let w2 := snd (b (snd (a w))) in
  fst (settles (fst (a w))) = ta ->
  fst (settles (fst (b (snd (a w))))) = tb ->
  (forall v, is_Some (cache_dir v) -> snd (settles (fst (a w))) v = (ra, fa v)) ->
  (forall v, is_Some (cache_dir v) -> snd (settles (fst (b (snd (a w))))) v = (rb, fb v)) ->
  (forall v, is_Some (cache_dir v) -> is_Some (cache_dir (fa v))) ->
  (forall v, is_Some (cache_dir v) -> is_Some (cache_dir (fb v))) ->
  is_Some (cache_dir w2) ->
  Promise_all a b w =
    (both (ta <=? tb) ra rb,
     if ta <=? tb
     then fb (set_clock (clock w2 + tb) (fa (set_clock (clock w2 + ta) w2)))
     else fa (set_clock (clock w2 + ta) (fb (set_clock (clock w2 + tb) w2)))).
Proof.
  intros w2. unfold Promise_all. subst w2.
  destruct (a w) as [pa w1]. cbn [fst snd].
  destruct (b w1) as [pb w2]. cbn [fst snd].
  destruct (settles pa) as [ta' ka]. destruct (settles pb) as [tb' kb]. cbn [fst snd].
  intros -> -> Ha Hb Hfa Hfb Hw.
  destruct (ta <=? tb).
  - rewrite Ha by exact Hw. rewrite Hb by (cbn [set_clock cache_dir]; apply Hfa; exact Hw).
    destruct ra, rb; reflexivity.
  - rewrite Hb by exact Hw. rewrite Ha by (cbn [set_clock cache_dir]; apply Hfb; exact Hw).
    destruct ra, rb; reflexivity.
Qed.

Lemma outcome_begun url name url' name' w :
  outcome url name (begun url' name' w) = outcome url name w.
Proof.
  unfold outcome, cached. now rewrite isFresh_begun, cache_entry_begun, clock_begun.
Qed.

Lemma delay_begun url name url' name' w :
  delay url name (begun url' name' w) = delay url name w.
Proof. unfold delay. now rewrite isFresh_begun, clock_begun. Qed.

Lemma landed_begun url name url' name' w v :
  landed url name (begun url' name' w) v = landed url name w v.
Proof. unfold landed. now rewrite isFresh_begun, clock_begun. Qed.

Lemma schedule_begun lg tm url name url' name' w :
  schedule lg tm url name (begun url' name' w) = schedule lg tm url name w.
Proof. unfold schedule. now rewrite outcome_begun. Qed.

(** The two schedule calls of [main], awaited together from state [w]. *)
Lemma Promise_all_schedules (tm : gmap string string) (w : World) :
  let w2 := begun NFL_URL "nfl_schedules.json" (begun CFB_URL "cfb_games.json" w) in
  let ta := delay CFB_URL "cfb_games.json" w in
  let tb := delay NFL_URL "nfl_schedules.json" w in
  Promise_all (fetchGames_async CFB_URL CFB "cfb_games.json" None)
              (fetchGames_async NFL_URL NFL "nfl_schedules.json" (Some tm)) w =
    (both (ta <=? tb)
       (schedule CFB None CFB_URL "cfb_games.json" w)
       (schedule NFL (Some tm) NFL_URL "nfl_schedules.json" w),
     if ta <=? tb
     then landed NFL_URL "nfl_schedules.json" w
            (set_clock (clock w + tb)
               (landed CFB_URL "cfb_games.json" w (set_clock (clock w + ta) w2)))
     else landed CFB_URL "cfb_games.json" w
            (set_clock (clock w + ta)
               (landed NFL_URL "nfl_schedules.json" w (set_clock (clock w + tb) w2)))).
Proof.
  intros w2 ta tb.
  set (a := fetchGames_async CFB_URL CFB "cfb_games.json" None).
  set (b := fetchGames_async NFL_URL NFL "nfl_schedules.json" (Some tm)).
  assert (Hd : is_Some (cache_dir w2)) by apply dir_begun.
  destruct (fetchGames_async_settles CFB_URL CFB "cfb_games.json" None w w2 Hd)
    as (Ha1 & Ha2 & _).
  fold a in Ha1, Ha2.
  destruct (fetchGames_async_settles NFL_URL NFL "nfl_schedules.json" (Some tm)
              (snd (a w)) w2 Hd) as (Hb1 & Hb2 & _).
  fold b in Hb1, Hb2. rewrite Ha1 in Hb1, Hb2. rewrite delay_begun in Hb2.
  assert (Hw2 : snd (b (snd (a w))) = w2) by (rewrite Ha1; exact Hb1).
  pose proof (Promise_all_eq a b w ta tb
                (schedule CFB None CFB_URL "cfb_games.json" w)
                (schedule NFL (Some tm) NFL_URL "nfl_schedules.json" w)
                (landed CFB_URL "cfb_games.json" w)
                (landed NFL_URL "nfl_schedules.json" w)) as H.
  cbv zeta in H. rewrite Hw2 in H.
  replace (clock w2) with (clock w) in H by (unfold w2; now rewrite !clock_begun).
  apply H; clear H.
  - exact Ha2.
  - rewrite Ha1. exact Hb2.
  - intros v Hv.
    destruct (fetchGames_async_settles CFB_URL CFB "cfb_games.json" None w v Hv)
      as (_ & _ & E). exact E.
  - intros v Hv. rewrite Ha1.
    destruct (fetchGames_async_settles NFL_URL NFL "nfl_schedules.json" (Some tm)
                (begun CFB_URL "cfb_games.json" w) v Hv) as (_ & _ & E).
    rewrite schedule_begun, landed_begun in E. exact E.
  - intros v. apply dir_landed.
  - intros v. apply dir_landed.
  - exact Hd.
Qed.

(** *** The load *)

(** What [fetchNFLTeams] makes of the document (lines 77 to 80). *)
Definition directory (data : Payload) : Result (gmap string string) :=
  match data with
  | PTeams teams => Ok (teamMap teams)
  | PNull => Throw "Cannot read properties of null (reading 'reduce')"
  | _ => Throw "teams.reduce is not a function"
  end.

Lemma fetchNFLTeams_eq w :
  fetchNFLTeams w =
    (match outcome NFL_TEAMS_URL "nfl_teams.json" w with
     | Ok data => directory data
     | Throw m => Throw m
     end, snd (fetchWithCache NFL_TEAMS_URL "nfl_teams.json" w)).
Proof.
  unfold fetchNFLTeams, bind. rewrite fetchWithCache_eq. cbn [snd].
  destruct (outcome NFL_TEAMS_URL "nfl_teams.json" w) as [data|m]; [|reflexivity].
  now destruct data.
Qed.

Lemma loadGames_eq w :
  JS.truthy API_KEY = true ->
  loadGames w =
    match fetchNFLTeams w with
    | (Ok tm, w1) =>
        let r := Promise_all (fetchGames_async CFB_URL CFB "cfb_games.json" None)
                   (fetchGames_async NFL_URL NFL "nfl_schedules.json" (Some tm)) w1 in
        (match fst r with
         | Ok both => Ok (fst both ++ snd both)%list
         | Throw m => Throw m
         end, snd r)
    | (Throw m, w1) => (Throw m, w1)
    end.
Proof.
  intros Hk. unfold loadGames. unfold bind at 1. rewrite Hk. unfold ret at 1.
  cbv beta iota. unfold bind at 1.
  destruct (fetchNFLTeams w) as [[tm|m] w1]; [|reflexivity].
  unfold bind, ret. cbv zeta.
  now destruct (Promise_all _ _ w1) as [[both|m] w2].
Qed.

Lemma requests_fetchWithCache url name w :
  requests (snd (fetchWithCache url name w))
  = (requests w ++ if isFresh name w then [] else [url])%list.
Proof.
  rewrite fetchWithCache_eq. cbn [snd]. rewrite requests_landed.
  cbn [set_clock requests]. apply requests_begun.
Qed.

Lemma requests_schedules tm w :
  requests (snd (Promise_all (fetchGames_async CFB_URL CFB "cfb_games.json" None)
                   (fetchGames_async NFL_URL NFL "nfl_schedules.json" (Some tm)) w))
  = (requests w ++ (if isFresh "cfb_games.json" w then [] else [CFB_URL])
       ++ (if isFresh "nfl_schedules.json" w then [] else [NFL_URL]))%list.
Proof.
  rewrite Promise_all_schedules. cbn [snd].
  destruct (delay CFB_URL "cfb_games.json" w <=? delay NFL_URL "nfl_schedules.json" w);
    rewrite requests_landed; cbn [set_clock requests];
    rewrite requests_landed; cbn [set_clock requests];
    rewrite !requests_begun, isFresh_begun; now rewrite <- app_assoc.
Qed.

Lemma sublist_optional {A} (b : bool) (x : A) : sublist (if b then [] else [x]) [x].
Proof. destruct b; [apply sublist_nil_l|reflexivity]. Qed.

Lemma loadGames_requests_sub w :
  exists l, requests (snd (loadGames w)) = (requests w ++ l)%list /\
            sublist l [NFL_TEAMS_URL; CFB_URL; NFL_URL].
Proof.
  destruct (JS.truthy API_KEY) eqn:Hk.
  2:{ exists []. unfold loadGames, bind. rewrite Hk. simpl. rewrite app_nil_r.
      split; [reflexivity|]. apply sublist_nil_l. }
  rewrite (loadGames_eq w Hk), fetchNFLTeams_eq.
  pose proof (requests_fetchWithCache NFL_TEAMS_URL "nfl_teams.json" w) as Ht.
  set (w1 := snd (fetchWithCache NFL_TEAMS_URL "nfl_teams.json" w)) in *.
  destruct (match outcome NFL_TEAMS_URL "nfl_teams.json" w with
            | Ok data => directory data
            | Throw m => Throw m
            end) as [tm|m].
  - cbv zeta. cbn [snd]. rewrite requests_schedules, Ht.
    eexists. rewrite <- app_assoc. split; [reflexivity|].
    change [NFL_TEAMS_URL; CFB_URL; NFL_URL]
      with ([NFL_TEAMS_URL] ++ [CFB_URL] ++ [NFL_URL])%list.
    apply sublist_app; [apply sublist_optional|].
    apply sublist_app; apply sublist_optional.
  - cbn [snd]. rewrite Ht. eexists. split; [reflexivity|].
    change [NFL_TEAMS_URL; CFB_URL; NFL_URL]
      with ([NFL_TEAMS_URL] ++ [CFB_URL; NFL_URL])%list.
    rewrite <- (app_nil_r (if isFresh _ _ then _ else _)).
    apply sublist_app; [apply sublist_optional|apply sublist_nil_l].
Qed.

(** After the load, a run touches nothing but the console. *)
Lemma main_world_after_load opts offset w :
  clear_cache opts = false ->
  resolveOffset opts = Some offset ->
  requests (snd (main opts w)) = requests (snd (loadGames w)) /\
  cache_dir (snd (main opts w)) = cache_dir (snd (loadGames w)).
Proof.
  intros Hc Ho. destruct (loadGames w) as [[games|m] w1] eqn:Hl.
  - rewrite (main_after_load opts offset games w w1 Hc Ho Hl). cbn [snd].
    destruct (selectGames offset opts games w1) as [[[|g sel]|m] w2]; try (split; reflexivity).
    destruct offset as [n|]; [|split; reflexivity].
    destruct (targetDateAt (clock w1) n); split; reflexivity.
  - unfold main. rewrite Hc, Ho. unfold try_catch, tryBlock, bind.
    rewrite Hl. split; reflexivity.
Qed.

(** Cache entries across the steps of a call. *)
Lemma cache_entry_store name other text v :
  cache_entry other (store name text v) =
    if decide (other = name) then Some (mkFile text (clock v)) else cache_entry other v.
Proof.
  unfold store, cache_entry. cbn [set_cache_dir cache_dir mbind option_bind].
  destruct (decide (other = name)) as [->|Hne]; [apply lookup_insert_eq|].
  rewrite lookup_insert_ne by congruence.
  destruct (cache_dir v); [reflexivity|apply lookup_empty].
Qed.

Lemma cache_entry_landed_ne url name other w v :
  other <> name -> cache_entry other (landed url name w v) = cache_entry other v.
Proof.
  intros Hne. unfold landed. destruct (isFresh name w); [reflexivity|].
  destruct (response_outcome _ _); [|reflexivity].
  rewrite cache_entry_store. now destruct (decide (other = name)).
Qed.

Lemma cache_entry_landed url name w v data :
  isFresh name w = false ->
  response_outcome url (fst (network url (clock w))) = Ok data ->
  cache_entry name (landed url name w v) = Some (mkFile (JSON_stringify data) (clock v)).
Proof.
  intros Hf Hr. unfold landed. rewrite Hf, Hr, cache_entry_store.
  now destruct (decide (name = name)).
Qed.

Lemma cache_entry_set_clock name t v : cache_entry name (set_clock t v) = cache_entry name v.
Proof. reflexivity. Qed.

Lemma response_outcome_ok url status body data :
  status_ok status = true -> JSON_parse body = inl data ->
  response_outcome url (HttpResponse status body) = Ok data.
Proof. intros Hs Hp. unfold response_outcome. now rewrite Hs, Hp. Qed.

(** X8. Every successful load yields the college Games followed by the
    professional Games: one Game per record of the two schedule documents,
    in the documents' order, the professional ones resolved through the
    lookup built from the team directory document. The three documents are
    those that [fetchWithCache] yields for the three resources, the
    directory first and the two schedules from the state the directory
    fetch leaves. In each Game an empty [DateTime], [Day] or [Channel] has
    become an absent one, so that a present field is never the empty
    string. *)
Theorem loaded_games_are_normalised (w w' : World) (games : list Game) :
  loadGames w = (Ok games, w') ->
  exists teams cfb nfl,
    let w1 := snd (fetchWithCache NFL_TEAMS_URL "nfl_teams.json" w) in
    fst (fetchWithCache NFL_TEAMS_URL "nfl_teams.json" w) = Ok (PTeams teams) /\
    fst (fetchWithCache CFB_URL "cfb_games.json" w1) = Ok (PGames cfb) /\
    fst (fetchWithCache NFL_URL "nfl_schedules.json" w1) = Ok (PGames nfl) /\
    games = (map (toGame CFB None) cfb
             ++ map (toGame NFL (Some (teamMap teams))) nfl)%list /\
    length games = (length cfb + length nfl)%nat /\
    Forall normalised games.
Proof.
  intros H.
  assert (Hk : JS.truthy API_KEY = true).
  { destruct (JS.truthy API_KEY) eqn:E; [reflexivity|].
    unfold loadGames, bind in H. rewrite E in H. discriminate H. }
  rewrite (loadGames_eq w Hk), fetchNFLTeams_eq in H.
  set (w1 := snd (fetchWithCache NFL_TEAMS_URL "nfl_teams.json" w)) in *.
  destruct (outcome NFL_TEAMS_URL "nfl_teams.json" w) as [[teams| | |]|m] eqn:Ht;
    try discriminate H.
  cbn [directory] in H. cbv zeta in H. rewrite Promise_all_schedules in H.
  cbn [fst snd] in H.
  unfold schedule in H.
  destruct (outcome CFB_URL "cfb_games.json" w1) as [[| cfb | |]|m] eqn:Hc;
    try (destruct (match outcome NFL_URL "nfl_schedules.json" w1 with
                   | Ok data => games_of NFL (Some (teamMap teams)) data
                   | Throw m => Throw m
                   end); discriminate H).
  destruct (outcome NFL_URL "nfl_schedules.json" w1) as [[| nfl | |]|m] eqn:Hn;
    try discriminate H.
  cbn [games_of both fst snd] in H. injection H as <- _.
  exists teams, cfb, nfl. cbv zeta. rewrite !fetchWithCache_eq. cbn [fst].
  fold w1. split; [exact Ht|]. split; [exact Hc|]. split; [exact Hn|].
  split; [reflexivity|]. split; [now rewrite length_app, !length_map|].
  apply Forall_app. split; apply Forall_forall; intros g Hg;
    apply list_elem_of_In, in_map_iff in Hg as (r & <- & _); apply toGame_normalised.
Qed.

(** ** The command surface, further *)

(** X16. Reading a day offset inverts writing one: for every integer [n]
    that a number holds exactly (at most 2^53 in magnitude), [--days] given
    the decimal text of [n] selects the offset [n], and so does that text
    with a leading plus sign when [n] is not negative, whatever the team
    option. *)
Theorem days_decimal_round_trip (n : Z) (t : string) (c : bool) :
  Z.abs n <= 2 ^ 53 ->
  JS.parseInt (JS.string_of_Z n) = Some n /\
  resolveOffset (mkOpts (JS.string_of_Z n) t c) = Some (Some n) /\
  (0 <= n -> resolveOffset (mkOpts (String "+" (JS.string_of_Z n)) t c) = Some (Some n)).
Proof.
  intros _. pose proof (parseInt_string_of_Z n) as (H1 & H2 & H3).
  split; [exact H1|]. split.
  - unfold resolveOffset. cbn [days team]. rewrite H3. cbn [negb andb].
    destruct (JS.string_of_Z n); [discriminate|]. cbn [String.eqb negb].
    now rewrite H1.
  - intros Hn. unfold resolveOffset. cbn [days team JS.truthy_string negb andb].
    cbn [String.eqb negb]. now rewrite (H2 Hn).
Qed.

(** X17. [--clear-cache] short-circuits the run: whatever the other
    options (even a [--days] value that is not a number) and whether or not
    there is an API key, the process exits with status 0 after removing the
    cache directory and printing one line; it issues no request and writes
    nothing to the error stream. *)
Theorem clear_cache_short_circuits (opts : Opts) (w : World) :
  clear_cache opts = true ->
  fst (main opts w) = 0 /\
  cache_dir (snd (main opts w)) = None /\
  requests (snd (main opts w)) = requests w /\
  stderr (snd (main opts w)) = stderr w /\
  stdout (snd (main opts w)) =
    (stdout w ++ [if bool_decide (is_Some (cache_dir w))
                  then "Cache cleared: " +:+ CACHE_DIR
                  else "No cache to clear."])%list.
Proof.
  intros Hc. unfold main. rewrite Hc. cbn [fst snd].
  destruct w as [[d|] ck r o e]; repeat split.
Qed.

(** X18. Without an API key (absent or empty) a run whose arguments are
    accepted does no I/O at all: no request, no cache directory created,
    nothing printed; it writes "Error: Missing API key in .env" to the
    error stream and exits with status 0. *)
Theorem missing_api_key_no_io (opts : Opts) (offset : option Z) (w : World) :
  JS.truthy API_KEY = false ->
  clear_cache opts = false ->
  resolveOffset opts = Some offset ->
  main opts w = (0, add_stderr "Error: Missing API key in .env" w).
Proof.
  intros Hk Hc Ho. unfold main. rewrite Hc, Ho. unfold try_catch.
  now rewrite (missing_key_throws offset opts w Hk).
Qed.

(** X19. When the arguments are accepted, the Games load and the
    selection is not empty, the run exits with status 0 after printing the
    header and then exactly one row per selected Game, in the order the
    engine's sort leaves them, and nothing else; the header names the
    target date under a date filter, the team text under a team filter
    alone. The error stream, the cache and the request log are as the load
    left them. (A sort rearranges: it neither drops nor adds an element.) *)
Theorem run_prints_header_and_rows
    (opts : Opts) (offset : option Z) (games sel : list Game) (w w1 w2 : World) :
  (forall comparefn l, Permutation l (Array_sort comparefn l)) ->
  clear_cache opts = false ->
  resolveOffset opts = Some offset ->
  loadGames w = (Ok games, w1) ->
  selectGames offset opts games w1 = (Ok sel, w2) ->
  sel <> [] ->
  exists label,
    match offset with
    | None => label = plainLabel opts
    | Some n => exists t, targetDateAt (clock w1) n = Some t /\ label = "Games for " +:+ t
    end /\
    main opts w =
      (0, mkWorld (cache_dir w1) (clock w1) (requests w1)
            (stdout w ++ (label +:+ ":" +:+ newline)
               :: map gameRow (Array_sort compareGames sel))
            (stderr w)) /\
    length (map gameRow (Array_sort compareGames sel)) = length sel.
Proof.
  intros Hperm Hc Ho Hl Hs Hne.
  pose proof (quiet_loadGames w) as Hq. rewrite Hl in Hq. simpl in Hq.
  destruct Hq as [Hq1 Hq2].
  rewrite (main_after_load opts offset games w w1 Hc Ho Hl), Hs.
  assert (Hlen : length (map gameRow (Array_sort compareGames sel)) = length sel).
  { rewrite length_map. symmetry. apply Permutation_length, Hperm. }
  destruct sel as [|g sel]; [congruence|].
  rewrite selectGames_eq in Hs. destruct offset as [n|].
  - destruct (targetDateAt (clock w1) n) as [t|] eqn:Et; [|discriminate].
    exists ("Games for " +:+ t). split; [now exists t|]. split; [|exact Hlen].
    unfold printed. now rewrite Hq1, Hq2.
  - exists (plainLabel opts). split; [reflexivity|]. split; [|exact Hlen].
    unfold printed. now rewrite Hq1, Hq2.
Qed.

(** X20. Whatever the options, the state and the peer's answers, a run
    issues at most three requests, in this order and to no other address:
    the team directory, the college schedule, the professional schedule;
    each of them at most once. *)
Theorem run_requests_bounded (opts : Opts) (w : World) :
  exists l,
    requests (snd (main opts w)) = (requests w ++ l)%list /\
    sublist l [NFL_TEAMS_URL; CFB_URL; NFL_URL].
Proof.
  destruct (clear_cache opts) eqn:Hc.
  - exists []. rewrite app_nil_r. split; [|apply sublist_nil_l].
    unfold main. rewrite Hc. cbn [snd]. now destruct w as [[d|] ck r o e].
  - destruct (resolveOffset opts) as [offset|] eqn:Ho.
    + destruct (main_world_after_load opts offset w Hc Ho) as [-> _].
      apply loadGames_requests_sub.
    + exists []. rewrite app_nil_r. split; [|apply sublist_nil_l].
      unfold main. now rewrite Hc, Ho.
Qed.

Lemma outcome_fresh url name w f :
  cache_entry name w = Some f ->
  clock w - mtimeMs f < CACHE_TTL ->
  isFresh name w = true /\
  outcome url name w =
    match JSON_parse (content f) with inl data => Ok data | inr m => Throw m end.
Proof.
  intros He Hlt.
  assert (Hf : isFresh name w = true) by (apply isFresh_true; eauto).
  split; [exact Hf|]. unfold outcome, cached. now rewrite Hf, He.
Qed.

(** X21. With an API key and the three cache entries fresh and readable, a
    run is served from the cache alone: the load returns the college Games
    followed by the professional ones without changing the state, and the
    whole run issues no request and leaves the cache as it is. *)
Theorem warm_cache_run
    (opts : Opts) (offset : option Z) (w : World) (ft fc fn : File)
    (teams : list NFLTeam) (cfb nfl : list RawGame) :
  JS.truthy API_KEY = true ->
  clear_cache opts = false ->
  resolveOffset opts = Some offset ->
  cache_entry "nfl_teams.json" w = Some ft ->
  cache_entry "cfb_games.json" w = Some fc ->
  cache_entry "nfl_schedules.json" w = Some fn ->
  clock w - mtimeMs ft < CACHE_TTL ->
  clock w - mtimeMs fc < CACHE_TTL ->
  clock w - mtimeMs fn < CACHE_TTL ->
  JSON_parse (content ft) = inl (PTeams teams) ->
  JSON_parse (content fc) = inl (PGames cfb) ->
  JSON_parse (content fn) = inl (PGames nfl) ->
  loadGames w =
    (Ok (map (toGame CFB None) cfb
         ++ map (toGame NFL (Some (teamMap teams))) nfl)%list, w) /\
  requests (snd (main opts w)) = requests w /\
  cache_dir (snd (main opts w)) = cache_dir w.
Proof.
  intros Hk Hc Ho Het Hec Hen Hlt Hlc Hln Hpt Hpc Hpn.
  destruct (outcome_fresh NFL_TEAMS_URL _ w ft Het Hlt) as [Ft Ot].
  destruct (outcome_fresh CFB_URL _ w fc Hec Hlc) as [Fc Oc].
  destruct (outcome_fresh NFL_URL _ w fn Hen Hln) as [Fn On].
  rewrite Hpt in Ot. rewrite Hpc in Oc. rewrite Hpn in On.
  assert (Hw : snd (fetchWithCache NFL_TEAMS_URL "nfl_teams.json" w) = w).
  { rewrite fetchWithCache_eq. cbn [snd]. unfold landed, delay, begun.
    rewrite Ft. apply set_clock_same. }
  assert (Hl : loadGames w =
               (Ok (map (toGame CFB None) cfb
                    ++ map (toGame NFL (Some (teamMap teams))) nfl)%list, w)).
  { rewrite (loadGames_eq w Hk), fetchNFLTeams_eq, Hw, Ot. cbn [directory]. cbv zeta.
    rewrite Promise_all_schedules. unfold schedule, landed, delay, begun.
    rewrite Oc, On, Fc, Fn. cbn [fst snd games_of both Z.leb Z.compare].
    now rewrite !set_clock_same. }
  split; [exact Hl|].
  destruct (main_world_after_load opts offset w Hc Ho) as [-> ->].
  rewrite Hl. split; reflexivity.
Qed.

Lemma isFresh_absent name w : cache_entry name w = None -> isFresh name w = false.
Proof. unfold isFresh. now intros ->. Qed.

(** The entry of one resource after the two schedule calls have settled. *)
Lemma entries_after_schedules tm w name :
  let w' := snd (Promise_all (fetchGames_async CFB_URL CFB "cfb_games.json" None)
                   (fetchGames_async NFL_URL NFL "nfl_schedules.json" (Some tm)) w) in
  (name <> "cfb_games.json" -> name <> "nfl_schedules.json" ->
   cache_entry name w' = cache_entry name w) /\
  (forall data,
     isFresh "cfb_games.json" w = false ->
     response_outcome CFB_URL (fst (network CFB_URL (clock w))) = Ok data ->
     content <$> cache_entry "cfb_games.json" w' = Some (JSON_stringify data)) /\
  (forall data,
     isFresh "nfl_schedules.json" w = false ->
     response_outcome NFL_URL (fst (network NFL_URL (clock w))) = Ok data ->
     content <$> cache_entry "nfl_schedules.json" w' = Some (JSON_stringify data)).
Proof.
  cbv zeta. rewrite Promise_all_schedules. cbn [snd].
  assert (Hne : "cfb_games.json" <> "nfl_schedules.json") by discriminate.
  assert (Hne' : "nfl_schedules.json" <> "cfb_games.json") by discriminate.
  destruct (delay CFB_URL "cfb_games.json" w <=? delay NFL_URL "nfl_schedules.json" w);
    (split; [|split]).
  - intros H1 H2.
    rewrite cache_entry_landed_ne, cache_entry_set_clock by exact H2.
    rewrite cache_entry_landed_ne, cache_entry_set_clock by exact H1.
    now rewrite !cache_entry_begun.
  - intros data Hf Hr.
    rewrite cache_entry_landed_ne, cache_entry_set_clock by exact Hne.
    now rewrite (cache_entry_landed _ _ _ _ data Hf Hr).
  - intros data Hf Hr. now rewrite (cache_entry_landed _ _ _ _ data Hf Hr).
  - intros H1 H2.
    rewrite cache_entry_landed_ne, cache_entry_set_clock by exact H1.
    rewrite cache_entry_landed_ne, cache_entry_set_clock by exact H2.
    now rewrite !cache_entry_begun.
  - intros data Hf Hr. now rewrite (cache_entry_landed _ _ _ _ data Hf Hr).
  - intros data Hf Hr.
    rewrite cache_entry_landed_ne, cache_entry_set_clock by exact Hne'.
    now rewrite (cache_entry_landed _ _ _ _ data Hf Hr).
Qed.

Lemma entries_after_fetchWithCache url name w other :
  (other <> name ->
   cache_entry other (snd (fetchWithCache url name w)) = cache_entry other w) /\
  (forall data,
     isFresh name w = false ->
     response_outcome url (fst (network url (clock w))) = Ok data ->
     content <$> cache_entry name (snd (fetchWithCache url name w))
     = Some (JSON_stringify data)).
Proof.
  rewrite fetchWithCache_eq. cbn [snd]. split.
  - intros Hne. rewrite cache_entry_landed_ne, cache_entry_set_clock by exact Hne.
    apply cache_entry_begun.
  - intros data Hf Hr. now rewrite (cache_entry_landed _ _ _ _ data Hf Hr).
Qed.

(** X22. With an API key, none of the three cache entries present and a
    peer that answers the three resources with 2xx responses that parse, the
    load succeeds after exactly three requests (team directory, college
    schedule, professional schedule, in this order) and leaves exactly
    those three entries written, each holding the serialisation of what was
    fetched; no other entry is touched. *)
Theorem cold_cache_run
    (w : World) (s1 s2 s3 : Z) (b1 b2 b3 : string)
    (teams : list NFLTeam) (cfb nfl : list RawGame) :
  JS.truthy API_KEY = true ->
  cache_entry "nfl_teams.json" w = None ->
  cache_entry "cfb_games.json" w = None ->
  cache_entry "nfl_schedules.json" w = None ->
  (forall t, fst (network NFL_TEAMS_URL t) = HttpResponse s1 b1) ->
  (forall t, fst (network CFB_URL t) = HttpResponse s2 b2) ->
  (forall t, fst (network NFL_URL t) = HttpResponse s3 b3) ->
  status_ok s1 = true -> status_ok s2 = true -> status_ok s3 = true ->
  JSON_parse b1 = inl (PTeams teams) ->
  JSON_parse b2 = inl (PGames cfb) ->
  JSON_parse b3 = inl (PGames nfl) ->
  exists w1,
    loadGames w =
      (Ok (map (toGame CFB None) cfb
           ++ map (toGame NFL (Some (teamMap teams))) nfl)%list, w1) /\
    requests w1 = (requests w ++ [NFL_TEAMS_URL; CFB_URL; NFL_URL])%list /\
    content <$> cache_entry "nfl_teams.json" w1 = Some (JSON_stringify (PTeams teams)) /\
    content <$> cache_entry "cfb_games.json" w1 = Some (JSON_stringify (PGames cfb)) /\
    content <$> cache_entry "nfl_schedules.json" w1 = Some (JSON_stringify (PGames nfl)) /\
    (forall other,
       other <> "nfl_teams.json" -> other <> "cfb_games.json" ->
       other <> "nfl_schedules.json" ->
       cache_entry other w1 = cache_entry other w).
Proof.
  intros Hk Ht Hc Hn Nt Nc Nn O1 O2 O3 P1 P2 P3.
  assert (Rt : forall t, response_outcome NFL_TEAMS_URL (fst (network NFL_TEAMS_URL t))
                         = Ok (PTeams teams))
    by (intros t; rewrite Nt; now apply response_outcome_ok).
  assert (Rc : forall t, response_outcome CFB_URL (fst (network CFB_URL t))
                         = Ok (PGames cfb))
    by (intros t; rewrite Nc; now apply response_outcome_ok).
  assert (Rn : forall t, response_outcome NFL_URL (fst (network NFL_URL t))
                         = Ok (PGames nfl))
    by (intros t; rewrite Nn; now apply response_outcome_ok).
  pose proof (isFresh_absent _ _ Ht) as Ft.
  set (wa := snd (fetchWithCache NFL_TEAMS_URL "nfl_teams.json" w)).
  assert (Ec : cache_entry "cfb_games.json" wa = None).
  { unfold wa.
    rewrite (proj1 (entries_after_fetchWithCache _ _ w "cfb_games.json"))
      by discriminate. exact Hc. }
  assert (En : cache_entry "nfl_schedules.json" wa = None).
  { unfold wa.
    rewrite (proj1 (entries_after_fetchWithCache _ _ w "nfl_schedules.json"))
      by discriminate. exact Hn. }
  pose proof (isFresh_absent _ _ Ec) as Fc. pose proof (isFresh_absent _ _ En) as Fn.
  set (r := Promise_all (fetchGames_async CFB_URL CFB "cfb_games.json" None)
              (fetchGames_async NFL_URL NFL "nfl_schedules.json"
                 (Some (teamMap teams))) wa).
  assert (Hr : fst r = Ok (map (toGame CFB None) cfb,
                           map (toGame NFL (Some (teamMap teams))) nfl)).
  { unfold r. rewrite Promise_all_schedules. cbn [fst]. unfold schedule, outcome.
    rewrite Fc, Fn, Rc, Rn. cbn [games_of].
    now destruct (_ <=? _). }
  assert (Hl : loadGames w =
               (Ok (map (toGame CFB None) cfb
                    ++ map (toGame NFL (Some (teamMap teams))) nfl)%list, snd r)).
  { rewrite (loadGames_eq w Hk), fetchNFLTeams_eq. fold wa. unfold outcome.
    rewrite Ft, Rt. cbn [directory]. cbv zeta. fold r. now rewrite Hr. }
  destruct (entries_after_schedules (teamMap teams) wa "nfl_teams.json") as (Kt & _ & _).
  destruct (entries_after_schedules (teamMap teams) wa "cfb_games.json") as (_ & Kc & Kn).
  cbv zeta in Kt, Kc, Kn. fold r in Kt, Kc, Kn.
  exists (snd r). split; [exact Hl|]. split; [|split; [|split; [|split]]].
  - unfold r. rewrite requests_schedules, Fc, Fn. unfold wa.
    rewrite requests_fetchWithCache, Ft. now rewrite <- app_assoc.
  - rewrite Kt by discriminate. unfold wa.
    apply (proj2 (entries_after_fetchWithCache _ _ w "nfl_teams.json")); [exact Ft|apply Rt].
  - apply Kc; [exact Fc|apply Rc].
  - apply Kn; [exact Fn|apply Rn].
  - intros other H1 H2 H3.
    destruct (entries_after_schedules (teamMap teams) wa other) as (Ko & _ & _).
    cbv zeta in Ko. fold r in Ko. rewrite Ko by assumption. unfold wa.
    now apply (proj1 (entries_after_fetchWithCache _ _ w other)).
Qed.

(** X23. The two schedule fetches are started together and neither
    cancels the other. Once the team directory is in, the load comes to
    what the two fetches come to when each is made alone from that state:
    the college Games followed by the professional ones when both succeed,
    the exception of the one that fails when one fails, and when both fail
    the exception of the one that fails first (a fetch that is served from
    the cache settles at once, one that goes to the network settles when
    its response is in; the college one counts as first on a tie). Both
    requests are issued whatever the outcome, and a schedule that was
    fetched with a 2xx response that parses is stored even when the load
    fails. *)
Theorem schedule_fetches_are_independent
    (w w1 : World) (tm : gmap string string) :
  JS.truthy API_KEY = true ->
  fetchNFLTeams w = (Ok tm, w1) ->
  let college := fst (fetchGames CFB_URL CFB "cfb_games.json" None w1) in
  let professional := fst (fetchGames NFL_URL NFL "nfl_schedules.json" (Some tm) w1) in
  fst (loadGames w) =
    match college, professional with
    | Ok c, Ok p => Ok (c ++ p)%list
    | Throw m, Ok _ => Throw m
    | Ok _, Throw m => Throw m
    | Throw mc, Throw mp =>
        Throw (if delay CFB_URL "cfb_games.json" w1
                  <=? delay NFL_URL "nfl_schedules.json" w1
               then mc else mp)
    end /\
  requests (snd (loadGames w)) =
    (requests w1 ++ (if isFresh "cfb_games.json" w1 then [] else [CFB_URL])
       ++ (if isFresh "nfl_schedules.json" w1 then [] else [NFL_URL]))%list /\
  (forall status body elapsed data,
     isFresh "cfb_games.json" w1 = false ->
     network CFB_URL (clock w1) = (HttpResponse status body, elapsed) ->
     status_ok status = true -> JSON_parse body = inl data ->
     content <$> cache_entry "cfb_games.json" (snd (loadGames w))
     = Some (JSON_stringify data)) /\
  (forall status body elapsed data,
     isFresh "nfl_schedules.json" w1 = false ->
     network NFL_URL (clock w1) = (HttpResponse status body, elapsed) ->
     status_ok status = true -> JSON_parse body = inl data ->
     content <$> cache_entry "nfl_schedules.json" (snd (loadGames w))
     = Some (JSON_stringify data)).
Proof.
  intros Hk Ht college professional.
  rewrite (loadGames_eq w Hk), Ht. cbv zeta. cbn [fst snd].
  destruct (entries_after_schedules tm w1 "") as (_ & Kc & Kn). cbv zeta in Kc, Kn.
  split; [|split; [apply requests_schedules|split]].
  - rewrite Promise_all_schedules. cbn [fst].
    unfold college, professional. rewrite !fetchGames_eq. cbn [fst].
    destruct (schedule CFB None CFB_URL "cfb_games.json" w1),
             (schedule NFL (Some tm) NFL_URL "nfl_schedules.json" w1); reflexivity.
  - intros status body elapsed data Hf Hn Hs Hp. apply Kc; [exact Hf|].
    rewrite Hn. now apply response_outcome_ok.
  - intros status body elapsed data Hf Hn Hs Hp. apply Kn; [exact Hf|].
    rewrite Hn. now apply response_outcome_ok.
Qed.

(** X24. What follows the digits of a [--days] value is not read: the
    decimal text of any integer [n] that a number holds exactly (at most
    2^53 in magnitude), followed by any text that does not begin with a
    digit, selects the offset [n]. *)
Theorem days_trailing_text_ignored (n : Z) (r t : string) (c : bool) :
  Z.abs n <= 2 ^ 53 ->
  starts_with_digit r = false ->
  resolveOffset (mkOpts (JS.string_of_Z n +:+ r) t c) = Some (Some n).
Proof. intros _ Hr. now apply resolveOffset_decimal. Qed.

(** X25. The exit status of a run is 0 or 1, and it is 1 in one case only:
    the cache is not being cleared and [--days] holds a non-empty value
    that [parseInt] cannot read, that is, one in which the leading white
    space and the optional sign are not followed by a digit. Every other
    run, failed fetches included, exits with 0. *)
Theorem exit_status_is_usage_error_only (opts : Opts) (w : World) :
  (fst (main opts w) = 0 \/ fst (main opts w) = 1) /\
  (fst (main opts w) = 1 <->
   clear_cache opts = false /\ days opts <> "" /\
   starts_with_digit (unsigned (JS.skip_spaces (days opts))) = false).
Proof.
  rewrite <- parseInt_NaN.
  unfold main. destruct (clear_cache opts).
  - cbn [fst]. split; [now left|]. split; [discriminate|]. intros [H _]. discriminate H.
  - destruct (resolveOffset opts) as [offset|] eqn:Ho; cbn [fst].
    + split; [now left|]. split; [discriminate|]. intros (_ & H).
      apply resolveOffset_None in H. congruence.
    + split; [now right|]. split; [|reflexivity]. intros _.
      split; [reflexivity|]. now apply resolveOffset_None.
Qed.


End Program.

(** ** The program on explicit inputs *)

Abbreviation sample_fetch :=
  (fetchWithCache Fixture.JSON_parse Fixture.JSON_stringify Fixture.network).
Abbreviation sample_sort := (@Fixture.Array_sort Game).
Abbreviation sampled T :=
  (T (Some "k") "/home/user/.cache/games" Fixture.JSON_parse Fixture.JSON_stringify
     Fixture.network Fixture.Date_parse Fixture.LocalTZA Fixture.toLocaleTimeString
     Fixture.toLowerCase Fixture.toUpperCase sample_sort).
Abbreviation sample_main := (sampled main).
Abbreviation sample_load :=
  (loadGames (Some "k") Fixture.JSON_parse Fixture.JSON_stringify Fixture.network
     Fixture.toUpperCase).
Abbreviation sample_select := (selectGames Fixture.LocalTZA Fixture.toLowerCase).
Abbreviation sample_compare := (compareGames Fixture.Date_parse).
Abbreviation sample_row :=
  (gameRow Fixture.Date_parse Fixture.LocalTZA Fixture.toLocaleTimeString).
Abbreviation teams_url := (NFL_TEAMS_URL (Some "k")).
Abbreviation cfb_url := (CFB_URL (Some "k")).
Abbreviation nfl_url := (NFL_URL (Some "k")).

(** C1. At 22:00 on 2025-09-01 in a zone four hours behind UTC, with
    offset 0, [computeTargetDate] returns the UTC date 2025-09-02, while
    the local calendar date is 2025-09-01. *)
Theorem computeTargetDate_returns_utc_date :
  targetDateAt Fixture.LocalTZA Fixture.evening 0 = Some "2025-09-02" /\
  fst (computeTargetDate Fixture.LocalTZA 0 (Fixture.fresh_world Fixture.evening))
    = Ok "2025-09-02" /\
  localTargetDate Fixture.LocalTZA Fixture.evening 0 = "2025-09-01" /\
  Time.civil_from_days (Time.Day (LocalTime Fixture.LocalTZA Fixture.evening))
    = (2025, 9, 1).
Proof. repeat split; vm_compute; reflexivity. Qed.

(** The same at 10:00 local time: both dates are 2025-09-01. *)
Example computeTargetDate_morning :
  targetDateAt Fixture.LocalTZA Fixture.morning 0 = Some "2025-09-01" /\
  localTargetDate Fixture.LocalTZA Fixture.morning 0 = "2025-09-01" /\
  targetDateAt Fixture.LocalTZA Fixture.morning 30 = Some "2025-10-01" /\
  targetDateAt Fixture.LocalTZA Fixture.morning (-1) = Some "2025-08-31" /\
  targetDateAt Fixture.LocalTZA Fixture.morning 100000000000 = None.
Proof. repeat split; vm_compute; reflexivity. Qed.

(** C2, as stated, fails: a Game whose [dateTime] is present and does not
    start with the target date is kept when its [day] does. *)
Lemma dateFilter_keeps_on_day_despite_dateTime :
  let g := mkGame NFL (Text "Philadelphia Eagles") (Text "Dallas Cowboys")
             (Some "2025-09-02T01:00:00") (Some "2025-09-01T00:00:00") 1 None in
  dateFilter "2025-09-01" g = true /\
  JS.startsWith "2025-09-02T01:00:00" "2025-09-01" = false /\
  ~ dayOnlyWhenNoDateTime "2025-09-01" g.
Proof.
  split; [reflexivity|]. split; [reflexivity|].
  intros [(s & Hs & Hp)|(Hn & _)].
  - injection Hs as <-. discriminate Hp.
  - discriminate Hn.
Qed.

Lemma dateFilter_keep_iff_witness :
  let g := mkGame CFB (Text "Ohio State Buckeyes") (Text "Texas Longhorns")
             (Some "2025-09-01T12:00:00") None 1 (Some "FOX") in
  "2025-09-01" <> "" /\
  (dateFilter "2025-09-01" g = true <->
   (exists s, dateTime g = Some s /\ JS.startsWith s "2025-09-01" = true) \/
   (exists s, day g = Some s /\ JS.startsWith s "2025-09-01" = true)).
Proof.
  intros g.
  assert (H : "2025-09-01" <> "") by discriminate.
  split; [exact H|]. exact (proj1 (dateFilter_keep_iff "2025-09-01" g H)).
Defined.

Lemma fetchWithCache_ttl_witness :
  let w1 := snd (sample_fetch teams_url "nfl_teams.json"
                   (Fixture.fresh_world Fixture.morning)) in
  let later := set_clock (Fixture.morning + 3600000) w1 in
  requests w1 = [teams_url] /\
  sample_fetch teams_url "nfl_teams.json" later = (Ok (PTeams Fixture.teams), later).
Proof.
  destruct (fetchWithCache_ttl Fixture.JSON_parse Fixture.JSON_stringify
              Fixture.network teams_url "nfl_teams.json") as (_ & _ & H).
  destruct (H (Fixture.fresh_world Fixture.morning) 200 "teams" 120
              (PTeams Fixture.teams)) as (H1 & H2 & H3 & H4 & H5).
  - intros f Hf. discriminate Hf.
  - reflexivity.
  - reflexivity.
  - reflexivity.
  - split; [exact H2|].
    refine (proj1 (H4 (Fixture.morning + 3600000) _)). vm_compute. reflexivity.
Defined.

Lemma stale_refresh_failure_keeps_entry_witness :
  let w := mkWorld (Some {[ "nfl_teams.json" := mkFile "teams" 0 ]})
             Fixture.morning [] [] [] in
  exists m,
    fetchWithCache Fixture.JSON_parse Fixture.JSON_stringify Fixture.network_down
      teams_url "nfl_teams.json" w
    = (Throw m, set_clock (Fixture.morning + 40) (add_request teams_url w)) /\
    m = "HTTP 503 for " +:+ teams_url /\
    cache_entry "nfl_teams.json"
      (snd (fetchWithCache Fixture.JSON_parse Fixture.JSON_stringify
              Fixture.network_down teams_url "nfl_teams.json" w))
    = Some (mkFile "teams" 0).
Proof.
  intros w.
  destruct (stale_refresh_failure_keeps_entry Fixture.JSON_parse
              Fixture.JSON_stringify Fixture.network_down teams_url
              "nfl_teams.json" w (mkFile "teams" 0)
              (HttpResponse 503 "Service Unavailable") 40)
    as (m & Hm & Hmsg & _ & He).
  - vm_compute. reflexivity.
  - vm_compute. discriminate.
  - reflexivity.
  - left. reflexivity.
  - exists m. split; [exact Hm|]. split; [exact Hmsg|exact He].
Defined.

(** C4, as stated, fails. Three Games of week 1, the second with a
    [dateTime] that is not a date: every comparison with it is [NaN], which
    the sort reads as a tie, and the list is left as it is, the Game of
    2 September ahead of the Game of 1 September. And a Game with no time
    information does not come first in its week when another Game of the
    week is dated before the epoch. *)
Lemma unparseable_date_breaks_order :
  let a := mkGame NFL (Text "Kansas City Chiefs") (Text "Baltimore Ravens")
             (Some "2025-09-02T13:00:00Z") None 1 None in
  let b := mkGame NFL (Text "Philadelphia Eagles") (Text "Dallas Cowboys")
             (Some "TBD") None 1 None in
  let c := mkGame CFB (Text "Notre Dame") (Text "Miami")
             (Some "2025-09-01T13:00:00Z") None 1 None in
  let old := mkGame CFB (Text "Army") (Text "Navy")
               (Some "1969-12-31T00:00:00Z") None 1 None in
  let blank := mkGame CFB (Text "Ohio State") (Text "Texas") None None 1 None in
  sample_sort sample_compare [a; b; c] = [a; b; c] /\
  map sample_row (sample_sort sample_compare [a; b; c]) =
    [ "[2025-09-02 TUE][NFL] Baltimore Ravens @ Kansas City Chiefs - 09:00 AM - Channel: N/A";
      "[NaN-NaN-NaN INVALID DATE][NFL] Dallas Cowboys @ Philadelphia Eagles - Invalid Date - Channel: N/A";
      "[2025-09-01 MON][CFB] Miami @ Notre Dame - 09:00 AM - Channel: N/A" ] /\
  sample_compare a b = None /\ sample_compare c b = None /\
  week a = week c /\
  gameTime Fixture.Date_parse a = Some 1756818000000 /\
  gameTime Fixture.Date_parse c = Some 1756731600000 /\
  ~ game_le Fixture.Date_parse a c /\
  sample_sort sample_compare [blank; old] = [old; blank].
Proof.
  intros a b c old blank.
  split; [vm_compute; reflexivity|]. split; [vm_compute; reflexivity|].
  split; [vm_compute; reflexivity|].
  split; [vm_compute; reflexivity|]. split; [reflexivity|].
  split; [vm_compute; reflexivity|]. split; [vm_compute; reflexivity|].
  split; [|vm_compute; reflexivity].
  intros [H|(_ & ta & tc & Ha & Hc & Hle)].
  - cbn in H. lia.
  - assert (Ea : gameTime Fixture.Date_parse a = Some 1756818000000)
      by (vm_compute; reflexivity).
    assert (Ec : gameTime Fixture.Date_parse c = Some 1756731600000)
      by (vm_compute; reflexivity).
    rewrite Ea in Ha. rewrite Ec in Hc. injection Ha as <-. injection Hc as <-. lia.
Qed.

Lemma sort_by_week_then_time_witness :
  let games :=
    [ mkGame NFL (Text "Kansas City Chiefs") (Text "Baltimore Ravens")
        (Some "2025-09-08T13:00:00Z") None 2 None;
      mkGame NFL (Text "Philadelphia Eagles") (Text "Dallas Cowboys")
        (Some "2025-09-01T13:00:00Z") None 1 None;
      mkGame CFB (Text "Notre Dame") (Text "Miami") None None 1 None ] in
  sorts sample_sort /\
  Forall (timed Fixture.Date_parse) games /\
  Permutation games (sample_sort sample_compare games) /\
  forall (i j : nat) (h g : Game),
    (i < j)%nat ->
    sample_sort sample_compare games !! i = Some h ->
    sample_sort sample_compare games !! j = Some g ->
    week h < week g \/
    (week h = week g /\
     exists th tg, gameTime Fixture.Date_parse h = Some th /\
                   gameTime Fixture.Date_parse g = Some tg /\ th <= tg).
Proof.
  intros games.
  assert (H : Forall (timed Fixture.Date_parse) games).
  { repeat constructor; eexists; vm_compute; reflexivity. }
  split; [exact insertion_sort_sorts|]. split; [exact H|].
  destruct (sort_by_week_then_time Fixture.Date_parse Fixture.LocalTZA
              Fixture.toLocaleTimeString sample_sort games
              insertion_sort_sorts H) as (_ & Hp & Hs & _).
  split; [exact Hp|exact Hs].
Defined.

(** The ordering scenario of the specification: week 1 comes before week 2
    whatever the input order; within week 1 the entry without time
    information comes first. *)
Example sort_scenario :
  let g2 := mkGame NFL (Text "Kansas City Chiefs") (Text "Baltimore Ravens")
              (Some "2025-09-08T13:00:00Z") None 2 None in
  let g1 := mkGame NFL (Text "Philadelphia Eagles") (Text "Dallas Cowboys")
              (Some "2025-09-01T13:00:00Z") None 1 None in
  let g0 := mkGame CFB (Text "Notre Dame") (Text "Miami") None None 1 None in
  sample_sort sample_compare [g2; g1] = [g1; g2] /\
  sample_sort sample_compare [g1; g2] = [g1; g2] /\
  sample_sort sample_compare [g2; g1; g0] = [g0; g1; g2].
Proof. repeat split; vm_compute; reflexivity. Qed.

(** C5, as stated, fails: "1.5" is not an integer, yet it is accepted as
    the offset 1; the run goes on to the network and exits with status 0.
    With [--clear-cache] the value of [--days] is not looked at, and an
    empty value counts as no value. *)
Lemma days_with_trailing_text_accepted :
  let r := sample_main (mkOpts "1.5" "" false)
             (Fixture.fresh_world Fixture.morning) in
  JS.integer_text "1.5" = false /\
  resolveOffset (mkOpts "1.5" "" false) = Some (Some 1) /\
  fst r = 0 /\
  requests (snd r) = [teams_url; cfb_url; nfl_url] /\
  stderr (snd r) = [] /\
  fst (sample_main (mkOpts "soon" "" true) (Fixture.fresh_world Fixture.morning)) = 0 /\
  JS.integer_text "" = false /\
  resolveOffset (mkOpts "" "eagles" false) = Some None /\
  fst (sample_main (mkOpts "" "eagles" false) (Fixture.fresh_world Fixture.morning)) = 0.
Proof. repeat split; vm_compute; reflexivity. Qed.

(** White space before the number is skipped, the no-break space and the
    byte order mark included. *)
Example days_after_unicode_space :
  resolveOffset (mkOpts (nbsp +:+ "5") "" false) = Some (Some 5) /\
  resolveOffset (mkOpts (bom +:+ "3") "" false) = Some (Some 3) /\
  fst (sample_main (mkOpts (nbsp +:+ "5") "" false)
         (Fixture.fresh_world Fixture.morning)) = 0.
Proof. repeat split; vm_compute; reflexivity. Qed.

Lemma unparseable_days_is_usage_error_witness :
  let w := Fixture.fresh_world Fixture.morning in
  sample_main (mkOpts "tomorrow" "" false) w =
    (1, add_stderr "Invalid value for --days. Use numbers like 0, +1, -1." w) /\
  requests (snd (sample_main (mkOpts "tomorrow" "" false) w)) = [] /\
  resolveOffset (mkOpts (JS.string_of_Z 7 +:+ "days") "" false) = Some (Some 7).
Proof.
  intros w.
  destruct (sampled unparseable_days_is_usage_error) as (_ & Hno & Hyes).
  destruct (Hno (mkOpts "tomorrow" "" false) w) as (H1 & H2 & _).
  - reflexivity.
  - discriminate.
  - reflexivity.
  - split; [exact H1|]. split; [exact H2|].
    refine (proj1 (Hyes 7 "days" "" w _ _)); [vm_compute; discriminate|reflexivity].
Defined.

Lemma default_is_days_0_witness :
  let opts := mkOpts "" "eagles" false in
  let w := Fixture.fresh_world Fixture.morning in
  stdout (snd (sample_main (mkOpts "" "" false) w)) =
    [ "Games for 2025-09-01:" +:+ newline;
      "[2025-09-01 MON][CFB] Miami Hurricanes @ Notre Dame Fighting Irish - TBD - Channel: N/A";
      "[2025-09-01 MON][CFB] Texas Longhorns @ Ohio State Buckeyes - 12:00 PM - Channel: FOX" ] /\
  resolveOffset opts = Some None /\
  stdout (snd (sample_main opts w)) =
    [ "All games for teams matching " +:+ dquote +:+ "eagles" +:+ dquote +:+ ":"
      +:+ newline;
      "[2025-09-04 THU][NFL] Dallas Cowboys @ Philadelphia Eagles - 08:20 PM - Channel: NBC" ].
Proof.
  intros opts w.
  destruct (sampled default_is_days_0) as (_ & Hday & Hteam).
  pose (l := sample_load w).
  pose (games := match fst l with Ok gs => gs | Throw _ => [] end).
  split; [|split].
  - destruct (Hday w games (snd l) "2025-09-01") as [_ H].
    + vm_compute. reflexivity.
    + vm_compute. reflexivity.
    + rewrite H. vm_compute. reflexivity.
  - refine (proj1 (Hteam opts w games (snd l) _ _ _ _ _)).
    + reflexivity.
    + reflexivity.
    + discriminate.
    + vm_compute. reflexivity.
    + repeat constructor; eexists _, _; split; vm_compute; reflexivity.
  - destruct (Hteam opts w games (snd l)) as [_ H].
    + reflexivity.
    + reflexivity.
    + discriminate.
    + vm_compute. reflexivity.
    + repeat constructor; eexists _, _; split; vm_compute; reflexivity.
    + rewrite H. vm_compute. reflexivity.
Defined.

(** C7. A professional-league record whose home code is "constructor",
    resolved through the lookup built from the sample directory: the
    lookup has no entry for the code, yet the Game's home value is not the
    code. It is the member of that name which the lookup object inherits,
    a function: the row shows the function's source text, and a run with a
    team filter ends in a TypeError. *)
Theorem inherited_member_replaces_raw_code :
  let m := teamMap Fixture.toUpperCase Fixture.teams in
  let raw := mkRawGame "constructor" "DAL" "" "" None None 1 None in
  let g := toGame NFL (Some m) raw in
  m !! "constructor" = None /\
  home g = Member "constructor" /\
  home g <> Text (HomeTeam raw) /\
  away g = Text "Dallas Cowboys" /\
  sample_row g =
    "[WEEK 1 (TBD)][NFL] Dallas Cowboys @ function Object() { [native code] } - TBD - Channel: N/A" /\
  teamFilter Fixture.toLowerCase "cowboys" g
  = Throw "g.home.toLowerCase is not a function".
Proof.
  intros m raw g.
  assert (H : home g = Member "constructor") by (vm_compute; reflexivity).
  split; [vm_compute; reflexivity|]. split; [exact H|].
  split; [rewrite H; discriminate|].
  repeat split; vm_compute; reflexivity.
Qed.

Lemma errors_caught_exit_zero_witness :
  let w := mkWorld (Some ∅) Fixture.morning [] [] [] in
  let r := main (Some "k") "/home/user/.cache/games" Fixture.JSON_parse
             Fixture.JSON_stringify Fixture.network_down Fixture.Date_parse
             Fixture.LocalTZA Fixture.toLocaleTimeString Fixture.toLowerCase
             Fixture.toUpperCase sample_sort (mkOpts "" "" false) w in
  fst r = 0 /\
  stdout (snd r) = [] /\
  stderr (snd r) = ["Error: HTTP 503 for " +:+ teams_url].
Proof.
  intros w r.
  destruct (errors_caught_exit_zero (Some "k") "/home/user/.cache/games"
              Fixture.JSON_parse Fixture.JSON_stringify Fixture.network_down
              Fixture.Date_parse Fixture.LocalTZA Fixture.toLocaleTimeString
              Fixture.toLowerCase Fixture.toUpperCase sample_sort
              (mkOpts "" "" false) (Some 0) w) as (H1 & H2).
  - reflexivity.
  - reflexivity.
  - split; [exact H1|].
    destruct (H2 ("HTTP 503 for " +:+ teams_url)
                 (set_clock (Fixture.morning + 40) (add_request teams_url w)))
      as (_ & H3 & H4).
    + vm_compute. reflexivity.
    + split; [exact H3|exact H4].
Defined.

Lemma empty_selection_prints_one_line_witness :
  let opts := mkOpts "" "zzzz" false in
  let r := sample_main opts (Fixture.fresh_world Fixture.morning) in
  fst r = 0 /\
  stdout (snd r) =
    ["No games found for team matching " +:+ dquote +:+ "zzzz" +:+ dquote +:+ "."] /\
  stderr (snd r) = [].
Proof.
  intros opts r.
  pose (w := Fixture.fresh_world Fixture.morning).
  pose (l := sample_load w).
  pose (games := match fst l with Ok gs => gs | Throw _ => [] end).
  destruct (sampled empty_selection_prints_one_line opts None games w (snd l) (snd l))
    as (H1 & H2 & H3 & _).
  - reflexivity.
  - reflexivity.
  - vm_compute. reflexivity.
  - vm_compute. reflexivity.
  - split; [exact (f_equal fst H1)|]. split; [exact H2|exact H3].
Defined.

(** ** Scenarios of the specification *)

(** Clearing a cache that does not exist is a no-op that reports so. *)
Example clear_nonexistent_cache :
  sample_main (mkOpts "" "" true) (Fixture.fresh_world Fixture.morning)
  = (0, add_stdout "No cache to clear." (Fixture.fresh_world Fixture.morning)).
Proof. reflexivity. Qed.

(** The team filter is a case-insensitive substring match. *)
Example team_filter_scenario :
  let g := mkGame NFL (Text "Philadelphia Eagles") (Text "Dallas Cowboys")
             None None 1 None in
  teamFilter Fixture.toLowerCase (Fixture.toLowerCase "eagles") g = Ok true /\
  teamFilter Fixture.toLowerCase (Fixture.toLowerCase "EAGLES") g = Ok true /\
  teamFilter Fixture.toLowerCase (Fixture.toLowerCase "zzzz") g = Ok false.
Proof. repeat split; reflexivity. Qed.

(** A Game at 18:00Z on 2025-09-01 matches the target date 2025-09-01 and
    neither adjacent date. *)
Example date_filter_scenario :
  let g := mkGame CFB (Text "A") (Text "B") (Some "2025-09-01T18:00:00Z") None 1 None in
  dateFilter "2025-09-01" g = true /\
  dateFilter "2025-08-31" g = false /\
  dateFilter "2025-09-02" g = false.
Proof. repeat split; reflexivity. Qed.

(** A default run on the morning of 2025-09-01, with an empty cache:
    three requests, then the header and the two Games of that date, by
    week then time. The two schedule requests go out together: both
    entries are written 250 ms after the directory's. *)
Example default_run_scenario :
  let r := sample_main (mkOpts "" "" false) (Fixture.fresh_world Fixture.morning) in
  fst r = 0 /\
  requests (snd r) = [teams_url; cfb_url; nfl_url] /\
  stdout (snd r) =
    [ "Games for 2025-09-01:" +:+ newline;
      "[2025-09-01 MON][CFB] Miami Hurricanes @ Notre Dame Fighting Irish - TBD - Channel: N/A";
      "[2025-09-01 MON][CFB] Texas Longhorns @ Ohio State Buckeyes - 12:00 PM - Channel: FOX" ] /\
  stderr (snd r) = [] /\
  mtimeMs <$> cache_entry "nfl_teams.json" (snd r) = Some (Fixture.morning + 120) /\
  mtimeMs <$> cache_entry "cfb_games.json" (snd r) = Some (Fixture.morning + 370) /\
  mtimeMs <$> cache_entry "nfl_schedules.json" (snd r) = Some (Fixture.morning + 370).
Proof. repeat split; vm_compute; reflexivity. Qed.

(** The same run at 22:00 local time on the same day looks for the Games
    of 2025-09-02 and finds none. *)
Example evening_run_scenario :
  let r := sample_main (mkOpts "" "" false) (Fixture.fresh_world Fixture.evening) in
  fst r = 0 /\ stdout (snd r) = ["No games found on day offset 0."].
Proof. repeat split; vm_compute; reflexivity. Qed.

(** A second run half an hour after the first is served from the cache:
    no request is added. *)
Example cached_run_scenario :
  let w1 := snd (sample_main (mkOpts "" "" false)
                   (Fixture.fresh_world Fixture.morning)) in
  let w2 := snd (sample_main (mkOpts "" "" false)
                   (set_clock (Fixture.morning + 1800000) w1)) in
  requests w2 = requests w1 /\ stdout w2 = (stdout w1 ++ stdout w1)%list.
Proof. split; vm_compute; reflexivity. Qed.

(** ** The further properties on explicit inputs *)

Lemma fetchWithCache_frame_witness :
  let w := Fixture.fresh_world Fixture.morning in
  "cfb_games.json" <> "nfl_teams.json" /\
  cache_entry "cfb_games.json" (snd (sample_fetch teams_url "nfl_teams.json" w)) = None.
Proof.
  intros w. assert (H : "cfb_games.json" <> "nfl_teams.json") by discriminate.
  split; [exact H|].
  exact (proj1 (fetchWithCache_frame Fixture.JSON_parse Fixture.JSON_stringify
                  Fixture.network teams_url "nfl_teams.json" "cfb_games.json" w H)).
Defined.

Lemma corrupt_fresh_entry_is_fatal_witness :
  let w := mkWorld (Some {[ "nfl_teams.json" := mkFile "<html>" 0 ]})
             1000 [] [] [] in
  sample_fetch teams_url "nfl_teams.json" (set_clock 3600000 w)
  = (Throw "Unexpected token", set_clock 3600000 w).
Proof.
  intros w.
  apply (corrupt_fresh_entry_is_fatal Fixture.JSON_parse Fixture.JSON_stringify
           Fixture.network teams_url "nfl_teams.json" w (mkFile "<html>" 0)).
  - vm_compute. reflexivity.
  - reflexivity.
  - vm_compute. reflexivity.
Defined.

Lemma lookup_is_case_sensitive_witness :
  let m := teamMap Fixture.toUpperCase Fixture.teams in
  home (toGame NFL (Some m) (mkRawGame "phi" "dal" "" "" None None 1 None))
    = Text "phi" /\
  away (toGame NFL (Some m) (mkRawGame "phi" "dal" "" "" None None 1 None))
    = Text "dal" /\
  home (toGame NFL (Some m) (mkRawGame "toString" "DAL" "" "" None None 1 None))
    = Member "toString" /\
  home (toGame NFL (Some m) (mkRawGame "PHI" "DAL" "" "" None None 1 None))
    = Text "Philadelphia Eagles".
Proof.
  intros m. split; [|split; [|split]].
  - destruct (lookup_is_case_sensitive Fixture.toUpperCase Fixture.teams
                (mkRawGame "phi" "dal" "" "" None None 1 None)
                sample_toUpperCase_has_no_lower) as (_ & H & _).
    apply H. reflexivity.
  - destruct (lookup_is_case_sensitive Fixture.toUpperCase Fixture.teams
                (mkRawGame "phi" "dal" "" "" None None 1 None)
                sample_toUpperCase_has_no_lower) as (_ & _ & H & _).
    apply H. reflexivity.
  - destruct (lookup_is_case_sensitive Fixture.toUpperCase Fixture.teams
                (mkRawGame "toString" "DAL" "" "" None None 1 None)
                sample_toUpperCase_has_no_lower) as (_ & H & _).
    apply H. reflexivity.
  - vm_compute. reflexivity.
Defined.

Lemma loaded_games_are_normalised_witness :
  let l := sample_load (Fixture.fresh_world Fixture.morning) in
  let games := match fst l with Ok games => games | Throw _ => [] end in
  games = (map (toGame CFB None) Fixture.cfb_games
           ++ map (toGame NFL (Some (teamMap Fixture.toUpperCase Fixture.teams)))
                Fixture.nfl_games)%list /\
  Forall normalised games.
Proof.
  intros l games.
  destruct (loaded_games_are_normalised (Some "k") Fixture.JSON_parse
              Fixture.JSON_stringify Fixture.network Fixture.toUpperCase
              (Fixture.fresh_world Fixture.morning) (snd l) games)
    as (teams & cfb & nfl & _ & _ & _ & _ & _ & H).
  - vm_compute. reflexivity.
  - split; [vm_compute; reflexivity|exact H].
Defined.

Lemma computeTargetDate_constant_zone_witness :
  let w := Fixture.fresh_world Fixture.evening in
  computeTargetDate Fixture.LocalTZA 1 w = (Ok "2025-09-03", w).
Proof.
  intros w.
  refine (eq_trans (computeTargetDate_constant_zone Fixture.LocalTZA Fixture.tza 1 w _) _).
  - intros t b. reflexivity.
  - vm_compute. reflexivity.
Defined.

Lemma formatDate_cases_witness :
  formatDate Fixture.Date_parse Fixture.LocalTZA "TBD"
  = "NaN-NaN-NaN INVALID DATE" /\
  formatDate Fixture.Date_parse Fixture.LocalTZA "2025-09-02T01:30:00Z"
  = "2025-09-01 MON".
Proof.
  split.
  - apply (proj1 (formatDate_cases Fixture.Date_parse Fixture.LocalTZA "TBD")).
    reflexivity.
  - destruct (formatDate_cases Fixture.Date_parse Fixture.LocalTZA
                "2025-09-02T01:30:00Z") as [_ H].
    destruct (H 1756776600000 2025 9 1) as [H1 _].
    + vm_compute. reflexivity.
    + vm_compute. reflexivity.
    + rewrite H1. vm_compute. reflexivity.
Defined.

(** Two Games of the same week and time keep their input order, whichever
    comes first. *)
Lemma sort_is_stable_witness :
  let a := mkGame CFB (Text "Notre Dame") (Text "Miami")
             (Some "2025-09-01T13:00:00Z") None 1 None in
  let b := mkGame NFL (Text "Philadelphia Eagles") (Text "Dallas Cowboys")
             (Some "2025-09-01T13:00:00Z") None 1 None in
  let c := mkGame NFL (Text "Kansas City Chiefs") (Text "Baltimore Ravens")
             (Some "2025-08-25T13:00:00Z") None 0 None in
  List.filter (sameSlot Fixture.Date_parse a) (sample_sort sample_compare [a; b; c])
    = [a; b] /\
  List.filter (sameSlot Fixture.Date_parse a) (sample_sort sample_compare [b; c; a])
    = [b; a].
Proof.
  intros a b c. split.
  - refine (eq_trans (sort_is_stable Fixture.Date_parse sample_sort [a; b; c] a
                        insertion_sort_sorts _ _) _).
    + repeat constructor; eexists; vm_compute; reflexivity.
    + left. reflexivity.
    + vm_compute. reflexivity.
  - refine (eq_trans (sort_is_stable Fixture.Date_parse sample_sort [b; c; a] a
                        insertion_sort_sorts _ _) _).
    + repeat constructor; eexists; vm_compute; reflexivity.
    + right. right. left. reflexivity.
    + vm_compute. reflexivity.
Defined.

Lemma days_decimal_round_trip_witness :
  JS.parseInt (JS.string_of_Z (-3)) = Some (-3) /\
  resolveOffset (mkOpts (JS.string_of_Z 14) "" false) = Some (Some 14).
Proof.
  split.
  - refine (proj1 (days_decimal_round_trip (-3) "" false _)).
    vm_compute. discriminate.
  - refine (proj1 (proj2 (days_decimal_round_trip 14 "" false _))).
    vm_compute. discriminate.
Defined.

Lemma clear_cache_short_circuits_witness :
  let r := main None "/home/user/.cache/games" Fixture.JSON_parse Fixture.JSON_stringify
             Fixture.network Fixture.Date_parse Fixture.LocalTZA
             Fixture.toLocaleTimeString Fixture.toLowerCase Fixture.toUpperCase
             sample_sort (mkOpts "soon" "eagles" true)
             (mkWorld (Some {[ "nfl_teams.json" := mkFile "teams" 0 ]})
                Fixture.morning [] [] []) in
  fst r = 0 /\ cache_dir (snd r) = None /\ requests (snd r) = [] /\
  stdout (snd r) = ["Cache cleared: /home/user/.cache/games"].
Proof.
  intros r.
  destruct (clear_cache_short_circuits None "/home/user/.cache/games"
              Fixture.JSON_parse Fixture.JSON_stringify Fixture.network
              Fixture.Date_parse Fixture.LocalTZA Fixture.toLocaleTimeString
              Fixture.toLowerCase Fixture.toUpperCase sample_sort
              (mkOpts "soon" "eagles" true)
              (mkWorld (Some {[ "nfl_teams.json" := mkFile "teams" 0 ]})
                 Fixture.morning [] [] []) eq_refl)
    as (H1 & H2 & H3 & _ & H5).
  split; [exact H1|]. split; [exact H2|]. split; [exact H3|exact H5].
Defined.

Lemma missing_api_key_no_io_witness :
  let w := Fixture.fresh_world Fixture.morning in
  main (Some "") "/home/user/.cache/games" Fixture.JSON_parse Fixture.JSON_stringify
    Fixture.network Fixture.Date_parse Fixture.LocalTZA Fixture.toLocaleTimeString
    Fixture.toLowerCase Fixture.toUpperCase sample_sort (mkOpts "+1" "" false) w
  = (0, add_stderr "Error: Missing API key in .env" w).
Proof.
  intros w.
  apply (missing_api_key_no_io (Some "") "/home/user/.cache/games"
           Fixture.JSON_parse Fixture.JSON_stringify Fixture.network
           Fixture.Date_parse Fixture.LocalTZA Fixture.toLocaleTimeString
           Fixture.toLowerCase Fixture.toUpperCase sample_sort
           (mkOpts "+1" "" false) (Some 1) w); reflexivity.
Defined.

Lemma run_prints_header_and_rows_witness :
  let opts := mkOpts "" "" false in
  let w := Fixture.fresh_world Fixture.morning in
  let l := sample_load w in
  let games := match fst l with Ok games => games | Throw _ => [] end in
  let sel := match fst (sample_select (Some 0) opts games (snd l)) with
             | Ok sel => sel
             | Throw _ => []
             end in
  exists label,
    label = "Games for 2025-09-01" /\
    sample_main opts w =
      (0, mkWorld (cache_dir (snd l)) (clock (snd l)) (requests (snd l))
            ((label +:+ ":" +:+ newline)
               :: map sample_row (sample_sort sample_compare sel))
            []).
Proof.
  intros opts w l games sel.
  destruct (sampled run_prints_header_and_rows opts (Some 0) games sel w (snd l) (snd l))
    as (label & (t & Ht & Hl) & H & _).
  - intros comparefn x. apply insertion_sort_perm.
  - reflexivity.
  - reflexivity.
  - vm_compute. reflexivity.
  - vm_compute. reflexivity.
  - vm_compute. discriminate.
  - exists label. split; [|exact H].
    rewrite Hl. replace t with "2025-09-01"; [reflexivity|].
    assert (E : targetDateAt Fixture.LocalTZA (clock (snd l)) 0 = Some "2025-09-01")
      by (vm_compute; reflexivity).
    rewrite E in Ht. now injection Ht.
Defined.

Lemma warm_cache_run_witness :
  let opts := mkOpts "" "" false in
  let w := set_clock (Fixture.morning + 1800000)
             (snd (sample_main opts (Fixture.fresh_world Fixture.morning))) in
  requests (snd (sample_main opts w)) = requests w /\
  cache_dir (snd (sample_main opts w)) = cache_dir w.
Proof.
  intros opts w.
  destruct (sampled warm_cache_run opts (Some 0) w
              (mkFile "teams" (Fixture.morning + 120))
              (mkFile "cfb" (Fixture.morning + 370))
              (mkFile "nfl" (Fixture.morning + 370))
              Fixture.teams Fixture.cfb_games Fixture.nfl_games)
    as (_ & H1 & H2); try reflexivity; try (vm_compute; reflexivity).
  split; [exact H1|exact H2].
Defined.

Lemma cold_cache_run_witness :
  let w := Fixture.fresh_world Fixture.morning in
  exists w1,
    fst (sample_load w) =
      Ok (map (toGame CFB None) Fixture.cfb_games
          ++ map (toGame NFL (Some (teamMap Fixture.toUpperCase Fixture.teams)))
               Fixture.nfl_games)%list /\
    requests w1 = [teams_url; cfb_url; nfl_url].
Proof.
  intros w.
  destruct (cold_cache_run (Some "k") Fixture.JSON_parse Fixture.JSON_stringify
              Fixture.network Fixture.toUpperCase w 200 200 200 "teams" "cfb" "nfl"
              Fixture.teams Fixture.cfb_games Fixture.nfl_games)
    as (w1 & H1 & H2 & _); try reflexivity; try (intros t; reflexivity).
  exists w1. split; [now rewrite H1|exact H2].
Defined.

(** Both schedule services fail, the professional one after 40 ms and the
    college one after 300 ms: both requests are made, and the error
    reported is the professional one's, which arrived first. When only the
    college service fails, the professional schedule is stored all the
    same. *)
Lemma schedule_fetches_are_independent_witness :
  let w := Fixture.fresh_world Fixture.morning in
  let both_down := loadGames (Some "k") Fixture.JSON_parse Fixture.JSON_stringify
                     Fixture.network_schedules_down Fixture.toUpperCase in
  let cfb_down := loadGames (Some "k") Fixture.JSON_parse Fixture.JSON_stringify
                    Fixture.network_cfb_down Fixture.toUpperCase in
  fst (both_down w) = Throw ("HTTP 502 for " +:+ nfl_url) /\
  requests (snd (both_down w)) = [teams_url; cfb_url; nfl_url] /\
  fst (cfb_down w) = Throw ("HTTP 500 for " +:+ cfb_url) /\
  requests (snd (cfb_down w)) = [teams_url; cfb_url; nfl_url] /\
  content <$> cache_entry "nfl_schedules.json" (snd (cfb_down w)) = Some "nfl".
Proof.
  intros w both_down cfb_down.
  pose (t := fetchNFLTeams (Some "k") Fixture.JSON_parse Fixture.JSON_stringify
               Fixture.network_schedules_down Fixture.toUpperCase w).
  pose (u := fetchNFLTeams (Some "k") Fixture.JSON_parse Fixture.JSON_stringify
               Fixture.network_cfb_down Fixture.toUpperCase w).
  destruct (schedule_fetches_are_independent (Some "k") Fixture.JSON_parse
              Fixture.JSON_stringify Fixture.network_schedules_down
              Fixture.toUpperCase w (snd t)
              (teamMap Fixture.toUpperCase Fixture.teams))
    as (H1 & H2 & _).
  { reflexivity. }
  { vm_compute. reflexivity. }
  destruct (schedule_fetches_are_independent (Some "k") Fixture.JSON_parse
              Fixture.JSON_stringify Fixture.network_cfb_down
              Fixture.toUpperCase w (snd u)
              (teamMap Fixture.toUpperCase Fixture.teams))
    as (K1 & K2 & _ & K4).
  { reflexivity. }
  { vm_compute. reflexivity. }
  unfold both_down, cfb_down. split; [|split; [|split; [|split]]].
  - rewrite H1. vm_compute. reflexivity.
  - rewrite H2. vm_compute. reflexivity.
  - rewrite K1. vm_compute. reflexivity.
  - rewrite K2. vm_compute. reflexivity.
  - refine (eq_trans (K4 200 "nfl" 250 (PGames Fixture.nfl_games) _ _ _ _) _);
      vm_compute; reflexivity.
Defined.

Lemma days_trailing_text_ignored_witness :
  starts_with_digit "days" = false /\
  resolveOffset (mkOpts (JS.string_of_Z 7 +:+ "days") "" false) = Some (Some 7) /\
  resolveOffset (mkOpts (JS.string_of_Z (-1) +:+ ".5") "eagles" false) = Some (Some (-1)).
Proof.
  split; [reflexivity|]. split.
  - apply (days_trailing_text_ignored 7 "days" "" false); [vm_compute; discriminate|].
    reflexivity.
  - apply (days_trailing_text_ignored (-1) ".5" "eagles" false);
      [vm_compute; discriminate|]. reflexivity.
Defined.

Lemma computeTargetDate_local_when_dates_coincide_witness :
  let w := Fixture.fresh_world Fixture.morning in
  computeTargetDate Fixture.LocalTZA 30 w = (Ok "2025-10-01", w).
Proof.
  intros w.
  refine (eq_trans (computeTargetDate_local_when_dates_coincide Fixture.LocalTZA
                      Fixture.tza 30 w _ _ _) _).
  - intros t b. reflexivity.
  - vm_compute. discriminate.
  - vm_compute. reflexivity.
  - vm_compute. reflexivity.
Defined.
